(** * GPS LED clock: wear-levelled EEPROM store and GPS stability filter

    A shallow embedding of [EEPROMWearLeveling.cpp] and
    [GpsStabilityFilter.cpp], with the properties of the two components,
    followed by the parts of the sketch that use the EEPROM directly
    ([setup], [checkPowerCycles], [toggleTimeFormat]), its date and time
    helpers, and the rain animation ([RainEffect.cpp]).

    - The EEPROM is a byte-addressed store; the 16-bit sequence number of a
      slot is read and written byte by byte, low byte first (AVR).
    - [uint8_t], [uint16_t] and [unsigned long] values are integers of [Z]
      with the wrap-around written out ([u8], [u16], [u32]).
    - The filter's loop counters are [nat]: every counter of the filter stays
      at or below the window size, so no 8-bit wrap-around can occur there.
    - [millis()] and [random()] of the Arduino core are answers of the board,
      taken one per call; [random] is assumed to answer within its range
      where a property needs it. *)

From Stdlib Require Import ZArith List Lia Bool.
From Stdlib Require QArith.
From Stdlib Require Import Floats.SpecFloat.
From stdpp Require Import base numbers list sorting strings.

Local Open Scope Z_scope.

(** ** Machine integers *)

Definition u8 (x : Z) : Z := x mod 256.
Definition u16 (x : Z) : Z := x mod 65536.
Definition u32 (x : Z) : Z := x mod 4294967296.

(** ** The EEPROM device *)

(** Cell contents are bytes: a read returns a [uint8_t], a write takes one. *)
Definition EEPROM := Z -> Z.

Definition EEPROM_read (e : EEPROM) (addr : Z) : Z := u8 (e addr).

Definition EEPROM_write (e : EEPROM) (addr : Z) (val : Z) : EEPROM :=
  fun a => if a =? addr then u8 val else e a.

(** [EEPROM.get(addr, sequence)] with a [uint16_t]: two bytes, low byte first. *)
Definition EEPROM_get16 (e : EEPROM) (addr : Z) : Z :=
  EEPROM_read e addr + 256 * EEPROM_read e (addr + 1).

(** [EEPROM.put(addr, sequence)] with a [uint16_t]. *)
Definition EEPROM_put16 (e : EEPROM) (addr : Z) (val : Z) : EEPROM :=
  EEPROM_write (EEPROM_write e addr (u8 val)) (addr + 1) (u8 (val / 256)).

(** An erased device: every cell holds 0xFF. *)
Definition erased : EEPROM := fun _ => 255.

(** ** Wear-levelling configuration (EEPROMWearLeveling.h) *)

Definition WL_NUM_SLOTS : Z := 16.
Definition WL_SEQUENCE_SIZE : Z := 2.
Definition WL_INVALID_SEQUENCE : Z := 0.
Definition WL_TIME_FORMAT_START_ADDR : Z := 10.
Definition WL_POWER_CYCLE_START_ADDR : Z := 60.
Definition WL_TIME_FORMAT_DATA_SIZE : Z := 1.
Definition WL_POWER_CYCLE_DATA_SIZE : Z := 4.
Definition WL_TIME_FORMAT_SLOT_SIZE : Z := WL_SEQUENCE_SIZE + WL_TIME_FORMAT_DATA_SIZE.
Definition WL_POWER_CYCLE_SLOT_SIZE : Z := WL_SEQUENCE_SIZE + WL_POWER_CYCLE_DATA_SIZE.

Inductive WLDataType := WL_TIME_FORMAT | WL_POWER_CYCLE.

Record WLSlotInfo := {
  startAddr : Z;
  slotSize : Z;
  dataSize : Z
}.

Definition slotConfig (dataType : WLDataType) : WLSlotInfo :=
  match dataType with
  | WL_TIME_FORMAT =>
      {| startAddr := WL_TIME_FORMAT_START_ADDR;
         slotSize := WL_TIME_FORMAT_SLOT_SIZE;
         dataSize := WL_TIME_FORMAT_DATA_SIZE |}
  | WL_POWER_CYCLE =>
      {| startAddr := WL_POWER_CYCLE_START_ADDR;
         slotSize := WL_POWER_CYCLE_SLOT_SIZE;
         dataSize := WL_POWER_CYCLE_DATA_SIZE |}
  end.

(** A two-element array indexed by [WLDataType]. *)
Definition arr2 : Type := Z * Z.

Definition get2 (a : arr2) (dataType : WLDataType) : Z :=
  match dataType with WL_TIME_FORMAT => fst a | WL_POWER_CYCLE => snd a end.

Definition set2 (a : arr2) (dataType : WLDataType) (v : Z) : arr2 :=
  match dataType with
  | WL_TIME_FORMAT => (v, snd a)
  | WL_POWER_CYCLE => (fst a, v)
  end.

(** The members of an [EEPROMWearLeveling] object. *)
Record EEPROMWearLeveling := {
  nextSequence : arr2;
  currentSlot : arr2
}.

(** The constructor: sequence 1 and slot 0 for both data types. *)
Definition EEPROMWearLeveling_new : EEPROMWearLeveling :=
  {| nextSequence := (1, 1); currentSlot := (0, 0) |}.

(** ** Private helpers *)

Definition getSlotAddress (dataType : WLDataType) (slotIndex : Z) : Z :=
  let config := slotConfig dataType in
  u16 (startAddr config + slotIndex * slotSize config).

Definition readSlotSequence (e : EEPROM) (dataType : WLDataType) (slotIndex : Z) : Z :=
  if slotIndex >=? WL_NUM_SLOTS then WL_INVALID_SEQUENCE
  else
    let addr := getSlotAddress dataType slotIndex in
    let sequence := EEPROM_get16 e addr in
    if sequence =? 65535 then WL_INVALID_SEQUENCE else sequence.

(** The indices [0 .. n-1] of a counting [for] loop. *)
Definition upto (n : Z) : list Z := map Z.of_nat (seq 0 (Z.to_nat n)).

(** [data] is the caller's buffer as a list of bytes; the null-pointer test of
    the source never fires on the calls made by this class. *)
Definition writeSlot (e : EEPROM) (dataType : WLDataType) (slotIndex sequence : Z)
    (data : list Z) : EEPROM :=
  if slotIndex >=? WL_NUM_SLOTS then e
  else
    let addr := getSlotAddress dataType slotIndex in
    let config := slotConfig dataType in
    let e1 := EEPROM_put16 e addr sequence in
    fold_left
      (fun e' i => EEPROM_write e' (addr + WL_SEQUENCE_SIZE + i) (nth (Z.to_nat i) data 0))
      (upto (dataSize config)) e1.

(** [None] is the source's [false]; [Some data] is [true] with the buffer filled. *)
Definition readSlot (e : EEPROM) (dataType : WLDataType) (slotIndex : Z) : option (list Z) :=
  if slotIndex >=? WL_NUM_SLOTS then None
  else
    let sequence := readSlotSequence e dataType slotIndex in
    if sequence =? WL_INVALID_SEQUENCE then None
    else
      let addr := getSlotAddress dataType slotIndex in
      let config := slotConfig dataType in
      Some (map (fun i => EEPROM_read e (addr + WL_SEQUENCE_SIZE + i)) (upto (dataSize config))).

(** One iteration of the scan: the pair is [(highestSequence, latestSlot)]. *)
Definition scan_step (e : EEPROM) (dataType : WLDataType) (acc : Z * Z) (slot : Z) : Z * Z :=
  let '(highestSequence, latestSlot) := acc in
  let sequence := readSlotSequence e dataType slot in
  if negb (sequence =? WL_INVALID_SEQUENCE)
     && ((highestSequence =? WL_INVALID_SEQUENCE)
         || (sequence >? highestSequence)
         || ((highestSequence >? 61440) && (sequence <? 4096)))
  then (sequence, slot)
  else acc.

Definition findLatestSlot (e : EEPROM) (dataType : WLDataType) : Z :=
  snd (fold_left (scan_step e dataType) (upto WL_NUM_SLOTS) (WL_INVALID_SEQUENCE, 0)).

(** ** Public API *)

Definition begin_step (e : EEPROM) (w : EEPROMWearLeveling) (dataType : WLDataType)
    : EEPROMWearLeveling :=
  let latestSlot := findLatestSlot e dataType in
  let latestSequence := readSlotSequence e dataType latestSlot in
  {| currentSlot := set2 (currentSlot w) dataType latestSlot;
     nextSequence :=
       set2 (nextSequence w) dataType
         (if latestSequence =? WL_INVALID_SEQUENCE then 1
          else if latestSequence =? 65535 then 1 else u16 (latestSequence + 1)) |}.

Definition begin (e : EEPROM) (w : EEPROMWearLeveling) : EEPROMWearLeveling :=
  fold_left (begin_step e) [WL_TIME_FORMAT; WL_POWER_CYCLE] w.

Definition readTimeFormat (e : EEPROM) : Z :=
  let latestSlot := findLatestSlot e WL_TIME_FORMAT in
  match readSlot e WL_TIME_FORMAT latestSlot with
  | Some data =>
      let format := nth 0 data 0 in
      if (format =? 0) || (format =? 1) then format else 0
  | None => 0
  end.

(** The value after [nextSequence[...]++] and the test that follows it. *)
Definition bump_sequence (s : Z) : Z :=
  let s1 := u16 (s + 1) in
  if (s1 =? WL_INVALID_SEQUENCE) || (s1 =? 65535) then 1 else s1.

Definition writeTimeFormat (format : Z) (s : EEPROM * EEPROMWearLeveling)
    : EEPROM * EEPROMWearLeveling :=
  let '(e, w) := s in
  if negb (format =? 0) && negb (format =? 1) then s
  else
    let slot := (get2 (currentSlot w) WL_TIME_FORMAT + 1) mod WL_NUM_SLOTS in
    let w1 := {| nextSequence := nextSequence w;
                 currentSlot := set2 (currentSlot w) WL_TIME_FORMAT slot |} in
    let e1 := writeSlot e WL_TIME_FORMAT (get2 (currentSlot w1) WL_TIME_FORMAT)
                (get2 (nextSequence w1) WL_TIME_FORMAT) [format] in
    (e1, {| nextSequence :=
              set2 (nextSequence w1) WL_TIME_FORMAT
                (bump_sequence (get2 (nextSequence w1) WL_TIME_FORMAT));
            currentSlot := currentSlot w1 |}).

(** The four bytes of an [unsigned long], low byte first. *)
Definition bytes_of_u32 (x : Z) : list Z :=
  [u8 x; u8 (x / 256); u8 (x / 65536); u8 (x / 16777216)].

Definition u32_of_bytes (b : list Z) : Z :=
  nth 0 b 0 + 256 * nth 1 b 0 + 65536 * nth 2 b 0 + 16777216 * nth 3 b 0.

Definition readPowerCycleCount (e : EEPROM) : Z :=
  let latestSlot := findLatestSlot e WL_POWER_CYCLE in
  match readSlot e WL_POWER_CYCLE latestSlot with
  | Some data =>
      let count := u32_of_bytes data in
      if count <? 4294967040 then count else 0
  | None => 0
  end.

Definition writePowerCycleCount (count : Z) (s : EEPROM * EEPROMWearLeveling)
    : EEPROM * EEPROMWearLeveling :=
  let '(e, w) := s in
  let slot := (get2 (currentSlot w) WL_POWER_CYCLE + 1) mod WL_NUM_SLOTS in
  let w1 := {| nextSequence := nextSequence w;
               currentSlot := set2 (currentSlot w) WL_POWER_CYCLE slot |} in
  let e1 := writeSlot e WL_POWER_CYCLE (get2 (currentSlot w1) WL_POWER_CYCLE)
              (get2 (nextSequence w1) WL_POWER_CYCLE) (bytes_of_u32 (u32 count)) in
  (e1, {| nextSequence :=
            set2 (nextSequence w1) WL_POWER_CYCLE
              (bump_sequence (get2 (nextSequence w1) WL_POWER_CYCLE));
          currentSlot := currentSlot w1 |}).

(** [getDebugInfo]: the pair [(currentSlot, nextSequence - 1)]. *)
Definition getDebugInfo (w : EEPROMWearLeveling) (dataType : WLDataType) : Z * Z :=
  (get2 (currentSlot w) dataType, u16 (get2 (nextSequence w) dataType - 1)).

(** ** Histories of writes and what the storage holds after them *)

(** A write request made through the public API. *)
Inductive wl_write :=
  | WriteTimeFormat (format : Z)
  | WritePowerCycleCount (count : Z).

Definition write_type (op : wl_write) : WLDataType :=
  match op with
  | WriteTimeFormat _ => WL_TIME_FORMAT
  | WritePowerCycleCount _ => WL_POWER_CYCLE
  end.

(** The input validation of the writer: only [writeTimeFormat] has one. *)
Definition write_accepted (op : wl_write) : Prop :=
  match op with
  | WriteTimeFormat format => format = 0 \/ format = 1
  | WritePowerCycleCount _ => True
  end.

(** The bytes handed to [writeSlot]. *)
Definition write_data (op : wl_write) : list Z :=
  match op with
  | WriteTimeFormat format => [format]
  | WritePowerCycleCount count => bytes_of_u32 (u32 count)
  end.

Definition do_write (s : EEPROM * EEPROMWearLeveling) (op : wl_write)
    : EEPROM * EEPROMWearLeveling :=
  match op with
  | WriteTimeFormat format => writeTimeFormat format s
  | WritePowerCycleCount count => writePowerCycleCount count s
  end.

Definition run_writes (ops : list wl_write) (s : EEPROM * EEPROMWearLeveling)
    : EEPROM * EEPROMWearLeveling :=
  fold_left do_write ops s.

(** No slot of the data type holds a valid sequence number. *)
Definition no_valid_slot (e : EEPROM) (dataType : WLDataType) : Prop :=
  forall slot, 0 <= slot < WL_NUM_SLOTS -> readSlotSequence e dataType slot = WL_INVALID_SEQUENCE.

(** The sequence number that slot [slot] holds once the writes numbered
    [1 .. n] have gone round the ring: the largest [j <= n] congruent to
    [slot] modulo the number of slots, or "invalid" when there is none. *)
Definition ring_sequence (n slot : Z) : Z :=
  let j := n - (n - slot) mod WL_NUM_SLOTS in
  if 1 <=? j then j else WL_INVALID_SEQUENCE.

(** The storage of a data type after [n] writes of which the last carried the
    bytes [data]. *)
Definition ring_state (dataType : WLDataType) (n : Z) (data : list Z) (e : EEPROM) : Prop :=
  (forall slot, 0 <= slot < WL_NUM_SLOTS ->
     readSlotSequence e dataType slot = ring_sequence n slot)
  /\ (1 <= n -> readSlot e dataType (n mod WL_NUM_SLOTS) = Some (map u8 data)).

(** The storage of the wraparound scenario, populated directly: slot [hi]
    holds 0xFFFE, slot [ff] holds 0xFFFF and slot [lo] holds 0x0001, all other
    cells are erased. *)
Definition wraparound_storage (dataType : WLDataType) (hi ff lo : Z) : EEPROM :=
  EEPROM_put16
    (EEPROM_put16
       (EEPROM_put16 erased (getSlotAddress dataType hi) 65534)
       (getSlotAddress dataType ff) 65535)
    (getSlotAddress dataType lo) 1.

(** A device at the end of its sequence numbers: it started erased and an
    object called [begin] and then [writeTimeFormat(1)] 0xFFFE times. *)
Definition worn_device : EEPROM :=
  fst (run_writes (repeat (WriteTimeFormat 1) (Z.to_nat 65534))
         (erased, begin erased EEPROMWearLeveling_new)).

(** The validity check that the reader of the data type applies to a value. *)
Definition value_valid (op : wl_write) : Prop :=
  match op with
  | WriteTimeFormat format => format = 0 \/ format = 1
  | WritePowerCycleCount count => 0 <= count < 4294967040
  end.

Definition write_value (op : wl_write) : Z :=
  match op with
  | WriteTimeFormat format => format
  | WritePowerCycleCount count => count
  end.

(** The read operation of a data type.  Neither reader uses a member of the
    object: both scan the device again. *)
Definition read_back (dataType : WLDataType) (e : EEPROM) : Z :=
  match dataType with
  | WL_TIME_FORMAT => readTimeFormat e
  | WL_POWER_CYCLE => readPowerCycleCount e
  end.

(** The body that [writeTimeFormat] (after its validation) and
    [writePowerCycleCount] share: rotate to the next slot, write, bump. *)
Definition rotate_write (dataType : WLDataType) (data : list Z)
    (s : EEPROM * EEPROMWearLeveling) : EEPROM * EEPROMWearLeveling :=
  let '(e, w) := s in
  let slot := (get2 (currentSlot w) dataType + 1) mod WL_NUM_SLOTS in
  (writeSlot e dataType slot (get2 (nextSequence w) dataType) data,
   {| nextSequence :=
        set2 (nextSequence w) dataType (bump_sequence (get2 (nextSequence w) dataType));
      currentSlot := set2 (currentSlot w) dataType slot |}).

(** The members of an object that has made, or has recovered by [begin], the
    writes numbered [1 .. n]. *)
Definition instance_at (dataType : WLDataType) (n : Z) (w : EEPROMWearLeveling) : Prop :=
  get2 (currentSlot w) dataType = n mod WL_NUM_SLOTS
  /\ (n < 65534 -> get2 (nextSequence w) dataType = n + 1).

(** The payload bytes of a slot as they stand on the device. *)
Definition slot_payload (e : EEPROM) (dataType : WLDataType) (slot : Z) : list Z :=
  map (fun i => EEPROM_read e (getSlotAddress dataType slot + WL_SEQUENCE_SIZE + i))
    (upto (dataSize (slotConfig dataType))).

(** The check of a placement of the wraparound scenario: the scan answers the
    slot of 0x0001 when that slot comes after the slot of 0xFFFE in scan
    order, and the slot of 0xFFFE otherwise. *)
Definition placement_scan (dataType : WLDataType) (hi ff lo : Z) : bool :=
  let e := wraparound_storage dataType hi ff lo in
  (hi =? ff) || (hi =? lo) || (ff =? lo)
  || ((findLatestSlot e dataType =? (if hi <? lo then lo else hi))
      && (readSlotSequence e dataType hi =? 65534)
      && (EEPROM_get16 e (getSlotAddress dataType ff) =? 65535)
      && (readSlotSequence e dataType ff =? WL_INVALID_SEQUENCE)
      && (readSlotSequence e dataType lo =? 1)).

(** ** Proof automation *)

(** Unfold the configuration table down to its numbers. *)
Ltac config :=
  cbv [slotConfig startAddr slotSize dataSize
       WL_TIME_FORMAT_START_ADDR WL_POWER_CYCLE_START_ADDR
       WL_TIME_FORMAT_SLOT_SIZE WL_POWER_CYCLE_SLOT_SIZE
       WL_TIME_FORMAT_DATA_SIZE WL_POWER_CYCLE_DATA_SIZE
       WL_SEQUENCE_SIZE WL_NUM_SLOTS WL_INVALID_SEQUENCE] in *.

(** Decide the comparisons of the goal and let [lia] finish. *)
Ltac split_tests :=
  rewrite ?Z.gtb_ltb, ?Z.geb_leb;
  repeat match goal with
    | |- context [?x =? ?y] => destruct (Z.eqb_spec x y)
    | |- context [Z.leb ?x ?y] => destruct (Z.leb_spec x y)
    | |- context [Z.ltb ?x ?y] => destruct (Z.ltb_spec x y)
    end; cbn [andb orb negb].

(** ** The GPS stability filter (GpsStabilityFilter.h, GpsStabilityFilter.cpp) *)

Definition GPS_FILTER_WINDOW_SIZE : nat := 12.
Definition GPS_FILTER_MIN_READINGS : nat := 3.

(** The arithmetic of the AVR's [float] that the filter uses: the constant
    [0.0], addition, division, the comparison [>] and the conversion of a
    [uint8_t] count. *)
Class FloatOps := {
  float : Type;
  f_zero : float;
  f_add : float -> float -> float;
  f_div : float -> float -> float;
  f_gt : float -> float -> bool;
  f_of_u8 : nat -> float
}.

(** What the sort needs of [>]: no two values are each greater than the other,
    and "not greater than" is transitive.  Both hold for IEEE floats other
    than NaN; TinyGPS++ computes its coordinates from parsed integers and
    yields no NaN. *)
Class FloatOrder (FO : FloatOps) : Prop := {
  f_gt_asym : forall a b : float, f_gt a b = true -> f_gt b a = false;
  f_gt_negtrans : forall a b c : float,
      f_gt a b = false -> f_gt b c = false -> f_gt a c = false
}.

Section Filter.
Context {FO : FloatOps}.

(** What the filter reads from the [TinyGPSPlus] object it refers to. *)
Record TinyGPSPlus := {
  location_isValid : bool;
  location_lat : float;
  location_lng : float;
  altitude_isValid : bool;
  altitude_feet : float
}.

Record GpsStabilityFilter := {
  latReadings : list float;
  lonReadings : list float;
  altReadings : list float;
  currentIndex : nat;
  totalReadings : nat
}.

(** The constructor: zeroed arrays, cursor and counter at 0. *)
Definition GpsStabilityFilter_new : GpsStabilityFilter :=
  {| latReadings := replicate GPS_FILTER_WINDOW_SIZE f_zero;
     lonReadings := replicate GPS_FILTER_WINDOW_SIZE f_zero;
     altReadings := replicate GPS_FILTER_WINDOW_SIZE f_zero;
     currentIndex := 0;
     totalReadings := 0 |}.

Definition update (gpsModule : TinyGPSPlus) (st : GpsStabilityFilter) : GpsStabilityFilter :=
  if negb (location_isValid gpsModule) || negb (altitude_isValid gpsModule) then st
  else
    {| latReadings := <[currentIndex st := location_lat gpsModule]> (latReadings st);
       lonReadings := <[currentIndex st := location_lng gpsModule]> (lonReadings st);
       altReadings := <[currentIndex st := altitude_feet gpsModule]> (altReadings st);
       currentIndex := (currentIndex st + 1) mod GPS_FILTER_WINDOW_SIZE;
       totalReadings :=
         if (totalReadings st <? GPS_FILTER_WINDOW_SIZE)%nat
         then (totalReadings st + 1)%nat else totalReadings st |}.

Definition getTotalReadings (st : GpsStabilityFilter) : nat := totalReadings st.

(** The body of the inner loop of the bubble sort: compare [arr[j]] with
    [arr[j + 1]] and swap them when the first is greater. *)
Definition swap_if_gt (arr : list float) (j : nat) : list float :=
  match arr !! j, arr !! (j + 1)%nat with
  | Some a, Some b => if f_gt a b then <[(j + 1)%nat := a]> (<[j := b]> arr) else arr
  | _, _ => arr
  end.

Definition sortFloatArray (arr : list float) (n : nat) : list float :=
  fold_left
    (fun arr i => fold_left swap_if_gt (seq 0 (n - i - 1)) arr)
    (seq 0 (n - 1)) arr.

(** The part shared by the three getters, from the copy into the working
    buffer to the division; [raw] is the live GPS value, returned when the
    summation loop runs no iteration.  The working buffer is modelled by its
    first [readingsToProcess] cells, the only ones the source initialises and
    reads. *)
Definition trimmed_mean (readings : list float) (readingsToProcess : nat) (raw : float)
    : float :=
  let workingBuffer := sortFloatArray (take readingsToProcess readings) readingsToProcess in
  let startIndex := if (5 <? readingsToProcess)%nat then (readingsToProcess / 5)%nat else 0%nat in
  let endIndex :=
    if (5 <? readingsToProcess)%nat then (readingsToProcess - startIndex)%nat
    else readingsToProcess in
  let '(sum, count) :=
    fold_left
      (fun '(sum, count) i => (f_add sum (default f_zero (workingBuffer !! i)), S count))
      (seq startIndex (endIndex - startIndex)) (f_zero, 0%nat) in
  if (0 <? count)%nat then f_div sum (f_of_u8 count) else raw.

Definition getFilteredLatitude (gpsModule : TinyGPSPlus) (st : GpsStabilityFilter) : float :=
  if (totalReadings st <? GPS_FILTER_MIN_READINGS)%nat || negb (location_isValid gpsModule)
  then location_lat gpsModule
  else trimmed_mean (latReadings st) (totalReadings st) (location_lat gpsModule).

Definition getFilteredLongitude (gpsModule : TinyGPSPlus) (st : GpsStabilityFilter) : float :=
  if (totalReadings st <? GPS_FILTER_MIN_READINGS)%nat || negb (location_isValid gpsModule)
  then location_lng gpsModule
  else trimmed_mean (lonReadings st) (totalReadings st) (location_lng gpsModule).

Definition getFilteredAltitude (gpsModule : TinyGPSPlus) (st : GpsStabilityFilter) : float :=
  if (totalReadings st <? GPS_FILTER_MIN_READINGS)%nat || negb (altitude_isValid gpsModule)
  then altitude_feet gpsModule
  else trimmed_mean (altReadings st) (totalReadings st) (altitude_feet gpsModule).

(** The three channels, and the members and getters that belong to each. *)
Inductive channel := Latitude | Longitude | Altitude.

Definition readings (ch : channel) (st : GpsStabilityFilter) : list float :=
  match ch with
  | Latitude => latReadings st
  | Longitude => lonReadings st
  | Altitude => altReadings st
  end.

(** The live value of the GPS module for a channel. *)
Definition raw_value (ch : channel) (gpsModule : TinyGPSPlus) : float :=
  match ch with
  | Latitude => location_lat gpsModule
  | Longitude => location_lng gpsModule
  | Altitude => altitude_feet gpsModule
  end.

(** The validity flag that the getter of a channel tests. *)
Definition channel_isValid (ch : channel) (gpsModule : TinyGPSPlus) : bool :=
  match ch with
  | Latitude | Longitude => location_isValid gpsModule
  | Altitude => altitude_isValid gpsModule
  end.

Definition getFiltered (ch : channel) (gpsModule : TinyGPSPlus) (st : GpsStabilityFilter)
    : float :=
  match ch with
  | Latitude => getFilteredLatitude gpsModule st
  | Longitude => getFilteredLongitude gpsModule st
  | Altitude => getFilteredAltitude gpsModule st
  end.

(** Both validity flags that [update] tests. *)
Definition gps_valid (gpsModule : TinyGPSPlus) : bool :=
  location_isValid gpsModule && altitude_isValid gpsModule.

Definition run_updates (gs : list TinyGPSPlus) (st : GpsStabilityFilter) : GpsStabilityFilter :=
  fold_left (fun st g => update g st) gs st.

(** The bounds of the object's members: three arrays of the window size, a
    cursor inside them and a counter up to the window size. *)
Definition filter_ok (st : GpsStabilityFilter) : Prop :=
  length (latReadings st) = GPS_FILTER_WINDOW_SIZE
  /\ length (lonReadings st) = GPS_FILTER_WINDOW_SIZE
  /\ length (altReadings st) = GPS_FILTER_WINDOW_SIZE
  /\ (currentIndex st < GPS_FILTER_WINDOW_SIZE)%nat
  /\ (totalReadings st <= GPS_FILTER_WINDOW_SIZE)%nat.

(** "Not greater than", the order in which the sort arranges the samples. *)
Definition f_le (a b : float) : Prop := f_gt a b = false.

(** The mean as the source computes it: the sum from [0.0], left to right,
    divided by the number of values. *)
Definition mean (l : list float) : float :=
  f_div (fold_left f_add l f_zero) (f_of_u8 (length l)).

(** The samples kept of [n] sorted ones: without the lowest and the highest
    [n / 5] when [n > 5], all of them otherwise. *)
Definition trim (n : nat) (sorted : list float) : list float :=
  if (5 <? n)%nat then drop (n / 5) (take (n - n / 5) sorted) else sorted.

(** One compare-and-swap pass of the bubble sort over the first [k + 1]
    elements, by recursion on the list. *)
Fixpoint bubble (l : list float) (k : nat) : list float :=
  match k, l with
  | S k', x :: y :: l' =>
      if f_gt x y then y :: bubble (x :: l') k' else x :: bubble (y :: l') k'
  | _, _ => l
  end.

End Filter.

(** Exact rational arithmetic as an instance of the float operations. *)
Definition Q_ops : FloatOps :=
  {| float := QArith_base.Q;
     f_zero := QArith_base.inject_Z 0;
     f_add := QArith_base.Qplus;
     f_div := QArith_base.Qdiv;
     f_gt := fun a b => negb (QArith_base.Qle_bool a b);
     f_of_u8 := fun n => QArith_base.inject_Z (Z.of_nat n) |}.

(** IEEE 754 binary32, the [float] of the AVR, with round to nearest even. *)
Definition binary32_of_nat (n : nat) : spec_float :=
  match n with
  | O => S754_zero false
  | S _ => binary_round 24 128 false (Pos.of_nat n) 0
  end.

Definition binary32_ops : FloatOps :=
  {| float := spec_float;
     f_zero := S754_zero false;
     f_add := SFadd 24 128;
     f_div := SFdiv 24 128;
     f_gt := fun a b => SFltb b a;
     f_of_u8 := binary32_of_nat |}.

(** A GPS module that reports the same value [x] on its three channels. *)
Definition gps_reading {FO : FloatOps} (valid : bool) (x : float) : TinyGPSPlus :=
  {| location_isValid := valid; location_lat := x; location_lng := x;
     altitude_isValid := valid; altitude_feet := x |}.

(** The filter after valid updates with the integers of [ks], in that order. *)
Definition fed {FO : FloatOps} (ks : list nat) : GpsStabilityFilter :=
  run_updates (map (fun k => gps_reading true (f_of_u8 k)) ks) GpsStabilityFilter_new.

(** What the sort needs of [>], asked of the values of one list only. *)
Definition ordered_on {FO : FloatOps} (l : list float) : Prop :=
  (forall a b, a ∈ l -> b ∈ l -> f_gt a b = true -> f_gt b a = false)
  /\ (forall a b c, a ∈ l -> b ∈ l -> c ∈ l ->
        f_gt a b = false -> f_gt b c = false -> f_gt a c = false).

(** NaN, the binary32 value that [>] does not order. *)
Definition is_NaN (x : spec_float) : bool :=
  match x with S754_nan => true | _ => false end.

(** ** Histories with restarts, and the view of one data type *)

Definition WLDataType_eqb (a b : WLDataType) : bool :=
  match a, b with
  | WL_TIME_FORMAT, WL_TIME_FORMAT | WL_POWER_CYCLE, WL_POWER_CYCLE => true
  | _, _ => false
  end.

(** The write requests of a history that go to one data type. *)
Definition writes_of (dataType : WLDataType) (ops : list wl_write) : list wl_write :=
  List.filter (fun op => WLDataType_eqb (write_type op) dataType) ops.

(** A call made on an object: [begin] or a write request. *)
Inductive wl_event :=
  | CallBegin
  | CallWrite (op : wl_write).

Definition do_event (s : EEPROM * EEPROMWearLeveling) (ev : wl_event)
    : EEPROM * EEPROMWearLeveling :=
  match ev with
  | CallBegin => (fst s, begin (fst s) (snd s))
  | CallWrite op => do_write s op
  end.

Definition run_events (evs : list wl_event) (s : EEPROM * EEPROMWearLeveling)
    : EEPROM * EEPROMWearLeveling :=
  fold_left do_event evs s.

(** Power-on sessions: in each, a new object calls [begin] and makes the
    writes of the session; the device is what the sessions share. *)
Definition run_sessions (sessions : list (list wl_write)) (e : EEPROM) : EEPROM :=
  fold_left (fun e ops => fst (run_writes ops (e, begin e EEPROMWearLeveling_new)))
    sessions e.

(** What the store can see of one data type: the sequence number and the
    payload of each of its slots, and its two members. *)
Definition same_view (dataType : WLDataType) (s s' : EEPROM * EEPROMWearLeveling) : Prop :=
  (forall slot, 0 <= slot < WL_NUM_SLOTS ->
     readSlotSequence (fst s) dataType slot = readSlotSequence (fst s') dataType slot
     /\ slot_payload (fst s) dataType slot = slot_payload (fst s') dataType slot)
  /\ get2 (currentSlot (snd s)) dataType = get2 (currentSlot (snd s')) dataType
  /\ get2 (nextSequence (snd s)) dataType = get2 (nextSequence (snd s')) dataType.

(** The cells that the memory layout gives to a data type. *)
Definition in_region (dataType : WLDataType) (addr : Z) : Prop :=
  startAddr (slotConfig dataType) <= addr
  < startAddr (slotConfig dataType) + WL_NUM_SLOTS * slotSize (slotConfig dataType).

(** ** The sketch's own cells (config.h, main.cpp)

    The sketch keeps the time format and a power-cycle counter at fixed
    addresses and reaches them through the EEPROM library directly. *)

Definition EEPROM_TIME_FORMAT_ADDR : Z := 0.
Definition EEPROM_POWER_CYCLE_ADDR : Z := 1.
Definition POWER_CYCLE_THRESHOLD : Z := 5.

Definition WELCOME_MESSAGE : string := "Arduino 32x8 GPS Clock".
Definition FORMAT_12H_MESSAGE : string := "12H FORMAT".
Definition FORMAT_24H_MESSAGE : string := "24H FORMAT".

(** [EEPROM.get(addr, cycleCount)] with an [unsigned long]: four bytes, low
    byte first. *)
Definition EEPROM_get32 (e : EEPROM) (addr : Z) : Z :=
  u32_of_bytes (map (fun i => EEPROM_read e (addr + i)) (upto 4)).

(** [EEPROM.put(addr, cycleCount)] with an [unsigned long]. *)
Definition EEPROM_put32 (e : EEPROM) (addr : Z) (val : Z) : EEPROM :=
  fold_left
    (fun e' i => EEPROM_write e' (addr + i) (nth (Z.to_nat i) (bytes_of_u32 val) 0))
    (upto 4) e.

(** What the functions below share: the device, the global [is24Hour], and
    the texts handed to [scrollTextHorizontally], oldest first. *)
Record sketch := {
  eeprom : EEPROM;
  is24Hour : bool;
  scrolled : list string
}.

Definition toggleTimeFormat (s : sketch) : sketch :=
  let currentFormat := negb (EEPROM_read (eeprom s) EEPROM_TIME_FORMAT_ADDR =? 0) in
  let newFormat := negb currentFormat in
  {| eeprom := EEPROM_write (eeprom s) EEPROM_TIME_FORMAT_ADDR (if newFormat then 1 else 0);
     is24Hour := newFormat;
     scrolled :=
       scrolled s ++ [if newFormat then FORMAT_24H_MESSAGE else FORMAT_12H_MESSAGE] |}.

Definition checkPowerCycles (s : sketch) : sketch :=
  let cycleCount := EEPROM_get32 (eeprom s) EEPROM_POWER_CYCLE_ADDR in
  let cycleCount := u32 (cycleCount + 1) in
  let s1 := {| eeprom := EEPROM_put32 (eeprom s) EEPROM_POWER_CYCLE_ADDR cycleCount;
               is24Hour := is24Hour s;
               scrolled := scrolled s |} in
  if cycleCount >? POWER_CYCLE_THRESHOLD then toggleTimeFormat s1 else s1.

(** [setup] up to the startup animation: the cached format is loaded and the
    power cycle is counted.  (The baud rate is only read before this point.) *)
Definition setup_begin (e : EEPROM) : sketch :=
  let format := EEPROM_read e EEPROM_TIME_FORMAT_ADDR in
  checkPowerCycles {| eeprom := e; is24Hour := (format =? 1); scrolled := [] |}.

(** [setup] after the animation: the welcome message, then the counter is
    reset. *)
Definition setup_end (s : sketch) : sketch :=
  {| eeprom := EEPROM_put32 (eeprom s) EEPROM_POWER_CYCLE_ADDR 0;
     is24Hour := is24Hour s;
     scrolled := scrolled s ++ [WELCOME_MESSAGE] |}.

Definition setup (e : EEPROM) : sketch := setup_end (setup_begin e).

(** [n] power cycles in a row, each cut during the startup animation: the
    device goes through [setup_begin] only. *)
Definition interrupted_boots (n : nat) (e : EEPROM) : EEPROM :=
  Nat.iter n (fun e' => eeprom (setup_begin e')) e.

(** The format byte after [t] calls of [toggleTimeFormat]. *)
Definition toggled (b t : Z) : Z :=
  if t =? 0 then b
  else if Z.odd t then (if b =? 0 then 1 else 0) else (if b =? 0 then 0 else 1).

(** ** Date and time helpers (main.cpp) *)

(** C's [%] and [/] on [int] truncate towards zero: [Z.rem] and [Z.quot]. *)
Definition getOrdinalSuffix (number : Z) : string :=
  let lastTwoDigits := Z.rem number 100 in
  let lastDigit := Z.rem number 10 in
  if (lastTwoDigits >=? 11) && (lastTwoDigits <=? 13) then "th"
  else if lastDigit =? 1 then "st"
  else if lastDigit =? 2 then "nd"
  else if lastDigit =? 3 then "rd"
  else "th".

Record TimeDigits := {
  hourOnes : Z;
  hourTens : Z;
  minOnes : Z;
  minTens : Z;
  secOnes : Z;
  secTens : Z
}.

(** What the accessors of the library's [DateTime] return for
    [currentDateTime]; each is a [uint8_t]. *)
Module DateTime.
Record t := {
  hour : Z;
  twelveHour : Z;
  minute : Z;
  second : Z
}.
End DateTime.

(** The character ['0']. *)
Definition char_0 : Z := 48.

Definition extractTimeDigits (is24Hour : bool) (currentDateTime : DateTime.t) : TimeDigits :=
  let hour :=
    if is24Hour then DateTime.hour currentDateTime
    else DateTime.twelveHour currentDateTime in
  let minute := DateTime.minute currentDateTime in
  let second := DateTime.second currentDateTime in
  {| hourOnes := u8 (Z.rem hour 10 + char_0);
     hourTens := u8 (Z.quot hour 10 + char_0);
     minOnes := u8 (Z.rem minute 10 + char_0);
     minTens := u8 (Z.quot minute 10 + char_0);
     secOnes := u8 (Z.rem second 10 + char_0);
     secTens := u8 (Z.quot second 10 + char_0) |}.

(** The number that two digit characters spell. *)
Definition digits_value (tens ones : Z) : Z := 10 * (tens - char_0) + (ones - char_0).

Definition is_digit (c : Z) : Prop := char_0 <= c <= char_0 + 9.

(** ** The rain animation (RainEffect.h, RainEffect.cpp)

    [millis()] and [random()] belong to the Arduino core; each call takes the
    next answer of the board.  The panel is known by its size; what [render]
    does to it is the list of pixels it draws.  The [int] members hold
    coordinates and small counts, which stay far from the 16-bit limits. *)

Module Rain.

Record Max72xxPanel := {
  width : Z;
  height : Z
}.

(** The board: the answer to the k-th call of the core, for [millis()] and
    for [random(howsmall, howbig)], and the number of calls made so far. *)
Record Arduino := {
  millis_at : nat -> Z;
  random_at : nat -> Z -> Z -> Z;
  calls : nat
}.

Definition next_call (a : Arduino) : Arduino :=
  {| millis_at := millis_at a; random_at := random_at a; calls := S (calls a) |}.

Definition millis (a : Arduino) : Z * Arduino :=
  (u32 (millis_at a (calls a)), next_call a).

(** [random(howbig)] is [random] with [howsmall = 0]. *)
Definition random (howsmall howbig : Z) (a : Arduino) : Z * Arduino :=
  (random_at a (calls a) howsmall howbig, next_call a).

(** What the core promises for [random]: a value from [howsmall] up to
    [howbig - 1]. *)
Definition random_in_range (a : Arduino) : Prop :=
  forall k howsmall howbig,
    howsmall < howbig -> howsmall <= random_at a k howsmall howbig < howbig.

Module RainDrop.
Record t := {
  positionX : Z;
  positionY : Z;
  fallSpeedMs : Z;
  isActive : bool;
  lastMoveTime : Z
}.
End RainDrop.

Module GroundFlash.
Record t := {
  positionX : Z;
  brightnessIntensity : Z;
  initialIntensity : Z;
  flashStartTime : Z;
  isActive : bool
}.
End GroundFlash.

Definition MAX_RAINDROPS : nat := 8.
Definition MAX_GROUND_FLASHES : nat := 6.
Definition RAIN_SPAWN_INTERVAL_MS : Z := 250.
Definition RAIN_FALL_SPEED_MIN_MS : Z := 80.
Definition RAIN_FALL_SPEED_MAX_MS : Z := 150.
Definition GROUND_FLASH_DURATION_MS : Z := 300.

Record RainEffect := {
  ledMatrix : Max72xxPanel;
  raindropArray : list RainDrop.t;
  groundFlashArray : list GroundFlash.t;
  lastRaindropSpawnTime : Z;
  isInitializedFlag : bool
}.

(** The constructor clears [isActive] in every cell and leaves the other
    members of the cells as it finds them: [drops] and [flashes] are the
    cells before the constructor runs. *)
Definition RainEffect_new (matrix : Max72xxPanel) (drops : nat -> RainDrop.t)
    (flashes : nat -> GroundFlash.t) : RainEffect :=
  {| ledMatrix := matrix;
     raindropArray :=
       map (fun i =>
              {| RainDrop.positionX := RainDrop.positionX (drops i);
                 RainDrop.positionY := RainDrop.positionY (drops i);
                 RainDrop.fallSpeedMs := RainDrop.fallSpeedMs (drops i);
                 RainDrop.isActive := false;
                 RainDrop.lastMoveTime := RainDrop.lastMoveTime (drops i) |})
         (seq 0 MAX_RAINDROPS);
     groundFlashArray :=
       map (fun i =>
              {| GroundFlash.positionX := GroundFlash.positionX (flashes i);
                 GroundFlash.brightnessIntensity := GroundFlash.brightnessIntensity (flashes i);
                 GroundFlash.initialIntensity := GroundFlash.initialIntensity (flashes i);
                 GroundFlash.flashStartTime := GroundFlash.flashStartTime (flashes i);
                 GroundFlash.isActive := false |})
         (seq 0 MAX_GROUND_FLASHES);
     lastRaindropSpawnTime := 0;
     isInitializedFlag := false |}.

Definition initialize (st : RainEffect) (a : Arduino) : RainEffect * Arduino :=
  let '(now, a1) := millis a in
  ({| ledMatrix := ledMatrix st;
      raindropArray := raindropArray st;
      groundFlashArray := groundFlashArray st;
      lastRaindropSpawnTime := now;
      isInitializedFlag := true |}, a1).

(** [spawnNewRaindrop]: the first inactive cell, if there is one, becomes a
    new drop; the loop stops there. *)
Fixpoint spawnNewRaindrop (matrix : Max72xxPanel) (drops : list RainDrop.t) (a : Arduino)
    : list RainDrop.t * Arduino :=
  match drops with
  | [] => ([], a)
  | d :: rest =>
      if negb (RainDrop.isActive d) then
        let '(x, a1) := random 0 (width matrix) a in
        let '(speed, a2) := random RAIN_FALL_SPEED_MIN_MS (RAIN_FALL_SPEED_MAX_MS + 1) a1 in
        let '(now, a3) := millis a2 in
        ({| RainDrop.positionX := x;
            RainDrop.positionY := 0;
            RainDrop.fallSpeedMs := speed;
            RainDrop.isActive := true;
            RainDrop.lastMoveTime := now |} :: rest, a3)
      else
        let '(rest', a') := spawnNewRaindrop matrix rest a in
        (d :: rest', a')
  end.

(** [createGroundImpactFlash]: the first inactive cell, if there is one,
    becomes the flash; [initialIntensity] is not assigned. *)
Fixpoint createGroundImpactFlash (xPosition : Z) (flashes : list GroundFlash.t) (a : Arduino)
    : list GroundFlash.t * Arduino :=
  match flashes with
  | [] => ([], a)
  | f :: rest =>
      if negb (GroundFlash.isActive f) then
        let '(now, a1) := millis a in
        ({| GroundFlash.positionX := xPosition;
            GroundFlash.brightnessIntensity := 15;
            GroundFlash.initialIntensity := GroundFlash.initialIntensity f;
            GroundFlash.flashStartTime := now;
            GroundFlash.isActive := true |} :: rest, a1)
      else
        let '(rest', a') := createGroundImpactFlash xPosition rest a in
        (f :: rest', a')
  end.

(** The body of the loop of [updateFallingRaindrops] for one cell. *)
Definition fall (matrix : Max72xxPanel) (currentTime : Z) (d : RainDrop.t)
    (flashes : list GroundFlash.t) (a : Arduino)
    : RainDrop.t * list GroundFlash.t * Arduino :=
  if RainDrop.isActive d then
    if u32 (currentTime - RainDrop.lastMoveTime d) >=? u32 (RainDrop.fallSpeedMs d) then
      let y := RainDrop.positionY d + 1 in
      if y >=? height matrix then
        let '(flashes', a') := createGroundImpactFlash (RainDrop.positionX d) flashes a in
        ({| RainDrop.positionX := RainDrop.positionX d;
            RainDrop.positionY := y;
            RainDrop.fallSpeedMs := RainDrop.fallSpeedMs d;
            RainDrop.isActive := false;
            RainDrop.lastMoveTime := currentTime |}, flashes', a')
      else
        ({| RainDrop.positionX := RainDrop.positionX d;
            RainDrop.positionY := y;
            RainDrop.fallSpeedMs := RainDrop.fallSpeedMs d;
            RainDrop.isActive := true;
            RainDrop.lastMoveTime := currentTime |}, flashes, a)
    else (d, flashes, a)
  else (d, flashes, a).

Fixpoint fall_all (matrix : Max72xxPanel) (currentTime : Z) (drops : list RainDrop.t)
    (flashes : list GroundFlash.t) (a : Arduino)
    : list RainDrop.t * list GroundFlash.t * Arduino :=
  match drops with
  | [] => ([], flashes, a)
  | d :: rest =>
      let '(d', flashes1, a1) := fall matrix currentTime d flashes a in
      let '(rest', flashes2, a2) := fall_all matrix currentTime rest flashes1 a1 in
      (d' :: rest', flashes2, a2)
  end.

Definition updateFallingRaindrops (matrix : Max72xxPanel) (drops : list RainDrop.t)
    (flashes : list GroundFlash.t) (a : Arduino)
    : list RainDrop.t * list GroundFlash.t * Arduino :=
  let '(currentTime, a1) := millis a in
  fall_all matrix currentTime drops flashes a1.

(** The body of the loop of [updateGroundImpactFlashes] for one cell.
    [fade elapsedTime] is the value of the source's floating-point expression
    [(int)(15 * (1.0 - (float)elapsedTime / GROUND_FLASH_DURATION_MS))]. *)
Definition age (fade : Z -> Z) (currentTime : Z) (f : GroundFlash.t) : GroundFlash.t :=
  if GroundFlash.isActive f then
    let elapsedTime := u32 (currentTime - GroundFlash.flashStartTime f) in
    if elapsedTime >=? GROUND_FLASH_DURATION_MS then
      {| GroundFlash.positionX := GroundFlash.positionX f;
         GroundFlash.brightnessIntensity := GroundFlash.brightnessIntensity f;
         GroundFlash.initialIntensity := GroundFlash.initialIntensity f;
         GroundFlash.flashStartTime := GroundFlash.flashStartTime f;
         GroundFlash.isActive := false |}
    else
      {| GroundFlash.positionX := GroundFlash.positionX f;
         GroundFlash.brightnessIntensity := fade elapsedTime;
         GroundFlash.initialIntensity := GroundFlash.initialIntensity f;
         GroundFlash.flashStartTime := GroundFlash.flashStartTime f;
         GroundFlash.isActive := true |}
  else f.

Definition updateGroundImpactFlashes (fade : Z -> Z) (flashes : list GroundFlash.t)
    (a : Arduino) : list GroundFlash.t * Arduino :=
  let '(currentTime, a1) := millis a in
  (map (age fade currentTime) flashes, a1).

Definition update (fade : Z -> Z) (st : RainEffect) (a : Arduino) : RainEffect * Arduino :=
  if negb (isInitializedFlag st) then (st, a)
  else
    let '(currentTime, a1) := millis a in
    let '(drops1, last1, a2) :=
      if u32 (currentTime - lastRaindropSpawnTime st) >=? RAIN_SPAWN_INTERVAL_MS then
        let '(drops', a') := spawnNewRaindrop (ledMatrix st) (raindropArray st) a1 in
        (drops', currentTime, a')
      else (raindropArray st, lastRaindropSpawnTime st, a1) in
    let '(drops2, flashes2, a3) :=
      updateFallingRaindrops (ledMatrix st) drops1 (groundFlashArray st) a2 in
    let '(flashes3, a4) := updateGroundImpactFlashes fade flashes2 a3 in
    ({| ledMatrix := ledMatrix st;
        raindropArray := drops2;
        groundFlashArray := flashes3;
        lastRaindropSpawnTime := last1;
        isInitializedFlag := true |}, a4).

(** The pixels that [render] draws for one ground flash, in the order of the
    [drawPixel] calls. *)
Definition flash_pixels (matrix : Max72xxPanel) (f : GroundFlash.t) : list (Z * Z) :=
  if GroundFlash.isActive f then
    let groundYPosition := height matrix - 1 in
    let x := GroundFlash.positionX f in
    [(x, groundYPosition)]
    ++ (if GroundFlash.brightnessIntensity f >? 10 then
          (if x >? 0 then [(x - 1, groundYPosition)] else [])
          ++ (if x <? width matrix - 1 then [(x + 1, groundYPosition)] else [])
        else [])
    ++ (if (GroundFlash.brightnessIntensity f >? 5) && (groundYPosition >? 0)
        then [(x, groundYPosition - 1)] else [])
  else [].

Definition drop_pixels (d : RainDrop.t) : list (Z * Z) :=
  if RainDrop.isActive d then [(RainDrop.positionX d, RainDrop.positionY d)] else [].

(** [render]: [None] when the display is left alone; otherwise the screen is
    cleared, the pixels of the list are drawn, and the display is written. *)
Definition render (st : RainEffect) : option (list (Z * Z)) :=
  if negb (isInitializedFlag st) then None
  else if existsb RainDrop.isActive (raindropArray st)
          || existsb GroundFlash.isActive (groundFlashArray st)
  then Some (concat (map drop_pixels (raindropArray st))
             ++ concat (map (flash_pixels (ledMatrix st)) (groundFlashArray st)))
  else None.

(** Calls made on the object by the sketch. *)
Inductive call := Initialize | Update.

Definition do_call (fade : Z -> Z) (s : RainEffect * Arduino) (c : call)
    : RainEffect * Arduino :=
  match c with
  | Initialize => initialize (fst s) (snd s)
  | Update => update fade (fst s) (snd s)
  end.

Definition run (fade : Z -> Z) (cs : list call) (s : RainEffect * Arduino)
    : RainEffect * Arduino :=
  fold_left (do_call fade) cs s.

Definition in_matrix (matrix : Max72xxPanel) (p : Z * Z) : Prop :=
  0 <= fst p < width matrix /\ 0 <= snd p < height matrix.

(** Active drops are on the panel; active flashes are above a column of it. *)
Definition on_panel (st : RainEffect) : Prop :=
  Forall (fun d => RainDrop.isActive d = true ->
                   0 <= RainDrop.positionX d < width (ledMatrix st)
                   /\ 0 <= RainDrop.positionY d < height (ledMatrix st))
    (raindropArray st)
  /\ Forall (fun f => GroundFlash.isActive f = true ->
                      0 <= GroundFlash.positionX f < width (ledMatrix st))
       (groundFlashArray st).

Definition active_drops (st : RainEffect) : nat :=
  length (List.filter RainDrop.isActive (raindropArray st)).

Definition active_flashes (st : RainEffect) : nat :=
  length (List.filter GroundFlash.isActive (groundFlashArray st)).

(** The panel of the clock: four 8x8 modules side by side. *)
Definition panel_32x8 : Max72xxPanel := {| width := 32; height := 8 |}.

Definition blank_drop : RainDrop.t :=
  {| RainDrop.positionX := 0; RainDrop.positionY := 0; RainDrop.fallSpeedMs := 0;
     RainDrop.isActive := false; RainDrop.lastMoveTime := 0 |}.

Definition blank_flash : GroundFlash.t :=
  {| GroundFlash.positionX := 0; GroundFlash.brightnessIntensity := 0;
     GroundFlash.initialIntensity := 0; GroundFlash.flashStartTime := 0;
     GroundFlash.isActive := false |}.

(** A board whose clock advances by [step] milliseconds from one call of the
    core to the next and whose [random] answers the lower bound. *)
Definition steady_board (step : Z) : Arduino :=
  {| millis_at := fun k => step * Z.of_nat k;
     random_at := fun _ howsmall _ => howsmall;
     calls := 0 |}.

(** The object of the sketch after [initialize] on such a board, with the
    board as the call leaves it. *)
Definition started (step : Z) : RainEffect * Arduino :=
  initialize (RainEffect_new panel_32x8 (fun _ => blank_drop) (fun _ => blank_flash))
    (steady_board step).

(** The value of the fade expression of [updateGroundImpactFlashes] in exact
    arithmetic, for examples. *)
Definition exact_fade (elapsedTime : Z) : Z :=
  Z.quot (15 * (GROUND_FLASH_DURATION_MS - elapsedTime)) GROUND_FLASH_DURATION_MS.

End Rain.

(** * Properties of the wear-levelling store *)

(** ** Basic facts on the device *)

Lemma u8_range x : 0 <= u8 x < 256.
Proof. unfold u8. apply Z.mod_pos_bound. lia. Qed.

Lemma u8_u8 x : u8 (u8 x) = u8 x.
Proof. unfold u8. apply Zmod_mod. Qed.

Lemma u8_small x : 0 <= x < 256 -> u8 x = x.
Proof. intros. unfold u8. apply Z.mod_small. lia. Qed.

Lemma u16_bytes x : u8 x + 256 * u8 (x / 256) = u16 x.
Proof. unfold u8, u16. Z.div_mod_to_equations. lia. Qed.

Lemma EEPROM_read_range e a : 0 <= EEPROM_read e a < 256.
Proof. apply u8_range. Qed.

Lemma EEPROM_read_write e a v b :
  EEPROM_read (EEPROM_write e a v) b = if b =? a then u8 v else EEPROM_read e b.
Proof.
  unfold EEPROM_read, EEPROM_write. destruct (b =? a); [apply u8_u8 | reflexivity].
Qed.

Lemma EEPROM_get16_range e a : 0 <= EEPROM_get16 e a < 65536.
Proof.
  unfold EEPROM_get16.
  pose proof (EEPROM_read_range e a). pose proof (EEPROM_read_range e (a + 1)). lia.
Qed.

Lemma getSlotAddress_eq dataType slot :
  0 <= slot < WL_NUM_SLOTS ->
  getSlotAddress dataType slot
  = startAddr (slotConfig dataType) + slot * slotSize (slotConfig dataType).
Proof.
  unfold WL_NUM_SLOTS, getSlotAddress, u16. intros H.
  apply Z.mod_small. destruct dataType; config; lia.
Qed.

Lemma upto_1 : upto 1 = [0].
Proof. reflexivity. Qed.

Lemma upto_4 : upto 4 = [0; 1; 2; 3].
Proof. reflexivity. Qed.

Lemma slot_in_range slot :
  0 <= slot < WL_NUM_SLOTS -> (slot >=? WL_NUM_SLOTS) = false.
Proof. unfold WL_NUM_SLOTS. intros H. rewrite Z.geb_leb. apply Z.leb_gt. lia. Qed.

(** What a cell holds after [writeSlot]: the two sequence bytes, then the
    payload bytes, and every cell outside the slot as before. *)
Lemma EEPROM_read_writeSlot e dataType slot sequence data a :
  0 <= slot < WL_NUM_SLOTS ->
  EEPROM_read (writeSlot e dataType slot sequence data) a
  = let addr := getSlotAddress dataType slot in
    if a =? addr then u8 sequence
    else if a =? addr + 1 then u8 (sequence / 256)
    else if (addr + 2 <=? a) && (a <? addr + 2 + dataSize (slotConfig dataType))
         then u8 (nth (Z.to_nat (a - addr - 2)) data 0)
         else EEPROM_read e a.
Proof.
  intros Hs. unfold writeSlot.
  rewrite (slot_in_range _ Hs).
  set (addr := getSlotAddress dataType slot). cbv zeta.
  unfold EEPROM_put16.
  destruct dataType; config; rewrite ?upto_1, ?upto_4; cbn [fold_left];
    repeat rewrite EEPROM_read_write; rewrite ?u8_u8;
    repeat match goal with
      | |- context [?x =? ?y] => destruct (Z.eqb_spec x y)
      | |- context [?x <=? ?y] => destruct (Z.leb_spec x y)
      | |- context [?x <? ?y] => destruct (Z.ltb_spec x y)
      end; cbn [andb]; try lia; try reflexivity;
    try (f_equal; f_equal; lia).
Qed.

(** [writeSlot] touches the cells of its own slot only. *)
Lemma EEPROM_read_writeSlot_outside e dataType slot sequence data a :
  0 <= slot < WL_NUM_SLOTS ->
  a < getSlotAddress dataType slot
  \/ getSlotAddress dataType slot + slotSize (slotConfig dataType) <= a ->
  EEPROM_read (writeSlot e dataType slot sequence data) a = EEPROM_read e a.
Proof.
  intros Hs Ha. rewrite EEPROM_read_writeSlot by assumption. cbv zeta.
  destruct dataType; config; split_tests; lia || reflexivity.
Qed.

(** The slots of the two data types, and two slots of one type, do not overlap. *)
Lemma slots_disjoint dataType slot dataType' slot' :
  0 <= slot < WL_NUM_SLOTS -> 0 <= slot' < WL_NUM_SLOTS ->
  dataType' <> dataType \/ slot' <> slot ->
  getSlotAddress dataType' slot' + slotSize (slotConfig dataType')
    <= getSlotAddress dataType slot
  \/ getSlotAddress dataType slot + slotSize (slotConfig dataType)
    <= getSlotAddress dataType' slot'.
Proof.
  intros Hs Hs' Hne. rewrite !getSlotAddress_eq by assumption.
  destruct dataType, dataType'; config; lia || (destruct Hne; [congruence | lia]).
Qed.

Lemma slotSize_eq dataType :
  slotSize (slotConfig dataType) = 2 + dataSize (slotConfig dataType)
  /\ 1 <= dataSize (slotConfig dataType).
Proof. destruct dataType; config; lia. Qed.

Lemma EEPROM_get16_writeSlot e dataType slot sequence data :
  0 <= slot < WL_NUM_SLOTS ->
  EEPROM_get16 (writeSlot e dataType slot sequence data) (getSlotAddress dataType slot)
  = u16 sequence.
Proof.
  intros Hs. unfold EEPROM_get16. rewrite !EEPROM_read_writeSlot by assumption. cbv zeta.
  rewrite Z.eqb_refl.
  replace (getSlotAddress dataType slot + 1 =? getSlotAddress dataType slot) with false
    by (symmetry; apply Z.eqb_neq; lia).
  rewrite Z.eqb_refl. apply u16_bytes.
Qed.

Lemma readSlotSequence_writeSlot_same e dataType slot sequence data :
  0 <= slot < WL_NUM_SLOTS ->
  readSlotSequence (writeSlot e dataType slot sequence data) dataType slot
  = if u16 sequence =? 65535 then WL_INVALID_SEQUENCE else u16 sequence.
Proof.
  intros Hs. unfold readSlotSequence. rewrite (slot_in_range _ Hs). cbv zeta.
  rewrite EEPROM_get16_writeSlot by assumption. reflexivity.
Qed.

Lemma readSlotSequence_writeSlot_other e dataType slot sequence data dataType' slot' :
  0 <= slot < WL_NUM_SLOTS -> 0 <= slot' < WL_NUM_SLOTS ->
  dataType' <> dataType \/ slot' <> slot ->
  readSlotSequence (writeSlot e dataType slot sequence data) dataType' slot'
  = readSlotSequence e dataType' slot'.
Proof.
  intros Hs Hs' Hne. unfold readSlotSequence. rewrite (slot_in_range _ Hs'). cbv zeta.
  unfold EEPROM_get16.
  pose proof (slots_disjoint _ _ _ _ Hs Hs' Hne) as Hd.
  pose proof (slotSize_eq dataType'). pose proof (slotSize_eq dataType).
  rewrite !EEPROM_read_writeSlot_outside by (assumption || lia). reflexivity.
Qed.

Lemma readSlot_writeSlot_other e dataType slot sequence data dataType' slot' :
  0 <= slot < WL_NUM_SLOTS -> 0 <= slot' < WL_NUM_SLOTS ->
  dataType' <> dataType \/ slot' <> slot ->
  readSlot (writeSlot e dataType slot sequence data) dataType' slot'
  = readSlot e dataType' slot'.
Proof.
  intros Hs Hs' Hne. unfold readSlot. rewrite (slot_in_range _ Hs'). cbv zeta.
  rewrite readSlotSequence_writeSlot_other by assumption.
  destruct (readSlotSequence e dataType' slot' =? WL_INVALID_SEQUENCE); [reflexivity |].
  f_equal. apply map_ext_in. intros i Hi.
  pose proof (slots_disjoint _ _ _ _ Hs Hs' Hne) as Hd.
  pose proof (slotSize_eq dataType'). pose proof (slotSize_eq dataType).
  apply EEPROM_read_writeSlot_outside; [assumption |].
  unfold upto in Hi. apply in_map_iff in Hi as (k & <- & Hk). apply in_seq in Hk.
  unfold WL_SEQUENCE_SIZE. lia.
Qed.

Lemma readSlot_writeSlot_same e dataType slot sequence data :
  0 <= slot < WL_NUM_SLOTS ->
  1 <= sequence <= 65534 ->
  Z.of_nat (length data) = dataSize (slotConfig dataType) ->
  readSlot (writeSlot e dataType slot sequence data) dataType slot = Some (map u8 data).
Proof.
  intros Hs Hq Hlen. unfold readSlot. rewrite (slot_in_range _ Hs). cbv zeta.
  rewrite readSlotSequence_writeSlot_same by assumption.
  assert (Hu : u16 sequence = sequence) by (unfold u16; apply Z.mod_small; lia).
  rewrite Hu.
  replace (sequence =? 65535) with false by (symmetry; apply Z.eqb_neq; lia).
  replace (sequence =? WL_INVALID_SEQUENCE) with false
    by (symmetry; apply Z.eqb_neq; unfold WL_INVALID_SEQUENCE; lia).
  f_equal.
  destruct dataType; config; rewrite ?upto_1, ?upto_4; cbn [map];
    rewrite !EEPROM_read_writeSlot by assumption; cbv zeta; config.
  - destruct data as [|b0 [|? ?]]; cbn [length] in Hlen; try lia.
    split_tests; try lia.
    replace (getSlotAddress WL_TIME_FORMAT slot + 2 + 0
             - getSlotAddress WL_TIME_FORMAT slot - 2) with 0 by lia.
    reflexivity.
  - destruct data as [|b0 [|b1 [|b2 [|b3 [|? ?]]]]]; cbn [length] in Hlen; try lia.
    split_tests; try lia.
    set (a := getSlotAddress WL_POWER_CYCLE slot).
    replace (a + 2 + 0 - a - 2) with 0 by lia.
    replace (a + 2 + 1 - a - 2) with 1 by lia.
    replace (a + 2 + 2 - a - 2) with 2 by lia.
    replace (a + 2 + 3 - a - 2) with 3 by lia.
    reflexivity.
Qed.

(** ** The scan for the latest slot *)

Lemma In_upto n i : In i (upto n) <-> 0 <= i < n.
Proof.
  unfold upto. rewrite in_map_iff. split.
  - intros (k & <- & Hk). apply in_seq in Hk. lia.
  - intros H. exists (Z.to_nat i). split; [lia |]. apply in_seq. lia.
Qed.

Lemma NoDup_upto n : NoDup (upto n).
Proof.
  unfold upto. apply NoDup_fmap_2; [| apply NoDup_seq].
  intros a b H. lia.
Qed.

(** The scan leaves the accumulator alone on slots without a valid sequence. *)
Lemma scan_invalid e dataType l acc :
  (forall slot, In slot l -> readSlotSequence e dataType slot = WL_INVALID_SEQUENCE) ->
  fold_left (scan_step e dataType) l acc = acc.
Proof.
  revert acc. induction l as [|slot l IH]; intros acc Hl; [reflexivity |].
  cbn [fold_left]. rewrite IH by (intros; apply Hl; right; assumption).
  unfold scan_step. destruct acc as [h p].
  rewrite (Hl slot) by (left; reflexivity). reflexivity.
Qed.

(** While every sequence seen lies below [n], so does the best one. *)
Lemma scan_below e dataType n l acc :
  (forall slot, In slot l -> readSlotSequence e dataType slot < n) ->
  fst acc < n ->
  fst (fold_left (scan_step e dataType) l acc) < n.
Proof.
  revert acc. induction l as [|slot l IH]; intros acc Hl Hacc; [assumption |].
  cbn [fold_left]. apply IH; [intros; apply Hl; right; assumption |].
  unfold scan_step. destruct acc as [h p].
  match goal with |- context [if ?c then _ else _] => destruct c end; cbn [fst].
  - apply Hl. left. reflexivity.
  - assumption.
Qed.

(** The slot that holds the largest sequence wins when it is reached. *)
Lemma scan_hit e dataType n slot acc :
  readSlotSequence e dataType slot = n -> 1 <= n -> fst acc < n ->
  scan_step e dataType acc slot = (n, slot).
Proof.
  intros Hs Hn Hacc. unfold scan_step. destruct acc as [h p]. cbn [fst] in Hacc.
  rewrite Hs. unfold WL_INVALID_SEQUENCE. split_tests; try reflexivity; lia.
Qed.

(** Once the best sequence is [n], slots whose sequences are smaller and not
    far enough below [n] for the wraparound test do not replace it. *)
Lemma scan_keep e dataType n l p :
  1 <= n ->
  (forall slot, In slot l ->
     readSlotSequence e dataType slot < n
     /\ (61440 < n -> readSlotSequence e dataType slot = WL_INVALID_SEQUENCE
                      \/ 4096 <= readSlotSequence e dataType slot)) ->
  fold_left (scan_step e dataType) l (n, p) = (n, p).
Proof.
  intros Hn. induction l as [|slot l IH]; intros Hl; [reflexivity |].
  cbn [fold_left].
  replace (scan_step e dataType (n, p) slot) with (n, p);
    [apply IH; intros; apply Hl; right; assumption |].
  destruct (Hl slot (or_introl eq_refl)) as [H1 H2].
  unfold scan_step, WL_INVALID_SEQUENCE in *.
  split_tests; try reflexivity; lia.
Qed.

Lemma readSlotSequence_nonneg e dataType slot :
  0 <= readSlotSequence e dataType slot <= 65534.
Proof.
  unfold readSlotSequence, WL_INVALID_SEQUENCE.
  destruct (slot >=? WL_NUM_SLOTS); [lia |]. cbv zeta.
  pose proof (EEPROM_get16_range e (getSlotAddress dataType slot)).
  split_tests; lia.
Qed.

(** With nothing valid in storage the scan answers slot 0. *)
Lemma findLatestSlot_no_valid_slot e dataType :
  no_valid_slot e dataType -> findLatestSlot e dataType = 0.
Proof.
  intros H. unfold findLatestSlot. rewrite scan_invalid; [reflexivity |].
  intros slot Hin. apply H. apply In_upto. assumption.
Qed.

Lemma ring_sequence_latest n :
  1 <= n -> ring_sequence n (n mod WL_NUM_SLOTS) = n.
Proof.
  intros Hn. unfold ring_sequence, WL_NUM_SLOTS.
  replace ((n - n mod 16) mod 16) with 0 by (Z.div_mod_to_equations; lia).
  cbv zeta. rewrite Z.sub_0_r. destruct (Z.leb_spec 1 n); [reflexivity | lia].
Qed.

Lemma ring_sequence_older n slot :
  0 <= slot < WL_NUM_SLOTS -> slot <> n mod WL_NUM_SLOTS ->
  ring_sequence n slot = WL_INVALID_SEQUENCE
  \/ (1 <= ring_sequence n slot /\ n - 15 <= ring_sequence n slot < n).
Proof.
  unfold ring_sequence, WL_NUM_SLOTS, WL_INVALID_SEQUENCE. intros Hs Hne. cbv zeta.
  destruct (Z.leb_spec 1 (n - (n - slot) mod 16)); [right | left; reflexivity].
  Z.div_mod_to_equations. lia.
Qed.

(** The scan finds the slot of the last write on a ring that has not wrapped. *)
Lemma findLatestSlot_ring e dataType n :
  (forall slot, 0 <= slot < WL_NUM_SLOTS ->
     readSlotSequence e dataType slot = ring_sequence n slot) ->
  1 <= n <= 65534 ->
  findLatestSlot e dataType = n mod WL_NUM_SLOTS.
Proof.
  intros Hring Hn. unfold findLatestSlot.
  assert (Hp : 0 <= n mod WL_NUM_SLOTS < WL_NUM_SLOTS)
    by (apply Z.mod_pos_bound; reflexivity).
  set (p := n mod WL_NUM_SLOTS) in *.
  pose proof (NoDup_upto WL_NUM_SLOTS) as Hnd.
  destruct (in_split p (upto WL_NUM_SLOTS)) as (l1 & l2 & Hsplit);
    [apply In_upto; assumption |].
  assert (Hother : forall slot, In slot (l1 ++ l2) ->
            readSlotSequence e dataType slot = WL_INVALID_SEQUENCE
            \/ (1 <= readSlotSequence e dataType slot
                /\ n - 15 <= readSlotSequence e dataType slot < n)).
  { intros slot Hin.
    assert (Hr : 0 <= slot < WL_NUM_SLOTS).
    { apply In_upto. rewrite Hsplit. apply in_app_iff. apply in_app_iff in Hin.
      destruct Hin; [left | right; right]; assumption. }
    rewrite Hring by assumption. apply ring_sequence_older; [assumption |].
    intros ->. rewrite Hsplit in Hnd.
    apply NoDup_app in Hnd as (_ & Hn2 & Hn3). apply NoDup_cons in Hn3 as [Hn3 _].
    apply in_app_iff in Hin as [Hin | Hin]; apply list_elem_of_In in Hin.
    - apply (Hn2 p Hin). left.
    - apply Hn3. assumption. }
  rewrite Hsplit, fold_left_app. cbn [fold_left].
  rewrite (scan_hit e dataType n).
  - rewrite scan_keep; [reflexivity | lia |].
    intros slot Hin.
    destruct (Hother slot) as [H0 | H1]; [apply in_app_iff; right; assumption | |];
      unfold WL_INVALID_SEQUENCE in *; lia.
  - rewrite Hring by assumption. apply ring_sequence_latest. lia.
  - lia.
  - apply scan_below; [| cbn; unfold WL_INVALID_SEQUENCE; lia].
    intros slot Hin.
    destruct (Hother slot) as [H0 | H1]; [apply in_app_iff; left; assumption | |];
      unfold WL_INVALID_SEQUENCE in *; lia.
Qed.

(** ** Writes on a ring that has not wrapped *)

Lemma get2_set2_same a dataType v : get2 (set2 a dataType v) dataType = v.
Proof. destruct dataType; reflexivity. Qed.

Lemma get2_set2_other a dataType dataType' v :
  dataType' <> dataType -> get2 (set2 a dataType v) dataType' = get2 a dataType'.
Proof. destruct dataType, dataType'; intros H; reflexivity || congruence. Qed.

Lemma do_write_accepted s op :
  write_accepted op -> do_write s op = rotate_write (write_type op) (write_data op) s.
Proof.
  destruct s as [e w]. destruct op as [format | count]; cbn; intros H.
  - unfold writeTimeFormat.
    replace (negb (format =? 0) && negb (format =? 1)) with false
      by (destruct H; subst; reflexivity).
    reflexivity.
  - reflexivity.
Qed.

Lemma write_data_length op :
  Z.of_nat (length (write_data op)) = dataSize (slotConfig (write_type op)).
Proof. destruct op; reflexivity. Qed.

(** What [begin] leaves in the members of a data type. *)
Lemma begin_members e w dataType :
  get2 (currentSlot (begin e w)) dataType = findLatestSlot e dataType
  /\ get2 (nextSequence (begin e w)) dataType
     = let latestSequence := readSlotSequence e dataType (findLatestSlot e dataType) in
       if latestSequence =? WL_INVALID_SEQUENCE then 1
       else if latestSequence =? 65535 then 1 else u16 (latestSequence + 1).
Proof. destruct dataType; split; reflexivity. Qed.

Lemma ring_sequence_0 slot :
  0 <= slot < WL_NUM_SLOTS -> ring_sequence 0 slot = WL_INVALID_SEQUENCE.
Proof.
  unfold ring_sequence, WL_NUM_SLOTS. intros H. cbv zeta.
  destruct (Z.leb_spec 1 (0 - (0 - slot) mod 16)); [| reflexivity].
  Z.div_mod_to_equations. lia.
Qed.

Lemma ring_sequence_step n slot :
  0 <= slot < WL_NUM_SLOTS -> slot <> (n + 1) mod WL_NUM_SLOTS ->
  ring_sequence (n + 1) slot = ring_sequence n slot.
Proof.
  unfold ring_sequence, WL_NUM_SLOTS. intros H Hne. cbv zeta.
  replace ((n + 1 - slot) mod 16) with ((n - slot) mod 16 + 1)
    by (Z.div_mod_to_equations; lia).
  replace (n + 1 - ((n - slot) mod 16 + 1)) with (n - (n - slot) mod 16) by lia.
  reflexivity.
Qed.

(** [begin] recovers the position in the ring. *)
Lemma begin_ring e w dataType n :
  (forall slot, 0 <= slot < WL_NUM_SLOTS ->
     readSlotSequence e dataType slot = ring_sequence n slot) ->
  0 <= n <= 65534 ->
  instance_at dataType n (begin e w).
Proof.
  intros Hring Hn. destruct (begin_members e w dataType) as [Hc Hs].
  unfold instance_at. rewrite Hc, Hs. clear Hc Hs. cbv zeta.
  destruct (Z.eq_dec n 0) as [-> | Hn0].
  - rewrite findLatestSlot_no_valid_slot.
    + rewrite Hring, ring_sequence_0 by (unfold WL_NUM_SLOTS; lia).
      split; reflexivity.
    + intros slot Hslot. rewrite Hring by assumption. apply ring_sequence_0. assumption.
  - rewrite (findLatestSlot_ring e dataType n) by (assumption || lia).
    rewrite Hring by (apply Z.mod_pos_bound; reflexivity).
    rewrite ring_sequence_latest by lia.
    split; [reflexivity |]. intros Hlt.
    unfold WL_INVALID_SEQUENCE, u16. split_tests; try lia.
    apply Z.mod_small. lia.
Qed.

(** One write moves the ring from [n] to [n + 1]. *)
Lemma rotate_write_ring dataType n data0 data e w :
  ring_state dataType n data0 e -> instance_at dataType n w ->
  0 <= n < 65534 ->
  Z.of_nat (length data) = dataSize (slotConfig dataType) ->
  ring_state dataType (n + 1) data (fst (rotate_write dataType data (e, w)))
  /\ instance_at dataType (n + 1) (snd (rotate_write dataType data (e, w))).
Proof.
  intros [Hseq _] [Hcur Hnext] Hn Hlen. cbn [rotate_write fst snd].
  rewrite Hcur, Hnext by lia.
  assert (Hslot : (n mod WL_NUM_SLOTS + 1) mod WL_NUM_SLOTS = (n + 1) mod WL_NUM_SLOTS)
    by (unfold WL_NUM_SLOTS; Z.div_mod_to_equations; lia).
  rewrite Hslot.
  assert (Hp : 0 <= (n + 1) mod WL_NUM_SLOTS < WL_NUM_SLOTS)
    by (apply Z.mod_pos_bound; reflexivity).
  assert (Hu : u16 (n + 1) = n + 1) by (unfold u16; apply Z.mod_small; lia).
  split; [split |].
  - intros slot Hs. destruct (Z.eq_dec slot ((n + 1) mod WL_NUM_SLOTS)) as [-> | Hne].
    + rewrite readSlotSequence_writeSlot_same, Hu, ring_sequence_latest by (assumption || lia).
      split_tests; [lia | reflexivity].
    + rewrite readSlotSequence_writeSlot_other by (assumption || right; assumption).
      rewrite ring_sequence_step by assumption. apply Hseq. assumption.
  - intros _. apply readSlot_writeSlot_same; assumption || lia.
  - unfold instance_at. cbn [currentSlot nextSequence]. rewrite !get2_set2_same.
    split; [reflexivity |]. intros Hlt.
    unfold bump_sequence, WL_INVALID_SEQUENCE, u16. cbv zeta.
    rewrite (Z.mod_small (n + 1 + 1)) by lia. split_tests; lia.
Qed.

(** A run of accepted writes to one data type goes round the ring; the bytes
    of the last write are those of the latest slot. *)
Lemma run_writes_ring dataType ops :
  forall n data0 e w,
  ring_state dataType n data0 e -> instance_at dataType n w ->
  0 <= n -> n + Z.of_nat (length ops) <= 65534 ->
  Forall (fun op => write_type op = dataType /\ write_accepted op) ops ->
  ring_state dataType (n + Z.of_nat (length ops))
    (fold_left (fun _ op => write_data op) ops data0) (fst (run_writes ops (e, w)))
  /\ instance_at dataType (n + Z.of_nat (length ops)) (snd (run_writes ops (e, w))).
Proof.
  induction ops as [|op ops IH]; intros n data0 e w Hring Hinst Hn Hlen Hall.
  - cbn. rewrite Z.add_0_r. split; assumption.
  - apply Forall_cons in Hall as [[Htype Hacc] Hall].
    cbn [length] in Hlen.
    unfold run_writes. cbn [fold_left]. rewrite do_write_accepted by assumption.
    rewrite Htype.
    destruct (rotate_write_ring dataType n data0 (write_data op) e w) as [Hr Hi];
      [assumption | assumption | lia | rewrite write_data_length, Htype; reflexivity |].
    destruct (rotate_write dataType (write_data op) (e, w)) as [e1 w1].
    cbn [fst snd] in Hr, Hi.
    specialize (IH (n + 1) (write_data op) e1 w1 Hr Hi ltac:(lia) ltac:(lia) Hall).
    replace (n + Z.of_nat (length (op :: ops))) with (n + 1 + Z.of_nat (length ops))
      by (cbn [length]; lia).
    exact IH.
Qed.

Lemma value_valid_accepted op : value_valid op -> write_accepted op.
Proof. destruct op; cbn; tauto. Qed.

Lemma u32_bytes_roundtrip count :
  0 <= count < 4294967296 -> u32_of_bytes (map u8 (bytes_of_u32 (u32 count))) = count.
Proof.
  intros H. unfold u32_of_bytes, bytes_of_u32. cbn [map nth]. rewrite !u8_u8.
  unfold u32. rewrite (Z.mod_small count) by lia.
  unfold u8. Z.div_mod_to_equations. lia.
Qed.

(** Reading back the latest slot of a ring that has not wrapped. *)
Lemma read_back_ring e op n :
  ring_state (write_type op) n (write_data op) e ->
  1 <= n <= 65534 -> value_valid op ->
  read_back (write_type op) e = write_value op.
Proof.
  intros [Hseq Hdata] Hn Hv. specialize (Hdata ltac:(lia)).
  destruct op as [format | count]; cbn [write_type write_data write_value read_back value_valid] in *.
  - unfold readTimeFormat. cbv zeta.
    rewrite (findLatestSlot_ring _ _ n), Hdata by assumption.
    cbn [map nth]. destruct Hv as [-> | ->]; reflexivity.
  - unfold readPowerCycleCount. cbv zeta.
    rewrite (findLatestSlot_ring _ _ n), Hdata by assumption.
    rewrite u32_bytes_roundtrip by lia.
    destruct (Z.ltb_spec count 4294967040); [reflexivity | lia].
Qed.

(** Recovery on a ring that has not wrapped, from any point of it: the device
    holds the traces of [n] earlier writes, an object calls [begin] and makes
    further writes up to the 0xFFFE-th in all. *)
Lemma recovery_from_ring (dataType : WLDataType) (n : Z) (data0 : list Z) (e0 : EEPROM)
    (ops : list wl_write) (last_op : wl_write) :
  ring_state dataType n data0 e0 -> 0 <= n ->
  Forall (fun op => write_type op = dataType /\ value_valid op) (ops ++ [last_op]) ->
  n + Z.of_nat (length (ops ++ [last_op])) <= 65534 ->
  let e := fst (run_writes (ops ++ [last_op]) (e0, begin e0 EEPROMWearLeveling_new)) in
  let fresh := begin e EEPROMWearLeveling_new in
  get2 (currentSlot fresh) dataType
    = (n + Z.of_nat (length (ops ++ [last_op]))) mod WL_NUM_SLOTS
  /\ read_back dataType e = write_value last_op.
Proof.
  intros Hring0 Hn Hall Hlen e fresh.
  assert (Hinst0 : instance_at dataType n (begin e0 EEPROMWearLeveling_new))
    by (apply begin_ring; [apply Hring0 | lia]).
  destruct (run_writes_ring dataType (ops ++ [last_op]) n data0 e0
              (begin e0 EEPROMWearLeveling_new)) as [Hring _];
    [assumption | assumption | lia | lia | |].
  { eapply Forall_impl; [exact Hall |]. cbn. intros op [? ?].
    split; [assumption | apply value_valid_accepted; assumption]. }
  fold e in Hring. rewrite fold_left_app in Hring. cbn [fold_left] in Hring.
  assert (HK : 1 <= Z.of_nat (length (ops ++ [last_op])))
    by (rewrite length_app; cbn [length]; lia).
  apply Forall_app in Hall as [_ Hlast]. apply Forall_cons in Hlast as [[Htype Hvalid] _].
  split.
  - apply (begin_ring e EEPROMWearLeveling_new dataType); [apply Hring | lia].
  - rewrite <- Htype in *. apply (read_back_ring e last_op _ Hring); [lia | assumption].
Qed.

(** C1 (recovery correctness).  Start from a device on which the data type
    has no valid slot (a new or erased device), let an object call [begin] and
    then make K >= 1 writes to that data type, each value passing the validity
    check of the type and K at most 0xFFFE so that the sequence numbers
    1 .. K never wrap.  Then a fresh object that calls [begin] on the
    resulting device finds the slot of the last write, and the read operation
    of the data type returns the last value written. *)
Theorem recovery_correctness (dataType : WLDataType) (e0 : EEPROM)
    (ops : list wl_write) (last_op : wl_write) :
  no_valid_slot e0 dataType ->
  Forall (fun op => write_type op = dataType /\ value_valid op) (ops ++ [last_op]) ->
  Z.of_nat (length (ops ++ [last_op])) <= 65534 ->
  let e := fst (run_writes (ops ++ [last_op]) (e0, begin e0 EEPROMWearLeveling_new)) in
  let fresh := begin e EEPROMWearLeveling_new in
  get2 (currentSlot fresh) dataType
    = Z.of_nat (length (ops ++ [last_op])) mod WL_NUM_SLOTS
  /\ read_back dataType e = write_value last_op.
Proof.
  intros Hempty Hall Hlen.
  apply (recovery_from_ring dataType 0 [] e0 ops last_op); try assumption; try lia.
  split; [| lia]. intros slot Hs. rewrite ring_sequence_0 by assumption.
  apply Hempty. assumption.
Qed.

Lemma erased_no_valid_slot dataType : no_valid_slot erased dataType.
Proof.
  intros slot Hs. unfold readSlotSequence. rewrite (slot_in_range _ Hs). reflexivity.
Qed.

Lemma recovery_correctness_witness :
  read_back WL_POWER_CYCLE
    (fst (run_writes ([WritePowerCycleCount 41] ++ [WritePowerCycleCount 42])
            (erased, begin erased EEPROMWearLeveling_new))) = 42.
Proof.
  apply (recovery_correctness WL_POWER_CYCLE erased
           [WritePowerCycleCount 41] (WritePowerCycleCount 42)).
  - apply erased_no_valid_slot.
  - repeat constructor; cbn; lia.
  - cbn. lia.
Defined.

(** ** Wraparound *)

(** The scan depends on the device through the sequence numbers only. *)
Lemma findLatestSlot_ext e e' dataType dataType' :
  (forall slot, 0 <= slot < WL_NUM_SLOTS ->
     readSlotSequence e dataType slot = readSlotSequence e' dataType' slot) ->
  findLatestSlot e dataType = findLatestSlot e' dataType'.
Proof.
  intros H. unfold findLatestSlot. f_equal.
  generalize (WL_INVALID_SEQUENCE, 0).
  assert (Hin : forall slot, In slot (upto WL_NUM_SLOTS) ->
            readSlotSequence e dataType slot = readSlotSequence e' dataType' slot)
    by (intros; apply H; apply In_upto; assumption).
  induction (upto WL_NUM_SLOTS) as [|slot l IH]; intros acc; [reflexivity |].
  cbn [fold_left]. rewrite IH by (intros; apply Hin; right; assumption).
  f_equal. unfold scan_step. rewrite Hin by (left; reflexivity). reflexivity.
Qed.

Lemma forallb_upto (f : Z -> bool) n :
  forallb f (upto n) = true -> forall i, 0 <= i < n -> f i = true.
Proof.
  intros H i Hi. rewrite forallb_forall in H. apply H. apply In_upto. assumption.
Qed.

Lemma all_placements_scanned :
  forallb (fun hi => forallb (fun ff => forallb (fun lo =>
     placement_scan WL_TIME_FORMAT hi ff lo && placement_scan WL_POWER_CYCLE hi ff lo)
     (upto WL_NUM_SLOTS)) (upto WL_NUM_SLOTS)) (upto WL_NUM_SLOTS) = true.
Proof. vm_compute. reflexivity. Qed.

Lemma placement_scanned dataType hi ff lo :
  0 <= hi < WL_NUM_SLOTS -> 0 <= ff < WL_NUM_SLOTS -> 0 <= lo < WL_NUM_SLOTS ->
  placement_scan dataType hi ff lo = true.
Proof.
  intros Hhi Hff Hlo.
  pose proof (forallb_upto _ _ all_placements_scanned hi Hhi) as H1.
  pose proof (forallb_upto _ _ H1 ff Hff) as H2.
  pose proof (forallb_upto _ _ H2 lo Hlo) as H3.
  apply andb_prop in H3 as [Ht Hp]. destruct dataType; assumption.
Qed.

(** For every placement of 0xFFFE, 0xFFFF and 0x0001 the scan answers the slot
    of 0x0001 exactly when it lies after the slot of 0xFFFE in scan order;
    when it lies before, the scan answers the slot of 0xFFFE. *)
Lemma findLatestSlot_wraparound_placement dataType hi ff lo :
  0 <= hi < WL_NUM_SLOTS -> 0 <= ff < WL_NUM_SLOTS -> 0 <= lo < WL_NUM_SLOTS ->
  hi <> ff -> hi <> lo -> ff <> lo ->
  readSlotSequence (wraparound_storage dataType hi ff lo) dataType hi = 65534
  /\ EEPROM_get16 (wraparound_storage dataType hi ff lo) (getSlotAddress dataType ff) = 65535
  /\ readSlotSequence (wraparound_storage dataType hi ff lo) dataType ff = WL_INVALID_SEQUENCE
  /\ readSlotSequence (wraparound_storage dataType hi ff lo) dataType lo = 1
  /\ findLatestSlot (wraparound_storage dataType hi ff lo) dataType
     = if hi <? lo then lo else hi.
Proof.
  intros Hhi Hff Hlo N1 N2 N3.
  pose proof (placement_scanned dataType hi ff lo Hhi Hff Hlo) as Hp.
  unfold placement_scan in Hp. cbv zeta in Hp.
  apply Z.eqb_neq in N1, N2, N3. rewrite N1, N2, N3 in Hp.
  rewrite !orb_false_l in Hp.
  apply andb_prop in Hp as [Hp H5]. apply andb_prop in Hp as [Hp H4].
  apply andb_prop in Hp as [Hp H3]. apply andb_prop in Hp as [H1 H2].
  apply Z.eqb_eq in H1, H2, H3, H4, H5.
  split; [exact H2 |]. split; [exact H3 |]. split; [exact H4 |].
  split; [exact H5 | exact H1].
Qed.

(** C2 (wraparound recovery), evaluated where it fails: slot 14 holds 0xFFFE,
    slot 15 holds 0xFFFF and slot 0 holds 0x0001, the slots that three
    writes in a row take across the end of the ring; every other slot is
    empty.  The scan answers slot 14, the slot of 0xFFFE, because slot 0 is
    visited first and 0xFFFE is greater than 0x0001. *)
Theorem wraparound_scan_prefers_old_slot :
  readSlotSequence (wraparound_storage WL_TIME_FORMAT 14 15 0) WL_TIME_FORMAT 14 = 65534
  /\ EEPROM_get16 (wraparound_storage WL_TIME_FORMAT 14 15 0)
       (getSlotAddress WL_TIME_FORMAT 15) = 65535
  /\ readSlotSequence (wraparound_storage WL_TIME_FORMAT 14 15 0) WL_TIME_FORMAT 15
     = WL_INVALID_SEQUENCE
  /\ readSlotSequence (wraparound_storage WL_TIME_FORMAT 14 15 0) WL_TIME_FORMAT 0 = 1
  /\ map (readSlotSequence (wraparound_storage WL_TIME_FORMAT 14 15 0) WL_TIME_FORMAT)
       (upto WL_NUM_SLOTS)
     = [1; 0; 0; 0; 0; 0; 0; 0; 0; 0; 0; 0; 0; 0; 65534; 0]
  /\ findLatestSlot (wraparound_storage WL_TIME_FORMAT 14 15 0) WL_TIME_FORMAT = 14
  /\ get2 (currentSlot (begin (wraparound_storage WL_TIME_FORMAT 14 15 0)
                          EEPROMWearLeveling_new)) WL_TIME_FORMAT = 14.
Proof. vm_compute. tauto. Qed.

(** The same defect without any direct population: an object that has made
    0xFFFE writes of the value 1 on an erased device writes 0 (sequence 1,
    slot 15) and then 1 (sequence 2, slot 0).  The scan takes slot 0 first,
    then prefers the old sequences of slots 1 .. 14 to it, and ends on slot
    15: the read returns 0, the value before the last one written. *)
Lemma read_after_wraparound_is_stale :
  let s := run_writes
             (repeat (WriteTimeFormat 1) (Z.to_nat 65534)
              ++ [WriteTimeFormat 0; WriteTimeFormat 1])
             (erased, begin erased EEPROMWearLeveling_new) in
  map (readSlotSequence (fst s) WL_TIME_FORMAT) (upto WL_NUM_SLOTS)
  = [2; 65521; 65522; 65523; 65524; 65525; 65526; 65527;
     65528; 65529; 65530; 65531; 65532; 65533; 65534; 1]
  /\ get2 (currentSlot (snd s)) WL_TIME_FORMAT = 0
  /\ findLatestSlot (fst s) WL_TIME_FORMAT = 15
  /\ readTimeFormat (fst s) = 0.
Proof. vm_compute. tauto. Qed.

(** ** The range of the sequence numbers *)

Lemma bump_sequence_range s : 1 <= s <= 65534 -> 1 <= bump_sequence s <= 65534.
Proof.
  intros H. unfold bump_sequence, WL_INVALID_SEQUENCE, u16. cbv zeta.
  rewrite (Z.mod_small (s + 1)) by lia. split_tests; lia.
Qed.

(** [begin] yields a sequence number from 1 to 0xFFFF; 0xFFFF is included. *)
Lemma begin_nextSequence_range e w dataType :
  1 <= get2 (nextSequence (begin e w)) dataType <= 65535.
Proof.
  destruct (begin_members e w dataType) as [_ ->]. cbv zeta.
  pose proof (readSlotSequence_nonneg e dataType (findLatestSlot e dataType)).
  unfold WL_INVALID_SEQUENCE, u16 in *. split_tests; try lia.
  rewrite Z.mod_small; lia.
Qed.

(** C3 (range of the stored sequence numbers), evaluated where it fails: a
    device that started erased and has taken 0xFFFE writes of the time format,
    so that slot 14 holds sequence 0xFFFE, the last number the writer assigns
    before it wraps.  A fresh object calls [begin], which sets the next
    sequence number to 0xFFFF; its [writeTimeFormat(0)] stores 0xFFFF in slot
    15, the store reads that slot back as empty, and the value written is
    lost: the read still returns 1. *)
Theorem begin_after_last_sequence_stores_erased_pattern :
  let w := begin worn_device EEPROMWearLeveling_new in
  let s1 := writeTimeFormat 0 (worn_device, w) in
  map (readSlotSequence worn_device WL_TIME_FORMAT) (upto WL_NUM_SLOTS)
  = [65520; 65521; 65522; 65523; 65524; 65525; 65526; 65527;
     65528; 65529; 65530; 65531; 65532; 65533; 65534; 65519]
  /\ readTimeFormat worn_device = 1
  /\ get2 (currentSlot w) WL_TIME_FORMAT = 14
  /\ get2 (nextSequence w) WL_TIME_FORMAT = 65535
  /\ get2 (currentSlot (snd s1)) WL_TIME_FORMAT = 15
  /\ EEPROM_get16 (fst s1) (getSlotAddress WL_TIME_FORMAT 15) = 65535
  /\ readSlotSequence (fst s1) WL_TIME_FORMAT 15 = WL_INVALID_SEQUENCE
  /\ readTimeFormat (fst s1) = 1.
Proof. vm_compute. tauto. Qed.

(** The same for every history and both data types: after 0xFFFE accepted
    writes on a device that started without a valid slot, a fresh object that
    calls [begin] is about to assign 0xFFFF, and its next accepted write
    stores 0xFFFF in the slot after the latest one, which then reads as
    empty. *)
Lemma last_sequence_is_reachable dataType e0 ops op :
  no_valid_slot e0 dataType ->
  Forall (fun op => write_type op = dataType /\ write_accepted op) (op :: ops) ->
  Z.of_nat (length ops) = 65534 ->
  let e := fst (run_writes ops (e0, begin e0 EEPROMWearLeveling_new)) in
  let w := begin e EEPROMWearLeveling_new in
  get2 (nextSequence w) dataType = 65535
  /\ EEPROM_get16 (fst (do_write (e, w) op)) (getSlotAddress dataType 15) = 65535
  /\ readSlotSequence (fst (do_write (e, w) op)) dataType 15 = WL_INVALID_SEQUENCE.
Proof.
  intros Hempty Hall Hlen e w.
  apply Forall_cons in Hall as [[Htype Hacc] Hall].
  assert (Hring0 : ring_state dataType 0 [] e0).
  { split; [| lia]. intros slot Hs. rewrite ring_sequence_0 by assumption.
    apply Hempty. assumption. }
  destruct (run_writes_ring dataType ops 0 [] e0 (begin e0 EEPROMWearLeveling_new))
    as [[Hseq _] _];
    [assumption | apply begin_ring; [apply Hring0 | lia] | lia | lia | assumption |].
  fold e in Hseq. rewrite Hlen, Z.add_0_l in Hseq.
  destruct (begin_members e EEPROMWearLeveling_new dataType) as [Hcur Hnext].
  fold w in Hcur, Hnext. cbv zeta in Hnext.
  rewrite (findLatestSlot_ring e dataType 65534) in Hcur, Hnext by (assumption || lia).
  rewrite Hseq in Hnext by (apply Z.mod_pos_bound; reflexivity).
  rewrite ring_sequence_latest in Hnext by lia.
  change (get2 (nextSequence w) dataType = 65535) in Hnext.
  change (get2 (currentSlot w) dataType = 14) in Hcur.
  split; [exact Hnext |].
  rewrite do_write_accepted, Htype by assumption.
  cbn [rotate_write fst]. rewrite Hcur, Hnext.
  change ((14 + 1) mod WL_NUM_SLOTS) with 15.
  split.
  - apply EEPROM_get16_writeSlot. unfold WL_NUM_SLOTS. lia.
  - rewrite readSlotSequence_writeSlot_same by (unfold WL_NUM_SLOTS; lia). reflexivity.
Qed.

(** ** Rotation of the writes *)

Lemma run_writes_snoc ops op s :
  run_writes (ops ++ [op]) s = do_write (run_writes ops s) op.
Proof. unfold run_writes. rewrite fold_left_app. reflexivity. Qed.

Lemma rotate_write_currentSlot dataType data s :
  get2 (currentSlot (snd (rotate_write dataType data s))) dataType
  = (get2 (currentSlot (snd s)) dataType + 1) mod WL_NUM_SLOTS.
Proof. destruct s as [e w]. cbn. apply get2_set2_same. Qed.

(** The slot after the current one, after a run of accepted writes. *)
Lemma run_writes_next_slot dataType ops :
  forall s,
  Forall (fun op => write_type op = dataType /\ write_accepted op) ops ->
  (get2 (currentSlot (snd (run_writes ops s))) dataType + 1) mod WL_NUM_SLOTS
  = (get2 (currentSlot (snd s)) dataType + Z.of_nat (length ops) + 1) mod WL_NUM_SLOTS.
Proof.
  induction ops as [|op ops IH]; intros s Hall.
  - cbn. rewrite Z.add_0_r. reflexivity.
  - apply Forall_cons in Hall as [[Htype Hacc] Hall].
    unfold run_writes. cbn [fold_left]. fold (run_writes ops (do_write s op)).
    rewrite IH by assumption.
    rewrite do_write_accepted, Htype, rotate_write_currentSlot by assumption.
    cbn [length]. unfold WL_NUM_SLOTS. Z.div_mod_to_equations. lia.
Qed.

Lemma next_slot_differs slot : (slot + 1) mod WL_NUM_SLOTS <> slot.
Proof. unfold WL_NUM_SLOTS. Z.div_mod_to_equations. lia. Qed.

(** ** Rejected input and defaults *)

(** C6 (input validation).  [writeTimeFormat] with a value other than 0 and 1
    returns the device and the object as they were: the current slot, the
    next sequence number and every cell are unchanged, and [readTimeFormat]
    returns what it returned before. *)
Theorem writeTimeFormat_rejected_is_noop (format : Z) (s : EEPROM * EEPROMWearLeveling) :
  format <> 0 -> format <> 1 ->
  writeTimeFormat format s = s
  /\ readTimeFormat (fst (writeTimeFormat format s)) = readTimeFormat (fst s).
Proof.
  intros H0 H1.
  assert (H : writeTimeFormat format s = s).
  { unfold writeTimeFormat. destruct s as [e w].
    rewrite (proj2 (Z.eqb_neq format 0) H0), (proj2 (Z.eqb_neq format 1) H1).
    reflexivity. }
  rewrite H. split; reflexivity.
Qed.

Lemma writeTimeFormat_rejected_is_noop_witness :
  readTimeFormat
    (fst (writeTimeFormat 2 (writeTimeFormat 1 (erased, EEPROMWearLeveling_new))))
  = readTimeFormat (fst (writeTimeFormat 1 (erased, EEPROMWearLeveling_new))).
Proof.
  apply (writeTimeFormat_rejected_is_noop 2
           (writeTimeFormat 1 (erased, EEPROMWearLeveling_new))); lia.
Defined.

Lemma readSlot_cases e dataType slot :
  readSlot e dataType slot = None
  \/ readSlot e dataType slot = Some (slot_payload e dataType slot).
Proof.
  unfold readSlot. destruct (slot >=? WL_NUM_SLOTS); [left; reflexivity |]. cbv zeta.
  destruct (_ =? _); [left | right]; reflexivity.
Qed.

Lemma readSlot_no_valid_slot e dataType :
  no_valid_slot e dataType -> readSlot e dataType (findLatestSlot e dataType) = None.
Proof.
  intros H. rewrite findLatestSlot_no_valid_slot by assumption.
  unfold readSlot. rewrite slot_in_range by (unfold WL_NUM_SLOTS; lia). cbv zeta.
  rewrite H by (unfold WL_NUM_SLOTS; lia). reflexivity.
Qed.

(** C9 (defaults).  When no slot of the data type holds a valid sequence
    number, or when the payload of the latest slot fails the check of the
    type (a time-format byte other than 0 and 1, a power-cycle count of
    0xFFFFFF00 or more), [readTimeFormat] returns 0 and [readPowerCycleCount]
    returns 0.  Both readers are total functions that return a plain value:
    there is no error result. *)
Theorem read_defaults (e : EEPROM) :
  (no_valid_slot e WL_TIME_FORMAT
   \/ (let format := nth 0 (slot_payload e WL_TIME_FORMAT (findLatestSlot e WL_TIME_FORMAT)) 0 in
       format <> 0 /\ format <> 1) ->
   readTimeFormat e = 0)
  /\ (no_valid_slot e WL_POWER_CYCLE
      \/ 4294967040
         <= u32_of_bytes (slot_payload e WL_POWER_CYCLE (findLatestSlot e WL_POWER_CYCLE)) ->
      readPowerCycleCount e = 0).
Proof.
  split.
  - intros [H | [H0 H1]]; unfold readTimeFormat; cbv zeta.
    + rewrite readSlot_no_valid_slot by assumption. reflexivity.
    + destruct (readSlot_cases e WL_TIME_FORMAT (findLatestSlot e WL_TIME_FORMAT)) as [-> | ->];
        [reflexivity |].
      rewrite (proj2 (Z.eqb_neq _ 0) H0), (proj2 (Z.eqb_neq _ 1) H1). reflexivity.
  - intros [H | H]; unfold readPowerCycleCount; cbv zeta.
    + rewrite readSlot_no_valid_slot by assumption. reflexivity.
    + destruct (readSlot_cases e WL_POWER_CYCLE (findLatestSlot e WL_POWER_CYCLE)) as [-> | ->];
        [reflexivity |].
      destruct (Z.ltb_spec
                  (u32_of_bytes (slot_payload e WL_POWER_CYCLE (findLatestSlot e WL_POWER_CYCLE)))
                  4294967040); [lia | reflexivity].
Qed.

Lemma read_defaults_witness : readTimeFormat erased = 0 /\ readPowerCycleCount erased = 0.
Proof.
  split.
  - apply (proj1 (read_defaults erased)). left. apply erased_no_valid_slot.
  - apply (proj2 (read_defaults erased)). left. apply erased_no_valid_slot.
Defined.

(** * Properties of the stability filter *)

Section FilterFacts.
Context {FO : FloatOps}.
Local Open Scope nat_scope.

Lemma getFiltered_eq ch gps st :
  getFiltered ch gps st
  = if (totalReadings st <? GPS_FILTER_MIN_READINGS) || negb (channel_isValid ch gps)
    then raw_value ch gps
    else trimmed_mean (readings ch st) (totalReadings st) (raw_value ch gps).
Proof. destruct ch; reflexivity. Qed.

Lemma update_valid g st :
  gps_valid g = true ->
  update g st
  = {| latReadings := <[currentIndex st := location_lat g]> (latReadings st);
       lonReadings := <[currentIndex st := location_lng g]> (lonReadings st);
       altReadings := <[currentIndex st := altitude_feet g]> (altReadings st);
       currentIndex := (currentIndex st + 1) mod GPS_FILTER_WINDOW_SIZE;
       totalReadings :=
         if totalReadings st <? GPS_FILTER_WINDOW_SIZE
         then totalReadings st + 1 else totalReadings st |}.
Proof.
  unfold gps_valid, update. intros H. apply andb_prop in H as [-> ->]. reflexivity.
Qed.

Lemma update_invalid g st : gps_valid g = false -> update g st = st.
Proof.
  unfold gps_valid, update. intros H.
  destruct (location_isValid g), (altitude_isValid g); try discriminate; reflexivity.
Qed.

Lemma readings_update ch g st :
  gps_valid g = true ->
  readings ch (update g st) = <[currentIndex st := raw_value ch g]> (readings ch st).
Proof. intros H. rewrite update_valid by assumption. destruct ch; reflexivity. Qed.

Lemma totalReadings_update g st :
  totalReadings st <= totalReadings (update g st) <= totalReadings st + 1.
Proof.
  unfold update. destruct (_ || _); [lia |]. cbn [totalReadings].
  destruct (totalReadings st <? GPS_FILTER_WINDOW_SIZE); lia.
Qed.

Lemma new_filter_ok : filter_ok GpsStabilityFilter_new.
Proof. unfold filter_ok, GPS_FILTER_WINDOW_SIZE. cbn. lia. Qed.

Lemma update_ok g st : filter_ok st -> filter_ok (update g st).
Proof.
  unfold filter_ok, update. intros (H1 & H2 & H3 & H4 & H5).
  destruct (_ || _); [tauto |].
  cbn [latReadings lonReadings altReadings currentIndex totalReadings].
  rewrite !length_insert. unfold GPS_FILTER_WINDOW_SIZE in *.
  repeat split; try assumption.
  - apply Nat.mod_upper_bound. discriminate.
  - destruct (Nat.ltb_spec (totalReadings st) 12); lia.
Qed.

Lemma run_updates_snoc gs g st :
  run_updates (gs ++ [g]) st = update g (run_updates gs st).
Proof. unfold run_updates. rewrite fold_left_app. reflexivity. Qed.

Lemma run_updates_ok gs st : filter_ok st -> filter_ok (run_updates gs st).
Proof.
  induction gs as [|g gs IH] using rev_ind; intros H; [assumption |].
  rewrite run_updates_snoc. apply update_ok, IH, H.
Qed.

Lemma totalReadings_run_updates gs st :
  totalReadings (run_updates gs st) <= totalReadings st + length gs.
Proof.
  induction gs as [|g gs IH] using rev_ind; [cbn; lia |].
  rewrite run_updates_snoc, length_app. cbn [length].
  pose proof (totalReadings_update g (run_updates gs st)). lia.
Qed.

(** C8 (cold start).  With fewer than 3 samples collected, the getter of every
    channel returns the raw value that the GPS module reports at the call:
    nothing is sorted, trimmed or averaged.  This is the case after at most
    two calls of [update] on a new filter, whatever the module reported; and
    after one valid [update] the value returned for that reading is the
    sample just stored in the buffer. *)
Theorem cold_start_passthrough :
  (forall ch gps st,
     totalReadings st < GPS_FILTER_MIN_READINGS -> getFiltered ch gps st = raw_value ch gps)
  /\ (forall ch gs gps,
        length gs <= 2 ->
        getFiltered ch gps (run_updates gs GpsStabilityFilter_new) = raw_value ch gps)
  /\ (forall ch g,
        gps_valid g = true ->
        getFiltered ch g (update g GpsStabilityFilter_new) = raw_value ch g
        /\ readings ch (update g GpsStabilityFilter_new) !! 0 = Some (raw_value ch g)).
Proof.
  assert (Hcold : forall ch gps st,
            totalReadings st < GPS_FILTER_MIN_READINGS ->
            getFiltered ch gps st = raw_value ch gps).
  { intros ch gps st H. rewrite getFiltered_eq.
    apply Nat.ltb_lt in H. rewrite H. reflexivity. }
  split; [exact Hcold |]. split.
  - intros ch gs gps Hlen. apply Hcold.
    pose proof (totalReadings_run_updates gs GpsStabilityFilter_new) as H.
    cbn [totalReadings GpsStabilityFilter_new] in H.
    unfold GPS_FILTER_MIN_READINGS. lia.
  - intros ch g Hv. split.
    + apply Hcold. rewrite update_valid by assumption. cbn. unfold GPS_FILTER_MIN_READINGS. lia.
    + rewrite readings_update by assumption. destruct ch; reflexivity.
Qed.

(** C10 (validity gate).  In every state of the filter, also with 3 or more
    samples collected, the getter of a channel returns the raw value of the
    GPS module when the module reports the location (for the altitude
    channel, the altitude) as invalid, whatever the buffers hold.  The
    trimmed mean is computed only with 3 or more samples and a valid
    report at the call. *)
Theorem invalid_gps_passthrough (ch : channel) (gps : TinyGPSPlus) (st : GpsStabilityFilter) :
  (channel_isValid ch gps = false -> getFiltered ch gps st = raw_value ch gps)
  /\ (getFiltered ch gps st = raw_value ch gps
      \/ (channel_isValid ch gps = true
          /\ GPS_FILTER_MIN_READINGS <= totalReadings st
          /\ getFiltered ch gps st
             = trimmed_mean (readings ch st) (totalReadings st) (raw_value ch gps))).
Proof.
  rewrite getFiltered_eq. split.
  - intros ->. rewrite orb_true_r. reflexivity.
  - destruct (Nat.ltb_spec (totalReadings st) GPS_FILTER_MIN_READINGS); [left; reflexivity |].
    destruct (channel_isValid ch gps); [right | left; reflexivity].
    repeat split. assumption.
Qed.

(** ** The ring of samples *)

(** After the valid updates [gs], update number [j] (from 0) of the last 12
    is found at the cursor of the start advanced by [j], modulo 12. *)
Lemma run_updates_positions gs :
  forall st0,
  filter_ok st0 -> Forall (fun g => gps_valid g = true) gs ->
  currentIndex (run_updates gs st0)
    = (currentIndex st0 + length gs) mod GPS_FILTER_WINDOW_SIZE
  /\ totalReadings (run_updates gs st0)
     = Nat.min (totalReadings st0 + length gs) GPS_FILTER_WINDOW_SIZE
  /\ forall ch j,
       j < length gs -> length gs <= j + GPS_FILTER_WINDOW_SIZE ->
       readings ch (run_updates gs st0) !! ((currentIndex st0 + j) mod GPS_FILTER_WINDOW_SIZE)
       = raw_value ch <$> gs !! j.
Proof.
  induction gs as [|g gs IH] using rev_ind; intros st0 Hok Hall.
  - cbn [run_updates fold_left length]. destruct Hok as (_ & _ & _ & Hc & Ht).
    unfold GPS_FILTER_WINDOW_SIZE in *.
    repeat split; [rewrite Nat.add_0_r, Nat.mod_small; lia | lia | intros; lia].
  - apply Forall_app in Hall as [Hall Hg]. apply Forall_cons in Hg as [Hg _].
    destruct (IH st0 Hok Hall) as (Hcur & Htot & Hpos).
    pose proof (run_updates_ok gs st0 Hok) as Hok'.
    rewrite run_updates_snoc, length_app. cbn [length].
    set (st := run_updates gs st0) in *.
    split; [| split].
    + rewrite update_valid by assumption. cbn [currentIndex]. rewrite Hcur.
      unfold GPS_FILTER_WINDOW_SIZE.
      rewrite Nat.Div0.add_mod_idemp_l. f_equal. lia.
    + rewrite update_valid by assumption. cbn [totalReadings]. rewrite Htot.
      unfold GPS_FILTER_WINDOW_SIZE.
      destruct (Nat.ltb_spec (Nat.min (totalReadings st0 + length gs) 12) 12); lia.
    + intros ch j Hj Hwin. rewrite readings_update by assumption.
      assert (Hlen : length (readings ch st) = GPS_FILTER_WINDOW_SIZE)
        by (destruct Hok' as (? & ? & ? & _); destruct ch; assumption).
      destruct (Nat.eq_dec j (length gs)) as [-> | Hne].
      * rewrite (list_lookup_middle gs [] g (length gs)) by reflexivity.
        rewrite Hcur. apply list_lookup_insert_eq.
        rewrite Hlen. apply Nat.mod_upper_bound. discriminate.
      * rewrite lookup_app_l by lia.
        rewrite list_lookup_insert_ne; [apply Hpos; lia |].
        rewrite Hcur. unfold GPS_FILTER_WINDOW_SIZE in *.
        intros Heq.
        assert (Hd : (currentIndex st0 + length gs) mod 12
                     = ((currentIndex st0 + j) mod 12 + (length gs - j)) mod 12).
        { rewrite Nat.Div0.add_mod_idemp_l. f_equal. lia. }
        rewrite Hd in Heq.
        pose proof (Nat.mod_upper_bound (currentIndex st0 + j) 12 ltac:(discriminate)) as Hb.
        set (p := (currentIndex st0 + j) mod 12) in *.
        destruct (Nat.lt_ge_cases (p + (length gs - j)) 12) as [Hlt | Hge].
        -- rewrite Nat.mod_small in Heq by assumption. lia.
        -- replace (p + (length gs - j)) with (p + (length gs - j) - 12 + 1 * 12) in Heq by lia.
           rewrite Nat.Div0.mod_add, Nat.mod_small in Heq by lia. lia.
Qed.

(** C7 (ring overwrite).  A valid [update] stores one sample per channel at
    the cursor, advances the cursor modulo 12 and increments the counter up to
    12.  After 12 or more valid updates the counter is 12 and, for every
    channel, the buffer read from the cursor round holds the samples of the
    last 12 updates, oldest first: every older sample is overwritten. *)
Theorem ring_overwrite :
  (forall g st,
     gps_valid g = true -> filter_ok st ->
     (forall ch, readings ch (update g st)
                 = <[currentIndex st := raw_value ch g]> (readings ch st))
     /\ currentIndex (update g st) = (currentIndex st + 1) mod GPS_FILTER_WINDOW_SIZE
     /\ getTotalReadings (update g st)
        = Nat.min (totalReadings st + 1) GPS_FILTER_WINDOW_SIZE)
  /\ (forall gs st0,
        filter_ok st0 -> Forall (fun g => gps_valid g = true) gs ->
        GPS_FILTER_WINDOW_SIZE <= length gs ->
        let st := run_updates gs st0 in
        getTotalReadings st = GPS_FILTER_WINDOW_SIZE
        /\ forall ch,
             drop (currentIndex st) (readings ch st) ++ take (currentIndex st) (readings ch st)
             = map (raw_value ch) (drop (length gs - GPS_FILTER_WINDOW_SIZE) gs)).
Proof.
  split.
  - intros g st Hv Hok. split; [intros ch; apply readings_update; assumption |].
    rewrite update_valid by assumption. cbn [currentIndex getTotalReadings totalReadings].
    split; [reflexivity |]. destruct Hok as (_ & _ & _ & _ & Ht).
    unfold GPS_FILTER_WINDOW_SIZE in *.
    destruct (Nat.ltb_spec (totalReadings st) 12); lia.
  - intros gs st0 Hok Hall Hlen st.
    destruct (run_updates_positions gs st0 Hok Hall) as (Hcur & Htot & Hpos).
    pose proof (run_updates_ok gs st0 Hok) as Hok'. fold st in Hcur, Htot, Hpos, Hok'.
    split; [unfold getTotalReadings; rewrite Htot; lia |].
    intros ch.
    assert (Hl : length (readings ch st) = GPS_FILTER_WINDOW_SIZE)
      by (destruct Hok' as (? & ? & ? & _); destruct ch; assumption).
    assert (Hc : currentIndex st < GPS_FILTER_WINDOW_SIZE) by apply Hok'.
    unfold GPS_FILTER_WINDOW_SIZE in *.
    apply list_eq. intros i.
    rewrite list_lookup_fmap, lookup_drop.
    destruct (Nat.lt_ge_cases i 12) as [Hi | Hi].
    + rewrite <- (Hpos ch (length gs - 12 + i)) by lia.
      assert (Hm : (currentIndex st0 + (length gs - 12 + i)) mod 12
                   = (currentIndex st + i) mod 12).
      { rewrite Hcur, Nat.Div0.add_mod_idemp_l.
        replace (currentIndex st0 + length gs + i)
          with (currentIndex st0 + (length gs - 12 + i) + 1 * 12) by lia.
        symmetry. apply Nat.Div0.mod_add. }
      rewrite Hm.
      destruct (Nat.lt_ge_cases (currentIndex st + i) 12) as [Hlt | Hge].
      * rewrite lookup_app_l by (rewrite length_drop; lia).
        rewrite lookup_drop, Nat.mod_small by assumption. reflexivity.
      * rewrite lookup_app_r by (rewrite length_drop; lia).
        rewrite length_drop, Hl.
        rewrite lookup_take_lt by lia.
        replace (currentIndex st + i) with (i - (12 - currentIndex st) + 1 * 12) by lia.
        rewrite Nat.Div0.mod_add, Nat.mod_small by lia. reflexivity.
    + rewrite (lookup_ge_None_2 gs) by lia.
      apply lookup_ge_None_2. rewrite length_app, length_drop, length_take. lia.
Qed.

End FilterFacts.

(** ** The bubble sort *)

Section SortFacts.
Context {FO : FloatOps} {FL : FloatOrder FO}.
Local Open Scope nat_scope.

Lemma f_le_refl a : f_le a a.
Proof.
  unfold f_le. destruct (f_gt a a) eqn:H; [| reflexivity].
  rewrite (f_gt_asym a a H) in H. discriminate.
Qed.

Lemma f_le_trans a b c : f_le a b -> f_le b c -> f_le a c.
Proof. unfold f_le. apply f_gt_negtrans. Qed.

Lemma f_gt_le a b : f_gt a b = true -> f_le b a.
Proof. unfold f_le. apply f_gt_asym. Qed.

Lemma swap_if_gt_head x y l :
  swap_if_gt (x :: y :: l) 0 = if f_gt x y then y :: x :: l else x :: y :: l.
Proof. unfold swap_if_gt. cbn. destruct (f_gt x y); reflexivity. Qed.

Lemma swap_if_gt_cons a l j : swap_if_gt (a :: l) (S j) = a :: swap_if_gt l j.
Proof.
  unfold swap_if_gt. cbn [lookup list_lookup Nat.add].
  destruct (l !! j) as [x|]; [| reflexivity].
  destruct (l !! (j + 1)) as [y|]; [| reflexivity].
  destruct (f_gt x y); reflexivity.
Qed.

Lemma swap_if_gt_app pre l : swap_if_gt (pre ++ l) (length pre) = pre ++ swap_if_gt l 0.
Proof.
  induction pre as [|a pre IH]; [reflexivity |].
  cbn [app length]. rewrite swap_if_gt_cons, IH. reflexivity.
Qed.

(** The inner loop, run on the part of the array from index [j] on, is one
    pass of [bubble]. *)
Lemma inner_loop_bubble k :
  forall pre l,
  k < length l ->
  fold_left swap_if_gt (seq (length pre) k) (pre ++ l) = pre ++ bubble l k.
Proof.
  induction k as [|k IH]; intros pre l Hk; [reflexivity |].
  destruct l as [|x [|y l]]; cbn [length] in Hk; try lia.
  cbn [seq fold_left bubble]. rewrite swap_if_gt_app, swap_if_gt_head.
  destruct (f_gt x y).
  - specialize (IH (pre ++ [y]) (x :: l)).
    rewrite length_app, Nat.add_1_r, <- !app_assoc in IH. cbn [app] in IH.
    apply IH. cbn [length]. lia.
  - specialize (IH (pre ++ [x]) (y :: l)).
    rewrite length_app, Nat.add_1_r, <- !app_assoc in IH. cbn [app] in IH.
    apply IH. cbn [length]. lia.
Qed.

Lemma bubble_perm k : forall l, bubble l k ≡ₚ l.
Proof.
  induction k as [|k IH]; intros l; [destruct l; reflexivity |].
  destruct l as [|x [|y l]]; try reflexivity. cbn [bubble].
  destruct (f_gt x y).
  - rewrite IH. apply perm_swap.
  - rewrite IH. reflexivity.
Qed.

Lemma bubble_app k : forall front back,
  k < length front -> bubble (front ++ back) k = bubble front k ++ back.
Proof.
  induction k as [|k IH]; intros front back Hk.
  - destruct front; cbn; [cbn in Hk; lia | reflexivity].
  - destruct front as [|x [|y front]]; cbn [length] in Hk; try lia.
    cbn [app bubble]. destruct (f_gt x y).
    + cbn [app]. f_equal. apply (IH (x :: front) back). cbn [length]. lia.
    + cbn [app]. f_equal. apply (IH (y :: front) back). cbn [length]. lia.
Qed.

(** A pass over a whole list brings a greatest element to its end. *)
Lemma bubble_last k : forall l,
  length l = S k ->
  exists front m, bubble l k = front ++ [m] /\ Forall (fun x => f_le x m) l.
Proof.
  induction k as [|k IH]; intros l Hl.
  - destruct l as [|x [|? ?]]; try discriminate.
    exists [], x. split; [reflexivity |]. constructor; [apply f_le_refl | constructor].
  - destruct l as [|x [|y l]]; try discriminate. cbn [bubble].
    destruct (f_gt x y) eqn:Hxy.
    + destruct (IH (x :: l)) as (front & m & Hb & Hm); [cbn [length] in *; lia |].
      exists (y :: front), m. rewrite Hb. split; [reflexivity |].
      apply Forall_cons in Hm as [Hx Hm].
      repeat constructor; try assumption.
      apply f_le_trans with x; [apply f_gt_le; assumption | assumption].
    + destruct (IH (y :: l)) as (front & m & Hb & Hm); [cbn [length] in *; lia |].
      exists (x :: front), m. rewrite Hb. split; [reflexivity |].
      pose proof Hm as Hm'. apply Forall_cons in Hm' as [Hy _].
      constructor; [| assumption].
      apply f_le_trans with y; assumption.
Qed.

(** After [m] passes the last [m] elements are in place: they are sorted and
    none of the elements before them is greater than any of them. *)
Lemma outer_loop_invariant n arr :
  length arr = n ->
  forall m, m <= n - 1 ->
  exists front back,
    fold_left (fun arr i => fold_left swap_if_gt (seq 0 (n - i - 1)) arr) (seq 0 m) arr
    = front ++ back
    /\ length back = m
    /\ StronglySorted f_le back
    /\ Forall (fun x => Forall (f_le x) back) front
    /\ front ++ back ≡ₚ arr.
Proof.
  intros Hn. induction m as [|m IH]; intros Hm.
  - exists arr, []. rewrite app_nil_r. cbn.
    repeat split; try reflexivity; [constructor |].
    apply Forall_forall. intros; constructor.
  - destruct (IH ltac:(lia)) as (front & back & Hrun & Hlen & Hsorted & Hle & Hperm).
    rewrite seq_S, fold_left_app, Hrun. cbn [fold_left Nat.add].
    assert (Hfb : length front + length back = n)
      by (rewrite <- Hn, <- Hperm, length_app; reflexivity).
    pose proof (inner_loop_bubble (n - m - 1) [] (front ++ back)) as Hinner.
    cbn [length app] in Hinner. rewrite Hinner by (rewrite length_app; lia).
    rewrite bubble_app by lia.
    destruct (bubble_last (n - m - 1) front ltac:(lia)) as (front' & x & Hb & Hmax).
    pose proof (bubble_perm (n - m - 1) front) as Hp. rewrite Hb in Hp.
    exists front', (x :: back). rewrite Hb, <- app_assoc. cbn [app].
    split; [reflexivity |]. split; [cbn [length]; lia |].
    assert (Hx : Forall (f_le x) back).
    { rewrite Forall_forall in Hle. apply Hle. rewrite <- Hp.
      apply elem_of_app. right. apply list_elem_of_singleton. reflexivity. }
    split; [constructor; assumption |]. split.
    + apply Forall_forall. intros y Hy.
      assert (Hyf : y ∈ front) by (rewrite <- Hp; apply elem_of_app; left; assumption).
      constructor.
      * rewrite Forall_forall in Hmax. apply Hmax. assumption.
      * rewrite Forall_forall in Hle. apply Hle. assumption.
    + rewrite <- Hperm, <- Hp, <- app_assoc. reflexivity.
Qed.

(** [sortFloatArray] sorts: its result is ascending and holds the same values. *)
Lemma sortFloatArray_sorted arr n :
  length arr = n ->
  StronglySorted f_le (sortFloatArray arr n) /\ sortFloatArray arr n ≡ₚ arr.
Proof.
  intros Hn. unfold sortFloatArray.
  destruct (outer_loop_invariant n arr Hn (n - 1) ltac:(lia))
    as (front & back & -> & Hlen & Hsorted & Hle & Hperm).
  split; [| assumption].
  assert (Hfb : length front + length back = n)
    by (rewrite <- Hn, <- Hperm, length_app; reflexivity).
  destruct front as [|x [|? ?]]; cbn [length] in Hfb.
  - assumption.
  - cbn [app]. constructor; [assumption |].
    apply Forall_cons in Hle as [Hx _]. assumption.
  - lia.
Qed.

(** The summation loop adds the cells [startIndex .. endIndex - 1] and counts them. *)
Lemma sum_loop (workingBuffer : list float) len :
  forall startIndex sum count,
  startIndex + len <= length workingBuffer ->
  fold_left
    (fun '(sum, count) i => (f_add sum (default f_zero (workingBuffer !! i)), S count))
    (seq startIndex len) (sum, count)
  = (fold_left f_add (take len (drop startIndex workingBuffer)) sum, count + len).
Proof.
  induction len as [|len IH]; intros startIndex sum count Hlen.
  - cbn. rewrite Nat.add_0_r. reflexivity.
  - destruct (lookup_lt_is_Some_2 workingBuffer startIndex ltac:(lia)) as [x Hx].
    cbn [seq fold_left]. rewrite Hx. cbn [default].
    rewrite IH by lia. rewrite (drop_S _ _ _ Hx). cbn [take fold_left].
    f_equal. lia.
Qed.

(** The shared part of the getters computes the mean of the trimmed, sorted
    samples. *)
Lemma trimmed_mean_eq readings n raw :
  1 <= n <= length readings ->
  trimmed_mean readings n raw = mean (trim n (sortFloatArray (take n readings) n)).
Proof.
  intros Hn. unfold trimmed_mean, mean, trim. cbv zeta.
  set (wb := sortFloatArray (take n readings) n).
  assert (Hwb : length wb = n).
  { unfold wb. destruct (sortFloatArray_sorted (take n readings) n) as [_ Hp].
    - rewrite length_take. lia.
    - rewrite Hp, length_take. lia. }
  destruct (Nat.ltb_spec 5 n) as [H5 | H5].
  - pose proof (Nat.div_mod n 5 ltac:(discriminate)) as Hq.
    pose proof (Nat.mod_upper_bound n 5 ltac:(discriminate)) as Hr.
    rewrite sum_loop by lia.
    rewrite take_drop_commute.
    replace (n / 5 + (n - n / 5 - n / 5)) with (n - n / 5) by lia.
    rewrite length_drop, length_take, Hwb.
    replace (0 + (n - n / 5 - n / 5)) with ((n - n / 5) `min` n - n / 5) by lia.
    destruct (Nat.ltb_spec 0 ((n - n / 5) `min` n - n / 5)); [reflexivity | lia].
  - rewrite sum_loop by lia. rewrite drop_0, Nat.sub_0_r, take_ge by lia.
    rewrite Hwb. cbn [Nat.add].
    destruct (Nat.ltb_spec 0 n); [reflexivity | lia].
Qed.

End SortFacts.

(** ** Instances and the filtered value *)

Lemma Q_order : FloatOrder Q_ops.
Proof.
  split; cbn; intros a b.
  - intros H. apply negb_true_iff in H. apply negb_false_iff.
    apply QArith_base.Qle_bool_iff.
    destruct (QArith_base.Qlt_le_dec b a) as [Hlt | Hle].
    + apply QArith_base.Qlt_le_weak. assumption.
    + apply QArith_base.Qle_bool_iff in Hle. congruence.
  - intros c H1 H2. apply negb_false_iff in H1, H2. apply negb_false_iff.
    apply QArith_base.Qle_bool_iff in H1, H2. apply QArith_base.Qle_bool_iff.
    eapply QArith_base.Qle_trans; eassumption.
Qed.

(** The examples below run in exact arithmetic unless they say otherwise. *)
#[local] Existing Instance Q_ops.

Lemma fed_ok {FO : FloatOps} ks : filter_ok (fed ks).
Proof. apply run_updates_ok, new_filter_ok. Qed.

(** C4 as stated fails where the validity gate closes: with the samples
    1, 2, 3 collected and a module that reports its location invalid and the
    latitude 9, the getter returns 9, not the mean 2 of the samples. *)
Lemma getFiltered_not_mean_when_invalid :
  totalReadings (@fed Q_ops [1; 2; 3]%nat) = 3%nat
  /\ QArith_base.Qeq
       (@getFilteredLatitude Q_ops (gps_reading false (f_of_u8 9%nat)) (fed [1; 2; 3]%nat))
       (QArith_base.inject_Z 9)
  /\ QArith_base.Qeq
       (@mean Q_ops
          (trim 3%nat (sortFloatArray (take 3%nat (latReadings (fed [1; 2; 3]%nat))) 3%nat)))
       (QArith_base.inject_Z 2)
  /\ ~ QArith_base.Qeq
       (@getFilteredLatitude Q_ops (gps_reading false (f_of_u8 9%nat)) (fed [1; 2; 3]%nat))
       (@mean Q_ops
          (trim 3%nat (sortFloatArray (take 3%nat (latReadings (fed [1; 2; 3]%nat))) 3%nat))).
Proof.
  split; [reflexivity |]. split; [vm_compute; reflexivity |].
  split; [vm_compute; reflexivity |].
  vm_compute. discriminate.
Qed.

Lemma ring_overwrite_witness :
  getTotalReadings (@fed Q_ops (seq 1%nat 17%nat)) = GPS_FILTER_WINDOW_SIZE
  /\ drop (currentIndex (@fed Q_ops (seq 1%nat 17%nat))) (latReadings (fed (seq 1%nat 17%nat)))
       ++ take (currentIndex (@fed Q_ops (seq 1%nat 17%nat))) (latReadings (fed (seq 1%nat 17%nat)))
     = map f_of_u8 (seq 6%nat 12%nat).
Proof.
  destruct (proj2 (@ring_overwrite Q_ops)
              (map (fun k => gps_reading true (f_of_u8 k)) (seq 1%nat 17%nat))
              GpsStabilityFilter_new) as [Htot Hring].
  - apply new_filter_ok.
  - apply Forall_forall. intros g Hg. apply list_elem_of_fmap in Hg as (k & -> & _).
    reflexivity.
  - vm_compute. lia.
  - split; [exact Htot |]. exact (Hring Latitude).
Defined.

Lemma cold_start_passthrough_witness :
  @getFiltered Q_ops Altitude (gps_reading true (f_of_u8 5%nat)) (fed [4%nat]) = f_of_u8 5%nat.
Proof.
  apply (proj1 (proj2 (@cold_start_passthrough Q_ops)) Altitude
           [gps_reading true (f_of_u8 4%nat)] (gps_reading true (f_of_u8 5%nat))).
  cbn. lia.
Defined.

Lemma invalid_gps_passthrough_witness :
  @getFiltered Q_ops Latitude (gps_reading false (f_of_u8 9%nat)) (fed (seq 1%nat 12%nat)) = f_of_u8 9%nat.
Proof.
  apply (proj1 (@invalid_gps_passthrough Q_ops Latitude
                  (gps_reading false (f_of_u8 9%nat)) (fed (seq 1%nat 12%nat)))).
  reflexivity.
Defined.

(** * Further properties of the wear-levelling store *)

Local Open Scope Z_scope.

(** ** Slots *)

Lemma slot_payload_writeSlot e dataType slot sequence data :
  0 <= slot < WL_NUM_SLOTS ->
  Z.of_nat (length data) = dataSize (slotConfig dataType) ->
  slot_payload (writeSlot e dataType slot sequence data) dataType slot = map u8 data.
Proof.
  intros Hs Hlen. unfold slot_payload.
  destruct dataType; config; rewrite ?upto_1, ?upto_4; cbn [map];
    rewrite !EEPROM_read_writeSlot by assumption; cbv zeta; config.
  - destruct data as [|b0 [|? ?]]; cbn [length] in Hlen; try lia.
    split_tests; try lia.
    replace (getSlotAddress WL_TIME_FORMAT slot + 2 + 0
             - getSlotAddress WL_TIME_FORMAT slot - 2) with 0 by lia.
    reflexivity.
  - destruct data as [|b0 [|b1 [|b2 [|b3 [|? ?]]]]]; cbn [length] in Hlen; try lia.
    split_tests; try lia.
    set (a := getSlotAddress WL_POWER_CYCLE slot).
    replace (a + 2 + 0 - a - 2) with 0 by lia.
    replace (a + 2 + 1 - a - 2) with 1 by lia.
    replace (a + 2 + 2 - a - 2) with 2 by lia.
    replace (a + 2 + 3 - a - 2) with 3 by lia.
    reflexivity.
Qed.

Lemma slot_payload_writeSlot_other e dataType slot sequence data dataType' slot' :
  0 <= slot < WL_NUM_SLOTS -> 0 <= slot' < WL_NUM_SLOTS ->
  dataType' <> dataType \/ slot' <> slot ->
  slot_payload (writeSlot e dataType slot sequence data) dataType' slot'
  = slot_payload e dataType' slot'.
Proof.
  intros Hs Hs' Hne. unfold slot_payload. apply map_ext_in. intros i Hi.
  pose proof (slots_disjoint _ _ _ _ Hs Hs' Hne) as Hd.
  pose proof (slotSize_eq dataType'). pose proof (slotSize_eq dataType).
  apply EEPROM_read_writeSlot_outside; [assumption |].
  apply In_upto in Hi. unfold WL_SEQUENCE_SIZE. lia.
Qed.

Lemma readSlot_eq e dataType slot :
  0 <= slot < WL_NUM_SLOTS ->
  readSlot e dataType slot
  = if readSlotSequence e dataType slot =? WL_INVALID_SEQUENCE then None
    else Some (slot_payload e dataType slot).
Proof. intros Hs. unfold readSlot. rewrite (slot_in_range _ Hs). reflexivity. Qed.

(** Slot round trip ([writeSlot], [readSlotSequence], [readSlot]).  A slot
    written with a sequence number from 1 to 0xFFFE reads back with that
    number and with the bytes written; written with 0 or 0xFFFF it reads back
    as empty, whatever the bytes; and an index of 16 or more is refused by
    all three functions. *)
Theorem slot_round_trip (e : EEPROM) (dataType : WLDataType) (slot sequence : Z)
    (data : list Z) :
  Z.of_nat (length data) = dataSize (slotConfig dataType) ->
  (0 <= slot < WL_NUM_SLOTS -> 1 <= sequence <= 65534 ->
     readSlotSequence (writeSlot e dataType slot sequence data) dataType slot = sequence
     /\ readSlot (writeSlot e dataType slot sequence data) dataType slot = Some (map u8 data))
  /\ (0 <= slot < WL_NUM_SLOTS -> sequence = 0 \/ sequence = 65535 ->
        readSlotSequence (writeSlot e dataType slot sequence data) dataType slot
        = WL_INVALID_SEQUENCE
        /\ readSlot (writeSlot e dataType slot sequence data) dataType slot = None)
  /\ (WL_NUM_SLOTS <= slot ->
        writeSlot e dataType slot sequence data = e
        /\ readSlotSequence e dataType slot = WL_INVALID_SEQUENCE
        /\ readSlot e dataType slot = None).
Proof.
  intros Hlen. split; [| split].
  - intros Hs Hq. split.
    + rewrite readSlotSequence_writeSlot_same by assumption.
      unfold u16. rewrite Z.mod_small by lia. split_tests; [lia | reflexivity].
    + apply readSlot_writeSlot_same; assumption.
  - intros Hs Hq.
    assert (Hseq : readSlotSequence (writeSlot e dataType slot sequence data) dataType slot
                   = WL_INVALID_SEQUENCE).
    { rewrite readSlotSequence_writeSlot_same by assumption.
      destruct Hq as [-> | ->]; reflexivity. }
    split; [assumption |]. rewrite readSlot_eq, Hseq by assumption. reflexivity.
  - intros Hs.
    assert (Hge : (slot >=? WL_NUM_SLOTS) = true)
      by (rewrite Z.geb_leb; apply Z.leb_le; assumption).
    unfold writeSlot, readSlotSequence, readSlot. rewrite Hge. repeat split.
Qed.

Lemma slot_round_trip_witness :
  readSlot (writeSlot erased WL_POWER_CYCLE 3 7 [1; 2; 3; 4]) WL_POWER_CYCLE 3
  = Some (map u8 [1; 2; 3; 4]).
Proof.
  apply (proj1 (slot_round_trip erased WL_POWER_CYCLE 3 7 [1; 2; 3; 4] eq_refl));
    unfold WL_NUM_SLOTS; lia.
Defined.

(** Frame of [writeSlot].  Writing a slot leaves every cell outside the bytes
    of that slot as it was, hence also the sequence number and the payload
    of every other slot of either data type. *)
Theorem writeSlot_frame (e : EEPROM) (dataType : WLDataType) (slot sequence : Z)
    (data : list Z) :
  0 <= slot < WL_NUM_SLOTS ->
  (forall addr,
     addr < getSlotAddress dataType slot
     \/ getSlotAddress dataType slot + slotSize (slotConfig dataType) <= addr ->
     EEPROM_read (writeSlot e dataType slot sequence data) addr = EEPROM_read e addr)
  /\ (forall dataType' slot',
        0 <= slot' < WL_NUM_SLOTS -> dataType' <> dataType \/ slot' <> slot ->
        readSlotSequence (writeSlot e dataType slot sequence data) dataType' slot'
        = readSlotSequence e dataType' slot'
        /\ readSlot (writeSlot e dataType slot sequence data) dataType' slot'
           = readSlot e dataType' slot').
Proof.
  intros Hs. split.
  - intros addr Ha. apply EEPROM_read_writeSlot_outside; assumption.
  - intros dataType' slot' Hs' Hne. split.
    + apply readSlotSequence_writeSlot_other; assumption.
    + apply readSlot_writeSlot_other; assumption.
Qed.

Lemma writeSlot_frame_witness :
  readSlot (writeSlot erased WL_TIME_FORMAT 2 9 [1]) WL_POWER_CYCLE 2
  = readSlot erased WL_POWER_CYCLE 2.
Proof.
  apply (proj2 (writeSlot_frame erased WL_TIME_FORMAT 2 9 [1] ltac:(unfold WL_NUM_SLOTS; lia))
           WL_POWER_CYCLE 2).
  - unfold WL_NUM_SLOTS. lia.
  - left. discriminate.
Defined.

(** Memory layout ([getSlotAddress], [slotConfig]).  Every slot lies inside
    the region of its data type, addresses 10 .. 57 for the time format and
    60 .. 155 for the power-cycle count, and two different slots share no
    cell. *)
Theorem slot_layout (dataType : WLDataType) (slot : Z) :
  0 <= slot < WL_NUM_SLOTS ->
  (in_region dataType (getSlotAddress dataType slot)
   /\ in_region dataType
        (getSlotAddress dataType slot + slotSize (slotConfig dataType) - 1))
  /\ (forall addr, in_region WL_TIME_FORMAT addr <-> 10 <= addr <= 57)
  /\ (forall addr, in_region WL_POWER_CYCLE addr <-> 60 <= addr <= 155)
  /\ (forall dataType' slot',
        0 <= slot' < WL_NUM_SLOTS -> dataType' <> dataType \/ slot' <> slot ->
        getSlotAddress dataType' slot' + slotSize (slotConfig dataType')
          <= getSlotAddress dataType slot
        \/ getSlotAddress dataType slot + slotSize (slotConfig dataType)
          <= getSlotAddress dataType' slot').
Proof.
  intros Hs. split; [| split; [| split]].
  - rewrite getSlotAddress_eq by assumption. unfold in_region.
    destruct dataType; config; lia.
  - intros addr. unfold in_region. config. lia.
  - intros addr. unfold in_region. config. lia.
  - intros dataType' slot' Hs' Hne. apply slots_disjoint; assumption.
Qed.

Lemma slot_layout_witness :
  in_region WL_POWER_CYCLE (getSlotAddress WL_POWER_CYCLE 15).
Proof.
  apply (proj1 (proj1 (slot_layout WL_POWER_CYCLE 15 ltac:(unfold WL_NUM_SLOTS; lia)))).
Defined.

(** ** What [begin] leaves behind *)

Lemma scan_result e dataType l :
  forall acc,
  (fst acc = WL_INVALID_SEQUENCE \/ readSlotSequence e dataType (snd acc) = fst acc) ->
  0 <= snd acc < WL_NUM_SLOTS ->
  (forall slot, In slot l -> 0 <= slot < WL_NUM_SLOTS) ->
  let r := fold_left (scan_step e dataType) l acc in
  0 <= snd r < WL_NUM_SLOTS
  /\ (fst r = WL_INVALID_SEQUENCE \/ readSlotSequence e dataType (snd r) = fst r)
  /\ (fst r = WL_INVALID_SEQUENCE ->
      r = acc /\ forall slot, In slot l -> readSlotSequence e dataType slot = WL_INVALID_SEQUENCE).
Proof.
  induction l as [|slot l IH]; intros acc Hacc Hrange Hl.
  - cbn. repeat split; try tauto; lia.
  - cbn [fold_left].
    assert (Hstep : scan_step e dataType acc slot = acc
                    /\ (fst acc = WL_INVALID_SEQUENCE ->
                        readSlotSequence e dataType slot = WL_INVALID_SEQUENCE)
                    \/ scan_step e dataType acc slot = (readSlotSequence e dataType slot, slot)
                       /\ readSlotSequence e dataType slot <> WL_INVALID_SEQUENCE).
    { unfold scan_step. destruct acc as [h p]. cbn [fst].
      unfold WL_INVALID_SEQUENCE.
      destruct (Z.eqb_spec (readSlotSequence e dataType slot) 0) as [E | E].
      - left. cbn [negb andb]. split; [reflexivity | intros; assumption].
      - cbn [negb andb]. destruct (Z.eqb_spec h 0) as [-> | Hh].
        + right. cbn [orb]. split; [reflexivity | assumption].
        + match goal with |- context [if ?c then _ else _] => destruct c end.
          * right. split; [reflexivity | assumption].
          * left. split; [reflexivity | intros; contradiction]. }
    destruct Hstep as [[Hs Hinv] | [Hs Hval]]; rewrite Hs.
    + destruct (IH acc Hacc Hrange (fun x Hx => Hl x (or_intror Hx))) as (H1 & H2 & H3).
      split; [assumption |]. split; [assumption |].
      intros H0. destruct (H3 H0) as [Hr Hall]. split; [assumption |].
      intros x [<- | Hx]; [| apply Hall; assumption].
      apply Hinv. rewrite <- H0, Hr. reflexivity.
    + destruct (IH (readSlotSequence e dataType slot, slot)) as (H1 & H2 & H3).
      * right. reflexivity.
      * cbn [snd]. apply Hl. left. reflexivity.
      * intros x Hx. apply Hl. right. assumption.
      * split; [assumption |]. split; [assumption |].
        intros H0. destruct (H3 H0) as [Hr _]. rewrite Hr in H0. cbn [fst] in H0.
        contradiction.
Qed.

Lemma findLatestSlot_result e dataType :
  0 <= findLatestSlot e dataType < WL_NUM_SLOTS
  /\ (readSlotSequence e dataType (findLatestSlot e dataType) = WL_INVALID_SEQUENCE ->
      no_valid_slot e dataType).
Proof.
  unfold findLatestSlot.
  destruct (scan_result e dataType (upto WL_NUM_SLOTS) (WL_INVALID_SEQUENCE, 0))
    as (H1 & H2 & H3).
  - left. reflexivity.
  - cbn. unfold WL_NUM_SLOTS. lia.
  - intros slot Hin. apply In_upto. assumption.
  - split; [assumption |]. intros H0.
    destruct H2 as [H2 | H2].
    + intros slot Hs. apply (proj2 (H3 H2)). apply In_upto. assumption.
    + rewrite H0 in H2. intros slot Hs. apply (proj2 (H3 (eq_sym H2))).
      apply In_upto. assumption.
Qed.

Lemma begin_members_range e w dataType :
  0 <= get2 (currentSlot (begin e w)) dataType < WL_NUM_SLOTS
  /\ 1 <= get2 (nextSequence (begin e w)) dataType <= 65535.
Proof.
  split; [| apply begin_nextSequence_range].
  destruct (begin_members e w dataType) as [-> _]. apply findLatestSlot_result.
Qed.

Lemma begin_forgets e w w' : begin e w = begin e w'.
Proof.
  unfold begin. cbn [fold_left]. unfold begin_step.
  cbn [currentSlot nextSequence set2 fst snd]. reflexivity.
Qed.

(** [begin].  The members it sets depend on the device alone, so a second
    call changes nothing; the current slot is an index into the ring and the
    next sequence number lies in 1 .. 0xFFFF.  On a device without a valid
    slot it answers slot 0 and sequence 1; otherwise the slot it selects holds
    a valid sequence number and the next number is that one plus one. *)
Theorem begin_postcondition (e : EEPROM) (w w' : EEPROMWearLeveling)
    (dataType : WLDataType) :
  begin e w = begin e w'
  /\ begin e (begin e w) = begin e w
  /\ 0 <= get2 (currentSlot (begin e w)) dataType < WL_NUM_SLOTS
  /\ 1 <= get2 (nextSequence (begin e w)) dataType <= 65535
  /\ (no_valid_slot e dataType ->
      get2 (currentSlot (begin e w)) dataType = 0
      /\ get2 (nextSequence (begin e w)) dataType = 1)
  /\ (~ no_valid_slot e dataType ->
      1 <= readSlotSequence e dataType (get2 (currentSlot (begin e w)) dataType) <= 65534
      /\ get2 (nextSequence (begin e w)) dataType
         = readSlotSequence e dataType (get2 (currentSlot (begin e w)) dataType) + 1).
Proof.
  destruct (begin_members e w dataType) as [Hc Hn].
  destruct (findLatestSlot_result e dataType) as [Hr Hnone].
  split; [apply begin_forgets |]. split; [apply begin_forgets |].
  split; [rewrite Hc; assumption |].
  split; [apply begin_nextSequence_range |]. split.
  - intros Hempty. rewrite Hc, Hn. clear Hc Hn. cbv zeta.
    rewrite findLatestSlot_no_valid_slot by assumption.
    rewrite Hempty by (unfold WL_NUM_SLOTS; lia). split; reflexivity.
  - intros Hsome. rewrite Hn, Hc. clear Hc Hn. cbv zeta.
    pose proof (readSlotSequence_nonneg e dataType (findLatestSlot e dataType)) as Hb.
    assert (Hne : readSlotSequence e dataType (findLatestSlot e dataType) <> 0)
      by (intros H0; apply Hsome, Hnone, H0).
    set (q := readSlotSequence e dataType (findLatestSlot e dataType)) in *.
    clearbody q. clear Hnone Hsome Hr.
    unfold WL_INVALID_SEQUENCE, u16. split; [lia |].
    split_tests; try lia. apply Z.mod_small. lia.
Qed.

Lemma begin_postcondition_witness :
  get2 (currentSlot (begin erased EEPROMWearLeveling_new)) WL_TIME_FORMAT = 0
  /\ get2 (nextSequence (begin erased EEPROMWearLeveling_new)) WL_TIME_FORMAT = 1.
Proof.
  apply (begin_postcondition erased EEPROMWearLeveling_new EEPROMWearLeveling_new
           WL_TIME_FORMAT).
  apply erased_no_valid_slot.
Defined.

(** ** Invariants of the members *)

Lemma bump_sequence_any s : 1 <= bump_sequence s <= 65534.
Proof.
  unfold bump_sequence, WL_INVALID_SEQUENCE, u16. cbv zeta.
  pose proof (Z.mod_pos_bound (s + 1) 65536 ltac:(lia)). split_tests; lia.
Qed.

Lemma do_write_cases s op :
  do_write s op = s \/ do_write s op = rotate_write (write_type op) (write_data op) s.
Proof.
  destruct op as [format | count]; [| right; reflexivity].
  cbn [do_write]. unfold writeTimeFormat. destruct s as [e w].
  destruct (negb (format =? 0) && negb (format =? 1)) eqn:E; [left; reflexivity |].
  right. reflexivity.
Qed.

Lemma rotate_write_members dataType data s dataType' :
  let s' := rotate_write dataType data s in
  (dataType' = dataType ->
     0 <= get2 (currentSlot (snd s')) dataType' < WL_NUM_SLOTS
     /\ 1 <= get2 (nextSequence (snd s')) dataType' <= 65534)
  /\ (dataType' <> dataType ->
        get2 (currentSlot (snd s')) dataType' = get2 (currentSlot (snd s)) dataType'
        /\ get2 (nextSequence (snd s')) dataType' = get2 (nextSequence (snd s)) dataType').
Proof.
  destruct s as [e w]. cbn [rotate_write snd currentSlot nextSequence]. split.
  - intros ->. rewrite !get2_set2_same. split.
    + apply Z.mod_pos_bound. reflexivity.
    + apply bump_sequence_any.
  - intros Hne. rewrite !get2_set2_other by assumption. split; reflexivity.
Qed.

(** Members.  Whatever calls of [begin] and of the writers an object receives
    after its construction, on whatever device, its current slot stays an
    index into the ring and its next sequence number stays in 1 .. 0xFFFF: the
    reserved number 0 is never assigned.  Without a call of [begin] the next
    sequence number stays in 1 .. 0xFFFE. *)
Theorem members_stay_in_range (e : EEPROM) (dataType : WLDataType) :
  (forall evs,
     let w := snd (run_events evs (e, EEPROMWearLeveling_new)) in
     0 <= get2 (currentSlot w) dataType < WL_NUM_SLOTS
     /\ 1 <= get2 (nextSequence w) dataType <= 65535)
  /\ (forall ops,
        let w := snd (run_writes ops (e, EEPROMWearLeveling_new)) in
        0 <= get2 (currentSlot w) dataType < WL_NUM_SLOTS
        /\ 1 <= get2 (nextSequence w) dataType <= 65534).
Proof.
  split.
  - intros evs. cbv zeta. induction evs as [|ev evs IH] using rev_ind.
    + destruct dataType; cbn; unfold WL_NUM_SLOTS; lia.
    + unfold run_events in *. rewrite fold_left_app. cbn [fold_left].
      set (s := fold_left do_event evs (e, EEPROMWearLeveling_new)) in *.
      destruct ev as [| op]; cbn [do_event snd].
      * apply begin_members_range.
      * destruct (do_write_cases s op) as [-> | ->]; [assumption |].
        destruct (rotate_write_members (write_type op) (write_data op) s dataType)
          as [Hsame Hother].
        destruct dataType, (write_type op);
          try (destruct (Hsame eq_refl); split; [assumption | lia]);
          destruct (Hother ltac:(discriminate)) as [-> ->]; assumption.
  - intros ops. cbv zeta. induction ops as [|op ops IH] using rev_ind.
    + destruct dataType; cbn; unfold WL_NUM_SLOTS; lia.
    + rewrite run_writes_snoc.
      set (s := run_writes ops (e, EEPROMWearLeveling_new)) in *.
      destruct (do_write_cases s op) as [-> | ->]; [assumption |].
      destruct (rotate_write_members (write_type op) (write_data op) s dataType)
        as [Hsame Hother].
      destruct dataType, (write_type op);
        try (destruct (Hsame eq_refl); split; assumption);
        destruct (Hother ltac:(discriminate)) as [-> ->]; assumption.
Qed.

(** ** The two data types do not disturb each other *)

Lemma same_view_refl dataType s : same_view dataType s s.
Proof. repeat split. Qed.

Lemma rotate_write_same_view_other dataType dataType' data s :
  dataType' <> dataType ->
  same_view dataType' (rotate_write dataType data s) s.
Proof.
  intros Hne. destruct s as [e w]. unfold same_view.
  cbn [rotate_write fst snd currentSlot nextSequence].
  assert (Ht : 0 <= (get2 (currentSlot w) dataType + 1) mod WL_NUM_SLOTS < WL_NUM_SLOTS)
    by (apply Z.mod_pos_bound; reflexivity).
  split; [| rewrite !get2_set2_other by assumption; split; reflexivity].
  intros slot Hs. split.
  - apply readSlotSequence_writeSlot_other; [assumption | assumption | left; assumption].
  - apply slot_payload_writeSlot_other; [assumption | assumption | left; assumption].
Qed.

Lemma rotate_write_same_view dataType data s s' :
  Z.of_nat (length data) = dataSize (slotConfig dataType) ->
  same_view dataType s s' ->
  same_view dataType (rotate_write dataType data s) (rotate_write dataType data s').
Proof.
  intros Hlen (Hslots & Hcur & Hnext). destruct s as [e w], s' as [e' w'].
  cbn [fst snd] in *. unfold same_view.
  cbn [rotate_write fst snd currentSlot nextSequence].
  rewrite !get2_set2_same, Hcur, Hnext.
  set (t := (get2 (currentSlot w') dataType + 1) mod WL_NUM_SLOTS).
  assert (Ht : 0 <= t < WL_NUM_SLOTS) by (apply Z.mod_pos_bound; reflexivity).
  split; [| split; reflexivity].
  intros slot Hs. destruct (Z.eq_dec slot t) as [-> | Hne].
  - rewrite !readSlotSequence_writeSlot_same, !slot_payload_writeSlot by assumption.
    split; reflexivity.
  - rewrite !readSlotSequence_writeSlot_other, !slot_payload_writeSlot_other
      by (assumption || right; assumption).
    apply Hslots. assumption.
Qed.

Lemma WLDataType_eqb_eq a b : WLDataType_eqb a b = true <-> a = b.
Proof. destruct a, b; cbn; split; congruence. Qed.

Lemma run_writes_same_view dataType ops :
  forall s s',
  same_view dataType s s' ->
  same_view dataType (run_writes ops s) (run_writes (writes_of dataType ops) s').
Proof.
  induction ops as [|op ops IH]; intros s s' Hv; [exact Hv |].
  unfold run_writes, writes_of. cbn [fold_left List.filter].
  destruct (WLDataType_eqb (write_type op) dataType) eqn:E.
  - apply WLDataType_eqb_eq in E. cbn [fold_left]. apply IH.
    destruct op as [format | count]; cbn [do_write].
    + unfold writeTimeFormat. destruct s as [e w], s' as [e' w'].
      destruct (negb (format =? 0) && negb (format =? 1)); [exact Hv |].
      cbn [write_type] in E. subst dataType.
      apply (rotate_write_same_view WL_TIME_FORMAT [format] (e, w) (e', w') eq_refl Hv).
    + cbn [write_type] in E. subst dataType.
      apply (rotate_write_same_view WL_POWER_CYCLE (bytes_of_u32 (u32 count)) s s' eq_refl Hv).
  - apply IH.
    assert (Hne : dataType <> write_type op).
    { intros ->. destruct (write_type op); discriminate. }
    destruct (do_write_cases s op) as [-> | ->]; [exact Hv |].
    destruct (rotate_write_same_view_other (write_type op) dataType (write_data op) s Hne)
      as (H1 & H2 & H3).
    destruct Hv as (G1 & G2 & G3).
    split; [| split; congruence].
    intros slot Hs. destruct (H1 slot Hs) as [A1 A2]. destruct (G1 slot Hs) as [B1 B2].
    split; congruence.
Qed.

Lemma read_back_same_view dataType s s' :
  same_view dataType s s' -> read_back dataType (fst s) = read_back dataType (fst s').
Proof.
  intros (Hslots & _ & _).
  assert (Hfind : findLatestSlot (fst s) dataType = findLatestSlot (fst s') dataType)
    by (apply findLatestSlot_ext; intros slot Hs; apply Hslots; assumption).
  pose proof (proj1 (findLatestSlot_result (fst s') dataType)) as Hr.
  assert (Hread : readSlot (fst s) dataType (findLatestSlot (fst s) dataType)
                  = readSlot (fst s') dataType (findLatestSlot (fst s') dataType)).
  { rewrite Hfind, !readSlot_eq by assumption.
    destruct (Hslots _ Hr) as [-> ->]. reflexivity. }
  destruct dataType; cbn [read_back]; unfold readTimeFormat, readPowerCycleCount;
    cbv zeta; rewrite Hread; reflexivity.
Qed.

(** Independence of the data types.  In any history of write requests, from
    any state, what the store holds for one data type (the sequence numbers
    and payloads of its slots, its current slot and next sequence number) and
    what its reader returns are the same as if the requests for the other
    data type had not been made. *)
Theorem data_types_independent (dataType : WLDataType) (ops : list wl_write)
    (s : EEPROM * EEPROMWearLeveling) :
  same_view dataType (run_writes ops s) (run_writes (writes_of dataType ops) s)
  /\ read_back dataType (fst (run_writes ops s))
     = read_back dataType (fst (run_writes (writes_of dataType ops) s)).
Proof.
  pose proof (run_writes_same_view dataType ops s s (same_view_refl dataType s)) as H.
  split; [exact H | apply read_back_same_view; exact H].
Qed.

Lemma in_region_slot dataType slot addr :
  0 <= slot < WL_NUM_SLOTS ->
  getSlotAddress dataType slot <= addr
    < getSlotAddress dataType slot + slotSize (slotConfig dataType) ->
  in_region dataType addr.
Proof.
  intros Hs. rewrite getSlotAddress_eq by assumption. unfold in_region.
  destruct dataType; config; lia.
Qed.

(** Writes stay in their region.  A write request changes no cell outside the
    region of its data type: the cells of the other data type and the cells
    below address 10 (which the sketch uses directly), at 58 and 59, and from
    156 on keep their contents. *)
Theorem writes_stay_in_region (s : EEPROM * EEPROMWearLeveling) (op : wl_write) (addr : Z) :
  ~ in_region (write_type op) addr ->
  EEPROM_read (fst (do_write s op)) addr = EEPROM_read (fst s) addr.
Proof.
  intros Hout. destruct (do_write_cases s op) as [-> | ->]; [reflexivity |].
  destruct s as [e w]. cbn [rotate_write fst].
  set (t := (get2 (currentSlot w) (write_type op) + 1) mod WL_NUM_SLOTS).
  assert (Ht : 0 <= t < WL_NUM_SLOTS) by (apply Z.mod_pos_bound; reflexivity).
  apply EEPROM_read_writeSlot_outside; [assumption |].
  destruct (Z.lt_ge_cases addr (getSlotAddress (write_type op) t)) as [Hlt | Hge];
    [left; assumption | right].
  destruct (Z.le_gt_cases
              (getSlotAddress (write_type op) t + slotSize (slotConfig (write_type op))) addr)
    as [Hle | Hgt]; [assumption |].
  exfalso. apply Hout. apply (in_region_slot _ t); [assumption | lia].
Qed.

Lemma writes_stay_in_region_witness :
  EEPROM_read (fst (do_write (erased, EEPROMWearLeveling_new) (WritePowerCycleCount 7))) 1
  = EEPROM_read erased 1.
Proof.
  apply (writes_stay_in_region (erased, EEPROMWearLeveling_new) (WritePowerCycleCount 7) 1).
  unfold in_region. config. cbn. lia.
Defined.

(** ** What the readers and [getDebugInfo] report *)

(** [getDebugInfo] after a write.  After an accepted write whose pending
    sequence number is between 1 and 0xFFFD, [getDebugInfo] returns the slot
    just written and the sequence number stored in it.  After the write that
    stores 0xFFFE it returns sequence 0, because the next number has wrapped
    to 1. *)
Theorem getDebugInfo_after_write (s : EEPROM * EEPROMWearLeveling) (op : wl_write) :
  write_accepted op ->
  let dataType := write_type op in
  let pending := get2 (nextSequence (snd s)) dataType in
  let target := (get2 (currentSlot (snd s)) dataType + 1) mod WL_NUM_SLOTS in
  (1 <= pending <= 65533 ->
     getDebugInfo (snd (do_write s op)) dataType = (target, pending)
     /\ readSlotSequence (fst (do_write s op)) dataType target = pending)
  /\ (pending = 65534 ->
        getDebugInfo (snd (do_write s op)) dataType = (target, 0)
        /\ readSlotSequence (fst (do_write s op)) dataType target = 65534).
Proof.
  intros Hacc dataType pending target.
  rewrite do_write_accepted by assumption. fold dataType.
  destruct s as [e w]. cbn [fst snd] in *.
  assert (Ht : 0 <= target < WL_NUM_SLOTS) by (apply Z.mod_pos_bound; reflexivity).
  unfold getDebugInfo. cbn [rotate_write fst snd currentSlot nextSequence].
  rewrite !get2_set2_same. fold pending target.
  rewrite readSlotSequence_writeSlot_same by assumption.
  unfold bump_sequence, WL_INVALID_SEQUENCE, u16. cbv zeta.
  split.
  - intros Hp. rewrite (Z.mod_small (pending + 1)), (Z.mod_small pending) by lia.
    split_tests; try lia. split; [| reflexivity].
    f_equal. rewrite Z.mod_small by lia. lia.
  - intros Hp. rewrite Hp. split; reflexivity.
Qed.

Lemma getDebugInfo_after_write_witness :
  getDebugInfo (snd (do_write (erased, EEPROMWearLeveling_new) (WriteTimeFormat 1)))
    WL_TIME_FORMAT = (1, 1).
Proof.
  apply (proj1 (getDebugInfo_after_write (erased, EEPROMWearLeveling_new)
                  (WriteTimeFormat 1) (or_intror eq_refl))).
  cbn. lia.
Defined.

Lemma slot_payload_range e dataType slot :
  Forall (fun b => 0 <= b < 256) (slot_payload e dataType slot).
Proof.
  unfold slot_payload. apply Forall_forall. intros b Hb.
  apply list_elem_of_In, in_map_iff in Hb as (i & <- & _). apply EEPROM_read_range.
Qed.

(** Range of the readers.  On every device [readTimeFormat] returns 0 or 1
    and [readPowerCycleCount] returns a count below 0xFFFFFF00. *)
Theorem readers_range (e : EEPROM) :
  (readTimeFormat e = 0 \/ readTimeFormat e = 1)
  /\ 0 <= readPowerCycleCount e < 4294967040.
Proof.
  split.
  - unfold readTimeFormat. cbv zeta.
    destruct (readSlot e WL_TIME_FORMAT (findLatestSlot e WL_TIME_FORMAT)) as [data |];
      [| left; reflexivity].
    destruct (Z.eqb_spec (nth 0 data 0) 0) as [-> | H0]; [left; reflexivity |].
    destruct (Z.eqb_spec (nth 0 data 0) 1) as [-> | H1]; [right | left]; reflexivity.
  - unfold readPowerCycleCount. cbv zeta.
    destruct (readSlot_cases e WL_POWER_CYCLE (findLatestSlot e WL_POWER_CYCLE)) as [-> | ->];
      [lia |].
    destruct (Z.ltb_spec
                (u32_of_bytes (slot_payload e WL_POWER_CYCLE (findLatestSlot e WL_POWER_CYCLE)))
                4294967040) as [Hlt | Hge]; [| lia].
    split; [| assumption].
    pose proof (slot_payload_range e WL_POWER_CYCLE (findLatestSlot e WL_POWER_CYCLE)) as Hb.
    unfold slot_payload in *. revert Hb. config. rewrite upto_4. cbn [map].
    intros Hb. unfold u32_of_bytes. cbn [nth].
    repeat (apply Forall_cons in Hb as [? Hb]). lia.
Qed.

(** A count that the reader rejects.  [writePowerCycleCount] validates
    nothing: a count of 0xFFFFFF00 or more takes the next slot and sequence
    number like any other, its bytes are on the device, and yet
    [readPowerCycleCount] returns 0. *)
Theorem count_above_ceiling_reads_zero (e0 : EEPROM) (count : Z) :
  no_valid_slot e0 WL_POWER_CYCLE ->
  4294967040 <= count < 4294967296 ->
  let s := writePowerCycleCount count (e0, begin e0 EEPROMWearLeveling_new) in
  get2 (currentSlot (snd s)) WL_POWER_CYCLE = 1
  /\ readSlotSequence (fst s) WL_POWER_CYCLE 1 = 1
  /\ u32_of_bytes (slot_payload (fst s) WL_POWER_CYCLE 1) = count
  /\ readPowerCycleCount (fst s) = 0.
Proof.
  intros Hempty Hc s.
  assert (Hring0 : ring_state WL_POWER_CYCLE 0 [] e0).
  { split; [| lia]. intros slot Hs. rewrite ring_sequence_0 by assumption.
    apply Hempty. assumption. }
  pose proof (do_write_accepted (e0, begin e0 EEPROMWearLeveling_new)
                (WritePowerCycleCount count) I) as Hs.
  cbn [do_write write_type write_data] in Hs. fold s in Hs.
  destruct (rotate_write_ring WL_POWER_CYCLE 0 [] (bytes_of_u32 (u32 count)) e0
              (begin e0 EEPROMWearLeveling_new) Hring0) as [[Hseq Hdata] [Hcur _]];
    [apply begin_ring; [apply Hring0 | lia] | lia | reflexivity |].
  rewrite <- Hs in Hseq, Hdata, Hcur. clearbody s. clear Hs.
  replace ((0 + 1) mod WL_NUM_SLOTS) with 1 in * by reflexivity.
  replace (0 + 1) with 1 in * by reflexivity.
  specialize (Hdata ltac:(lia)).
  assert (H1 : readSlotSequence (fst s) WL_POWER_CYCLE 1 = 1)
    by (rewrite Hseq by (unfold WL_NUM_SLOTS; lia); reflexivity).
  assert (Hpay : slot_payload (fst s) WL_POWER_CYCLE 1 = map u8 (bytes_of_u32 (u32 count))).
  { rewrite readSlot_eq, H1 in Hdata by (unfold WL_NUM_SLOTS; lia).
    change (1 =? WL_INVALID_SEQUENCE) with false in Hdata.
    apply (inj Some) in Hdata. exact Hdata. }
  split; [assumption |]. split; [assumption |]. split.
  - rewrite Hpay. apply u32_bytes_roundtrip. lia.
  - unfold readPowerCycleCount. cbv zeta.
    rewrite (findLatestSlot_ring (fst s) WL_POWER_CYCLE 1) by (assumption || lia).
    replace (1 mod WL_NUM_SLOTS) with 1 by reflexivity.
    rewrite Hdata. rewrite u32_bytes_roundtrip by lia.
    destruct (Z.ltb_spec count 4294967040); [lia | reflexivity].
Qed.

Lemma count_above_ceiling_reads_zero_witness :
  readPowerCycleCount
    (fst (writePowerCycleCount 4294967295 (erased, begin erased EEPROMWearLeveling_new))) = 0.
Proof.
  apply (count_above_ceiling_reads_zero erased 4294967295).
  - apply erased_no_valid_slot.
  - lia.
Defined.

(** ** Recovery with both data types and across restarts *)

Lemma writes_of_Forall dataType ops :
  Forall value_valid ops ->
  Forall (fun op => write_type op = dataType /\ value_valid op) (writes_of dataType ops).
Proof.
  intros H. apply Forall_forall. intros op Hin.
  apply list_elem_of_In in Hin. unfold writes_of in Hin. apply filter_In in Hin as [Hin E].
  split; [apply WLDataType_eqb_eq; assumption |].
  rewrite Forall_forall in H. apply H. apply list_elem_of_In. assumption.
Qed.

(** Recovery with interleaved writes.  On a device without a valid slot for a
    data type, after [begin] and any history of valid writes to both data
    types in which that type receives between 1 and 0xFFFE writes, the reader
    of the type returns the value of its last write, however many writes
    went to the other type before, between or after. *)
Theorem interleaved_recovery (dataType : WLDataType) (e0 : EEPROM)
    (ops earlier : list wl_write) (last_op : wl_write) :
  no_valid_slot e0 dataType ->
  Forall value_valid ops ->
  writes_of dataType ops = earlier ++ [last_op] ->
  Z.of_nat (length (writes_of dataType ops)) <= 65534 ->
  read_back dataType (fst (run_writes ops (e0, begin e0 EEPROMWearLeveling_new)))
  = write_value last_op.
Proof.
  intros Hempty Hvalid Hsplit Hlen.
  rewrite (read_back_same_view dataType _ _
             (run_writes_same_view dataType ops _ _ (same_view_refl dataType _))).
  pose proof (writes_of_Forall dataType ops Hvalid) as Hall.
  rewrite Hsplit in *.
  apply (recovery_from_ring dataType 0 [] e0 earlier last_op); try assumption; try lia.
  split; [| lia]. intros slot Hs. rewrite ring_sequence_0 by assumption.
  apply Hempty. assumption.
Qed.

Lemma interleaved_recovery_witness :
  read_back WL_TIME_FORMAT
    (fst (run_writes [WriteTimeFormat 1; WritePowerCycleCount 9; WriteTimeFormat 0;
                      WritePowerCycleCount 10]
            (erased, begin erased EEPROMWearLeveling_new))) = 0.
Proof.
  apply (interleaved_recovery WL_TIME_FORMAT erased
           [WriteTimeFormat 1; WritePowerCycleCount 9; WriteTimeFormat 0;
            WritePowerCycleCount 10] [WriteTimeFormat 1] (WriteTimeFormat 0)).
  - apply erased_no_valid_slot.
  - repeat constructor; cbn; lia.
  - reflexivity.
  - cbn. lia.
Defined.

Lemma run_sessions_ring dataType sessions :
  forall n data0 e0,
  ring_state dataType n data0 e0 -> 0 <= n ->
  n + Z.of_nat (length (concat sessions)) <= 65534 ->
  Forall (Forall (fun op => write_type op = dataType /\ write_accepted op)) sessions ->
  ring_state dataType (n + Z.of_nat (length (concat sessions)))
    (fold_left (fun _ op => write_data op) (concat sessions) data0)
    (run_sessions sessions e0).
Proof.
  induction sessions as [|ops sessions IH]; intros n data0 e0 Hring Hn Hlen Hall.
  - cbn. rewrite Z.add_0_r. assumption.
  - apply Forall_cons in Hall as [Hops Hall].
    cbn [concat] in *. rewrite length_app in *.
    unfold run_sessions. cbn [fold_left]. fold (run_sessions sessions).
    destruct (run_writes_ring dataType ops n data0 e0 (begin e0 EEPROMWearLeveling_new))
      as [Hr _]; [assumption | apply begin_ring; [apply Hring | lia] | lia | lia | assumption |].
    rewrite fold_left_app.
    replace (n + Z.of_nat (length ops + length (concat sessions)))
      with (n + Z.of_nat (length ops) + Z.of_nat (length (concat sessions))) by lia.
    apply IH; [assumption | lia | lia | assumption].
Qed.

(** Recovery across restarts.  A device without a valid slot for a data type
    goes through any number of power-on sessions; in each a new object calls
    [begin] and makes valid writes to that type, at most 0xFFFE writes in
    all.  Then the reader returns the value of the last write, and a further
    [begin] finds the slot of that write. *)
Theorem recovery_across_restarts (dataType : WLDataType) (e0 : EEPROM)
    (sessions : list (list wl_write)) (earlier : list wl_write) (last_op : wl_write) :
  no_valid_slot e0 dataType ->
  Forall (Forall (fun op => write_type op = dataType /\ value_valid op)) sessions ->
  concat sessions = earlier ++ [last_op] ->
  Z.of_nat (length (concat sessions)) <= 65534 ->
  let e := run_sessions sessions e0 in
  read_back dataType e = write_value last_op
  /\ get2 (currentSlot (begin e EEPROMWearLeveling_new)) dataType
     = Z.of_nat (length (concat sessions)) mod WL_NUM_SLOTS.
Proof.
  intros Hempty Hall Hsplit Hlen e.
  assert (Hring0 : ring_state dataType 0 [] e0).
  { split; [| lia]. intros slot Hs. rewrite ring_sequence_0 by assumption.
    apply Hempty. assumption. }
  pose proof (run_sessions_ring dataType sessions 0 [] e0 Hring0 ltac:(lia) ltac:(lia)) as Hr.
  rewrite Z.add_0_l in Hr. fold e in Hr.
  assert (Hacc : Forall (Forall (fun op => write_type op = dataType /\ write_accepted op))
                   sessions).
  { eapply Forall_impl; [exact Hall |]. intros ops Hops.
    eapply Forall_impl; [exact Hops |]. cbn. intros op [? ?].
    split; [assumption | apply value_valid_accepted; assumption]. }
  specialize (Hr Hacc).
  assert (Hlast : write_type last_op = dataType /\ value_valid last_op).
  { assert (Hin : last_op ∈ concat sessions)
      by (rewrite Hsplit; apply elem_of_app; right; apply list_elem_of_singleton; reflexivity).
    apply list_elem_of_In, in_concat in Hin as (ops & Hops & Hin).
    rewrite Forall_forall in Hall. specialize (Hall ops (proj2 (list_elem_of_In _ _) Hops)).
    rewrite Forall_forall in Hall. apply Hall. apply list_elem_of_In. assumption. }
  destruct Hlast as [Htype Hvalid].
  assert (HK : 1 <= Z.of_nat (length (concat sessions)))
    by (rewrite Hsplit, length_app; cbn [length]; lia).
  split.
  - assert (Hfold : fold_left (fun _ op => write_data op) (concat sessions) []
                     = write_data last_op)
      by (rewrite Hsplit, fold_left_app; reflexivity).
    rewrite Hfold in Hr. rewrite <- Htype in *. apply (read_back_ring e last_op _ Hr); [lia | assumption].
  - apply (begin_ring e EEPROMWearLeveling_new dataType); [apply Hr | lia].
Qed.

Lemma recovery_across_restarts_witness :
  read_back WL_POWER_CYCLE
    (run_sessions [[WritePowerCycleCount 1]; []; [WritePowerCycleCount 2; WritePowerCycleCount 3]]
       erased) = 3.
Proof.
  apply (recovery_across_restarts WL_POWER_CYCLE erased
           [[WritePowerCycleCount 1]; []; [WritePowerCycleCount 2; WritePowerCycleCount 3]]
           [WritePowerCycleCount 1; WritePowerCycleCount 2] (WritePowerCycleCount 3)).
  - apply erased_no_valid_slot.
  - repeat constructor; cbn; lia.
  - reflexivity.
  - cbn. lia.
Defined.

(** ** Rotation of the writes, on the device *)

Lemma EEPROM_get16_writeSlot_other e dataType slot sequence data dataType' slot' :
  0 <= slot < WL_NUM_SLOTS -> 0 <= slot' < WL_NUM_SLOTS ->
  dataType' <> dataType \/ slot' <> slot ->
  EEPROM_get16 (writeSlot e dataType slot sequence data) (getSlotAddress dataType' slot')
  = EEPROM_get16 e (getSlotAddress dataType' slot').
Proof.
  intros Hs Hs' Hne. unfold EEPROM_get16.
  pose proof (slots_disjoint _ _ _ _ Hs Hs' Hne) as Hd.
  pose proof (slotSize_eq dataType'). pose proof (slotSize_eq dataType).
  rewrite !EEPROM_read_writeSlot_outside by (assumption || lia). reflexivity.
Qed.

(** What one accepted write leaves on the device and in the object. *)
Lemma rotate_write_device dataType data e w :
  Z.of_nat (length data) = dataSize (slotConfig dataType) ->
  let target := (get2 (currentSlot w) dataType + 1) mod WL_NUM_SLOTS in
  let after := rotate_write dataType data (e, w) in
  0 <= target < WL_NUM_SLOTS
  /\ fst after = writeSlot e dataType target (get2 (nextSequence w) dataType) data
  /\ EEPROM_get16 (fst after) (getSlotAddress dataType target)
     = u16 (get2 (nextSequence w) dataType)
  /\ slot_payload (fst after) dataType target = map u8 data
  /\ get2 (currentSlot (snd after)) dataType = target.
Proof.
  intros Hlen target after.
  assert (Ht : 0 <= target < WL_NUM_SLOTS) by (apply Z.mod_pos_bound; reflexivity).
  split; [exact Ht |]. split; [reflexivity |].
  unfold after. cbn [rotate_write fst snd]. fold target.
  split; [apply EEPROM_get16_writeSlot, Ht |].
  split; [apply slot_payload_writeSlot; assumption |].
  apply get2_set2_same.
Qed.




(** * Further properties of the stability filter *)

#[local] Remove Hints Q_ops : typeclass_instances.

Section FilterMore.
Context {FO : FloatOps}.
Local Open Scope nat_scope.

(** One pass of the outer loop of the sort works on the first [n] cells. *)
Lemma sort_pass_app n i (l rest : list float) :
  length l = n ->
  fold_left swap_if_gt (seq 0 (n - i - 1)) (l ++ rest)
  = fold_left swap_if_gt (seq 0 (n - i - 1)) l ++ rest
  /\ length (fold_left swap_if_gt (seq 0 (n - i - 1)) l) = n
  /\ fold_left swap_if_gt (seq 0 (n - i - 1)) l ≡ₚ l.
Proof.
  intros Hn. destruct (Nat.eq_dec (n - i - 1) 0) as [-> | Hk].
  - cbn. repeat split; assumption || reflexivity.
  - pose proof (inner_loop_bubble (n - i - 1) [] (l ++ rest)) as H1.
    pose proof (inner_loop_bubble (n - i - 1) [] l) as H2.
    cbn [length app] in H1, H2.
    rewrite H1 by (rewrite length_app; lia). rewrite H2 by lia.
    rewrite bubble_app by lia.
    pose proof (bubble_perm (n - i - 1) l) as Hp.
    repeat split; [rewrite Hp; assumption | assumption].
Qed.

Lemma sort_passes_app n (passes : list nat) :
  forall l rest : list float,
  length l = n ->
  fold_left (fun arr i => fold_left swap_if_gt (seq 0 (n - i - 1)) arr) passes (l ++ rest)
  = fold_left (fun arr i => fold_left swap_if_gt (seq 0 (n - i - 1)) arr) passes l ++ rest
  /\ fold_left (fun arr i => fold_left swap_if_gt (seq 0 (n - i - 1)) arr) passes l ≡ₚ l.
Proof.
  induction passes as [|i passes IH]; intros l rest Hn; [split; reflexivity |].
  cbn [fold_left]. destruct (sort_pass_app n i l rest Hn) as (-> & Hlen & Hp).
  destruct (IH _ rest Hlen) as [-> Hp']. split; [reflexivity |].
  rewrite Hp'. assumption.
Qed.

(** The sort keeps the values of the first [n] cells and touches no other. *)
Lemma sortFloatArray_app n (l rest : list float) :
  length l = n ->
  sortFloatArray (l ++ rest) n = sortFloatArray l n ++ rest
  /\ sortFloatArray l n ≡ₚ l.
Proof. intros Hn. unfold sortFloatArray. apply sort_passes_app. assumption. Qed.

Lemma bubble_sorted k : forall l : list float, Sorted f_le l -> bubble l k = l.
Proof.
  induction k as [|k IH]; intros l Hs; [destruct l; reflexivity |].
  destruct l as [|x [|y l]]; try reflexivity. cbn [bubble].
  apply Sorted_inv in Hs as [Hs Hhd]. apply HdRel_inv in Hhd.
  unfold f_le in Hhd. rewrite Hhd, (IH _ Hs). reflexivity.
Qed.

Lemma sort_passes_sorted n (passes : list nat) (l : list float) :
  length l = n -> Sorted f_le l ->
  fold_left (fun arr i => fold_left swap_if_gt (seq 0 (n - i - 1)) arr) passes l = l.
Proof.
  intros Hn Hs. induction passes as [|i passes IH]; [reflexivity |].
  cbn [fold_left].
  replace (fold_left swap_if_gt (seq 0 (n - i - 1)) l) with l; [exact IH |].
  destruct (Nat.eq_dec (n - i - 1) 0) as [-> | Hk]; [reflexivity |].
  pose proof (inner_loop_bubble (n - i - 1) [] l) as H. cbn [length app] in H.
  rewrite H by lia. symmetry. apply bubble_sorted. assumption.
Qed.

(** [sortFloatArray] on part of an array.  Called with a count [n] up to
    the length of the array, the sort rearranges the first [n] cells only:
    the result is the sorted first [n] cells followed by the other cells
    unchanged, and the first [n] cells hold the same values as before.  With
    [n] at most 1 nothing moves. *)
Theorem sortFloatArray_prefix (arr : list float) (n : nat) :
  n <= length arr ->
  sortFloatArray arr n = sortFloatArray (take n arr) n ++ drop n arr
  /\ take n (sortFloatArray arr n) ≡ₚ take n arr
  /\ drop n (sortFloatArray arr n) = drop n arr
  /\ (n <= 1 -> sortFloatArray arr n = arr).
Proof.
  intros Hn.
  assert (Hlen : length (take n arr) = n) by (rewrite length_take; lia).
  destruct (sortFloatArray_app n (take n arr) (drop n arr) Hlen) as [Happ Hperm].
  rewrite take_drop in Happ.
  assert (Hlen' : length (sortFloatArray (take n arr) n) = n) by (rewrite Hperm; assumption).
  rewrite Happ. split; [reflexivity |]. split; [| split].
  - rewrite take_app_length' by lia. assumption.
  - rewrite drop_app_length' by lia. reflexivity.
  - intros H1. rewrite <- Happ. unfold sortFloatArray.
    destruct n as [|[|n]]; [reflexivity | reflexivity | lia].
Qed.

(** [sortFloatArray] on sorted input.  When no cell among the first [n] is
    greater than the cell after it, the sort swaps nothing and returns the
    array as it is. *)
Theorem sortFloatArray_of_sorted (arr : list float) (n : nat) :
  n <= length arr ->
  Sorted f_le (take n arr) ->
  sortFloatArray arr n = arr.
Proof.
  intros Hn Hs.
  assert (Hlen : length (take n arr) = n) by (rewrite length_take; lia).
  destruct (sortFloatArray_app n (take n arr) (drop n arr) Hlen) as [Happ _].
  rewrite take_drop in Happ. rewrite Happ.
  unfold sortFloatArray. rewrite sort_passes_sorted by assumption.
  apply take_drop.
Qed.

(** ** Updates of mixed validity *)

Lemma run_updates_skip gs :
  forall st, run_updates gs st = run_updates (List.filter gps_valid gs) st.
Proof.
  induction gs as [|g gs IH]; intros st; [reflexivity |].
  unfold run_updates. cbn [fold_left List.filter].
  destruct (gps_valid g) eqn:E.
  - cbn [fold_left]. apply IH.
  - rewrite update_invalid by assumption. apply IH.
Qed.

Lemma filter_valid_Forall (gs : list TinyGPSPlus) :
  Forall (fun g => gps_valid g = true) (List.filter gps_valid gs).
Proof.
  apply Forall_forall. intros g Hg. apply list_elem_of_In, filter_In in Hg. tauto.
Qed.

(** Updates with invalid data are skipped.  A run of [update] calls leaves
    the filter as the calls with valid location and altitude alone would: on
    a new filter the counter is the number of valid calls, capped at 12, the
    cursor is that number modulo 12, and the members stay within their
    bounds. *)
Theorem invalid_updates_are_skipped (gs : list TinyGPSPlus) (st : GpsStabilityFilter) :
  run_updates gs st = run_updates (List.filter gps_valid gs) st
  /\ getTotalReadings (run_updates gs GpsStabilityFilter_new)
     = Nat.min (length (List.filter gps_valid gs)) GPS_FILTER_WINDOW_SIZE
  /\ currentIndex (run_updates gs GpsStabilityFilter_new)
     = length (List.filter gps_valid gs) mod GPS_FILTER_WINDOW_SIZE
  /\ filter_ok (run_updates gs GpsStabilityFilter_new).
Proof.
  split; [apply run_updates_skip |].
  rewrite (run_updates_skip gs GpsStabilityFilter_new).
  destruct (run_updates_positions (List.filter gps_valid gs) GpsStabilityFilter_new
              new_filter_ok (filter_valid_Forall gs)) as (Hcur & Htot & _).
  split; [exact Htot |]. split; [exact Hcur |].
  apply run_updates_ok, new_filter_ok.
Qed.

(** ** The filtered value of the samples collected *)

(** The shared part of the getters, without any assumption on the order. *)
Lemma trimmed_mean_value (readings : list float) n raw :
  1 <= n <= length readings ->
  trimmed_mean readings n raw = mean (trim n (sortFloatArray (take n readings) n))
  /\ length (trim n (sortFloatArray (take n readings) n))
     = (if 5 <? n then n - 2 * (n / 5) else n)
  /\ 1 <= length (trim n (sortFloatArray (take n readings) n)).
Proof.
  intros Hn. unfold trimmed_mean, mean, trim. cbv zeta.
  set (wb := sortFloatArray (take n readings) n).
  assert (Hwb : length wb = n).
  { unfold wb. destruct (sortFloatArray_app n (take n readings) [])as [_ Hp].
    - rewrite length_take. lia.
    - rewrite Hp, length_take. lia. }
  pose proof (Nat.div_mod n 5 ltac:(discriminate)) as Hq.
  pose proof (Nat.mod_upper_bound n 5 ltac:(discriminate)) as Hr.
  destruct (Nat.ltb_spec 5 n) as [H5 | H5].
  - rewrite sum_loop by lia.
    rewrite take_drop_commute.
    replace (n / 5 + (n - n / 5 - n / 5)) with (n - n / 5) by lia.
    rewrite length_drop, length_take, Hwb.
    replace (0 + (n - n / 5 - n / 5)) with ((n - n / 5) `min` n - n / 5) by lia.
    destruct (Nat.ltb_spec 0 ((n - n / 5) `min` n - n / 5)); [| lia].
    repeat split; lia.
  - rewrite sum_loop by lia. rewrite drop_0, Nat.sub_0_r, take_ge by lia.
    rewrite Hwb. cbn [Nat.add].
    destruct (Nat.ltb_spec 0 n); [| lia]. repeat split; lia.
Qed.

(** The raw fallback of the getters is never taken.  Once the sample count
    is at least 3 and the module reports valid data, the value returned does
    not depend on the raw value: the averaging loop always runs, over
    [n - 2 * (n / 5)] samples when [n > 5] and over all [n] otherwise, so
    the division is by a count of at least 1. *)
Theorem getFiltered_averages_samples (ch : channel) (gps gps' : TinyGPSPlus)
    (st : GpsStabilityFilter) :
  filter_ok st ->
  GPS_FILTER_MIN_READINGS <= totalReadings st ->
  channel_isValid ch gps = true -> channel_isValid ch gps' = true ->
  let n := totalReadings st in
  let kept := trim n (sortFloatArray (take n (readings ch st)) n) in
  getFiltered ch gps st = getFiltered ch gps' st
  /\ getFiltered ch gps st = f_div (fold_left f_add kept f_zero) (f_of_u8 (length kept))
  /\ length kept = (if 5 <? n then n - 2 * (n / 5) else n)
  /\ 3 <= length kept <= n.
Proof.
  intros Hok Hmin Hv Hv' n kept.
  assert (Hlen : length (readings ch st) = GPS_FILTER_WINDOW_SIZE)
    by (destruct Hok as (? & ? & ? & _); destruct ch; assumption).
  assert (Hn : n <= GPS_FILTER_WINDOW_SIZE) by apply Hok.
  unfold GPS_FILTER_WINDOW_SIZE, GPS_FILTER_MIN_READINGS in *.
  assert (Hget : forall g, channel_isValid ch g = true ->
            getFiltered ch g st = mean kept).
  { intros g Hg. rewrite getFiltered_eq, Hg.
    replace (totalReadings st <? GPS_FILTER_MIN_READINGS) with false
      by (symmetry; apply Nat.ltb_ge; assumption).
    cbn [orb negb]. apply trimmed_mean_value. fold n. lia. }
  destruct (trimmed_mean_value (readings ch st) n (raw_value ch gps) ltac:(lia))
    as (_ & Hk & _).
  fold kept in Hk.
  split; [rewrite (Hget gps Hv), (Hget gps' Hv'); reflexivity |].
  split; [apply Hget; assumption |]. split; [assumption |].
  rewrite Hk.
  pose proof (Nat.div_mod n 5 ltac:(discriminate)) as Hq.
  pose proof (Nat.mod_upper_bound n 5 ltac:(discriminate)) as Hr.
  destruct (Nat.ltb_spec 5 n); lia.
Qed.

(** From the first sample to a full window.  After K valid updates of a new
    filter, 3 <= K <= 12, the first K cells of each buffer hold the K
    samples in the order of their arrival, and the getter of a channel that
    the module reports valid returns the mean of those samples, sorted and
    trimmed. *)
Theorem getFiltered_of_collected_samples (ch : channel) (gs : list TinyGPSPlus)
    (gps : TinyGPSPlus) :
  Forall (fun g => gps_valid g = true) gs ->
  GPS_FILTER_MIN_READINGS <= length gs <= GPS_FILTER_WINDOW_SIZE ->
  channel_isValid ch gps = true ->
  let st := run_updates gs GpsStabilityFilter_new in
  take (length gs) (readings ch st) = map (raw_value ch) gs
  /\ getFiltered ch gps st
     = mean (trim (length gs) (sortFloatArray (map (raw_value ch) gs) (length gs))).
Proof.
  intros Hall Hlen Hv st.
  destruct (run_updates_positions gs GpsStabilityFilter_new new_filter_ok Hall)
    as (_ & Htot & Hpos).
  pose proof (run_updates_ok gs GpsStabilityFilter_new new_filter_ok) as Hok.
  fold st in Htot, Hpos, Hok.
  assert (Hl : length (readings ch st) = GPS_FILTER_WINDOW_SIZE)
    by (destruct Hok as (? & ? & ? & _); destruct ch; assumption).
  unfold GPS_FILTER_WINDOW_SIZE, GPS_FILTER_MIN_READINGS in *.
  cbn [totalReadings currentIndex GpsStabilityFilter_new] in Htot, Hpos.
  assert (Htake : take (length gs) (readings ch st) = map (raw_value ch) gs).
  { apply list_eq. intros j. rewrite list_lookup_fmap.
    destruct (Nat.lt_ge_cases j (length gs)) as [Hj | Hj].
    - rewrite lookup_take_lt by assumption.
      rewrite <- (Hpos ch j) by lia. rewrite Nat.mod_small by lia. reflexivity.
    - rewrite (lookup_ge_None_2 gs) by assumption.
      apply lookup_ge_None_2. rewrite length_take. lia. }
  split; [assumption |].
  rewrite getFiltered_eq, Hv, Htot.
  replace ((0 + length gs) `min` 12) with (length gs) by lia.
  replace (length gs <? GPS_FILTER_MIN_READINGS) with false
    by (symmetry; apply Nat.ltb_ge; unfold GPS_FILTER_MIN_READINGS; lia).
  cbn [orb negb].
  rewrite (proj1 (trimmed_mean_value (readings ch st) (length gs) _ ltac:(lia))).
  rewrite Htake. reflexivity.
Qed.

End FilterMore.

Section SortMore.
Context {FO : FloatOps} {FL : FloatOrder FO}.
Local Open Scope nat_scope.

(** [sortFloatArray] sorts, and sorting twice changes nothing more.  For a
    comparison that is asymmetric and whose negation is transitive, the first
    [n] cells of the result are in ascending order, and a second call with
    the same count returns the result of the first. *)
Theorem sortFloatArray_sorts (arr : list float) (n : nat) :
  n <= length arr ->
  StronglySorted f_le (take n (sortFloatArray arr n))
  /\ sortFloatArray (sortFloatArray arr n) n = sortFloatArray arr n.
Proof.
  intros Hn.
  assert (Hlen : length (take n arr) = n) by (rewrite length_take; lia).
  destruct (sortFloatArray_app n (take n arr) (drop n arr) Hlen) as [Happ Hperm].
  rewrite take_drop in Happ.
  destruct (sortFloatArray_sorted (take n arr) n Hlen) as [Hsorted _].
  assert (Hlen' : length (sortFloatArray (take n arr) n) = n) by (rewrite Hperm; assumption).
  assert (Htake : take n (sortFloatArray arr n) = sortFloatArray (take n arr) n)
    by (rewrite Happ; apply take_app_length'; lia).
  split; [rewrite Htake; assumption |].
  rewrite Happ at 1.
  destruct (sortFloatArray_app n (sortFloatArray (take n arr) n) (drop n arr) Hlen')
    as [-> _].
  unfold sortFloatArray at 1.
  rewrite sort_passes_sorted;
    [symmetry; exact Happ | assumption | apply StronglySorted_Sorted; assumption].
Qed.

End SortMore.

Lemma sortFloatArray_prefix_witness :
  drop 2 (@sortFloatArray Q_ops (map (@f_of_u8 Q_ops) [3; 1; 2]%nat) 2)
  = drop 2 (map (@f_of_u8 Q_ops) [3; 1; 2]%nat).
Proof.
  apply (@sortFloatArray_prefix Q_ops (map (@f_of_u8 Q_ops) [3; 1; 2]%nat) 2).
  cbn. lia.
Defined.

Lemma sortFloatArray_of_sorted_witness :
  @sortFloatArray Q_ops (map (@f_of_u8 Q_ops) [1; 2; 2; 5]%nat) 4
  = map (@f_of_u8 Q_ops) [1; 2; 2; 5]%nat.
Proof.
  apply (@sortFloatArray_of_sorted Q_ops (map (@f_of_u8 Q_ops) [1; 2; 2; 5]%nat) 4).
  - cbn. lia.
  - repeat constructor.
Defined.

Lemma sortFloatArray_sorts_witness :
  @sortFloatArray Q_ops
    (@sortFloatArray Q_ops (map (@f_of_u8 Q_ops) [4; 1; 3]%nat) 3) 3
  = @sortFloatArray Q_ops (map (@f_of_u8 Q_ops) [4; 1; 3]%nat) 3.
Proof.
  apply (@sortFloatArray_sorts Q_ops Q_order (map (@f_of_u8 Q_ops) [4; 1; 3]%nat) 3).
  cbn. lia.
Defined.

Lemma getFiltered_averages_samples_witness :
  @getFiltered Q_ops Latitude (@gps_reading Q_ops true (@f_of_u8 Q_ops 7))
    (@fed Q_ops (seq 1 7))
  = @getFiltered Q_ops Latitude (@gps_reading Q_ops true (@f_of_u8 Q_ops 9))
      (@fed Q_ops (seq 1 7)).
Proof.
  apply (@getFiltered_averages_samples Q_ops Latitude
           (@gps_reading Q_ops true (@f_of_u8 Q_ops 7))
           (@gps_reading Q_ops true (@f_of_u8 Q_ops 9)) (@fed Q_ops (seq 1 7))).
  - apply fed_ok.
  - vm_compute. lia.
  - reflexivity.
  - reflexivity.
Defined.

Lemma getFiltered_of_collected_samples_witness :
  @getFiltered Q_ops Altitude (@gps_reading Q_ops true (@f_of_u8 Q_ops 0))
    (@fed Q_ops [5; 3; 4]%nat)
  = @mean Q_ops
      (@trim Q_ops 3 (@sortFloatArray Q_ops (map (@f_of_u8 Q_ops) [5; 3; 4]%nat) 3)).
Proof.
  apply (@getFiltered_of_collected_samples Q_ops Altitude
           (map (fun k => @gps_reading Q_ops true (@f_of_u8 Q_ops k)) [5; 3; 4]%nat)
           (@gps_reading Q_ops true (@f_of_u8 Q_ops 0))).
  - repeat constructor.
  - cbn. unfold GPS_FILTER_MIN_READINGS, GPS_FILTER_WINDOW_SIZE. lia.
  - reflexivity.
Defined.

(** * The trimmed mean of the samples *)

Section SortOn.
Context {FO : FloatOps}.
Local Open Scope nat_scope.

Lemma ordered_on_refl (samples : list float) x :
  ordered_on samples -> x ∈ samples -> f_le x x.
Proof.
  intros [Hasym _] Hx. unfold f_le. destruct (f_gt x x) eqn:H; [| reflexivity].
  rewrite (Hasym x x Hx Hx H) in H. discriminate.
Qed.

(** A pass over a whole list brings a greatest element to its end. *)
Lemma bubble_last_on (samples : list float) k :
  ordered_on samples ->
  forall l,
  Forall (fun x => x ∈ samples) l ->
  length l = S k ->
  exists front m, bubble l k = front ++ [m] /\ Forall (fun x => f_le x m) l /\ m ∈ samples.
Proof.
  intros Hord. pose proof Hord as [Hasym Htrans].
  induction k as [|k IH]; intros l Hin Hl.
  - destruct l as [|x [|? ?]]; try discriminate.
    apply Forall_cons in Hin as [Hx _].
    exists [], x. split; [reflexivity |].
    split; [| assumption].
    constructor; [apply (ordered_on_refl samples); assumption | constructor].
  - destruct l as [|x [|y l]]; try discriminate. cbn [bubble].
    apply Forall_cons in Hin as [Hx Hin]. apply Forall_cons in Hin as [Hy Hin].
    destruct (f_gt x y) eqn:Hxy.
    + destruct (IH (x :: l)) as (front & m & Hb & Hm & Hms);
        [constructor; assumption | cbn [length] in *; lia |].
      exists (y :: front), m. rewrite Hb. split; [reflexivity |]. split; [| assumption].
      apply Forall_cons in Hm as [Hxm Hm].
      repeat constructor; try assumption.
      apply (Htrans y x m); try assumption. apply Hasym; assumption.
    + destruct (IH (y :: l)) as (front & m & Hb & Hm & Hms);
        [constructor; assumption | cbn [length] in *; lia |].
      exists (x :: front), m. rewrite Hb. split; [reflexivity |]. split; [| assumption].
      pose proof Hm as Hm'. apply Forall_cons in Hm' as [Hym _].
      constructor; [| assumption].
      apply (Htrans x y m); assumption.
Qed.

(** After [m] passes the last [m] elements are in place, as far as [>]
    orders the values of the array. *)
Lemma outer_loop_invariant_on n arr :
  ordered_on arr ->
  length arr = n ->
  forall m, m <= n - 1 ->
  exists front back,
    fold_left (fun arr i => fold_left swap_if_gt (seq 0 (n - i - 1)) arr) (seq 0 m) arr
    = front ++ back
    /\ length back = m
    /\ StronglySorted f_le back
    /\ Forall (fun x => Forall (f_le x) back) front
    /\ front ++ back ≡ₚ arr.
Proof.
  intros Hord Hn. induction m as [|m IH]; intros Hm.
  - exists arr, []. rewrite app_nil_r. cbn.
    repeat split; try reflexivity; [constructor |].
    apply Forall_forall. intros; constructor.
  - destruct (IH ltac:(lia)) as (front & back & Hrun & Hlen & Hsorted & Hle & Hperm).
    rewrite seq_S, fold_left_app, Hrun. cbn [fold_left Nat.add].
    assert (Hfb : length front + length back = n)
      by (rewrite <- Hn, <- Hperm, length_app; reflexivity).
    pose proof (inner_loop_bubble (n - m - 1) [] (front ++ back)) as Hinner.
    cbn [length app] in Hinner. rewrite Hinner by (rewrite length_app; lia).
    rewrite bubble_app by lia.
    assert (Hfront : Forall (fun x => x ∈ arr) front).
    { apply Forall_forall. intros x Hx. rewrite <- Hperm. apply elem_of_app. left. assumption. }
    destruct (bubble_last_on arr (n - m - 1) Hord front Hfront ltac:(lia))
      as (front' & x & Hb & Hmax & _).
    pose proof (bubble_perm (n - m - 1) front) as Hp. rewrite Hb in Hp.
    exists front', (x :: back). rewrite Hb, <- app_assoc. cbn [app].
    split; [reflexivity |]. split; [cbn [length]; lia |].
    assert (Hx : Forall (f_le x) back).
    { rewrite Forall_forall in Hle. apply Hle. rewrite <- Hp.
      apply elem_of_app. right. apply list_elem_of_singleton. reflexivity. }
    split; [constructor; assumption |]. split.
    + apply Forall_forall. intros y Hy.
      assert (Hyf : y ∈ front) by (rewrite <- Hp; apply elem_of_app; left; assumption).
      constructor.
      * rewrite Forall_forall in Hmax. apply Hmax. assumption.
      * rewrite Forall_forall in Hle. apply Hle. assumption.
    + rewrite <- Hperm, <- Hp, <- app_assoc. reflexivity.
Qed.

(** [sortFloatArray] puts in ascending order an array whose values [>]
    orders. *)
Lemma sortFloatArray_sorted_on arr n :
  ordered_on arr ->
  length arr = n ->
  StronglySorted f_le (sortFloatArray arr n).
Proof.
  intros Hord Hn. unfold sortFloatArray.
  destruct (outer_loop_invariant_on n arr Hord Hn (n - 1) ltac:(lia))
    as (front & back & -> & Hlen & Hsorted & Hle & Hperm).
  assert (Hfb : length front + length back = n)
    by (rewrite <- Hn, <- Hperm, length_app; reflexivity).
  destruct front as [|x [|? ?]]; cbn [length] in Hfb.
  - assumption.
  - cbn [app]. constructor; [assumption |].
    apply Forall_cons in Hle as [Hx _]. assumption.
  - lia.
Qed.

End SortOn.

(** ** The order of binary32 *)

(** In binary32 [>] is asymmetric on all values. *)
Lemma binary32_gt_asym (a b : spec_float) : SFltb b a = true -> SFltb a b = false.
Proof.
  unfold SFltb, SFcompare.
  destruct a as [sa | sa | | sa ma ea], b as [sb | sb | | sb mb eb];
    try destruct sa; try destruct sb; try discriminate; try reflexivity;
    change (Pos.compare_cont Eq mb ma) with (Pos.compare mb ma);
    change (Pos.compare_cont Eq ma mb) with (Pos.compare ma mb);
    rewrite (Z.compare_antisym ea eb), (Pos.compare_antisym ma mb);
    destruct (ea ?= eb)%Z; cbn [CompOpp]; try discriminate; try reflexivity;
    destruct (ma ?= mb)%positive; cbn [CompOpp]; try discriminate; reflexivity.
Qed.

(** "Not greater than" is transitive on the values other than NaN. *)
Lemma binary32_gt_negtrans (a b c : spec_float) :
  is_NaN a = false -> is_NaN b = false -> is_NaN c = false ->
  SFltb b a = false -> SFltb c b = false -> SFltb c a = false.
Proof.
  unfold SFltb, SFcompare, is_NaN.
  destruct a as [sa | sa | | sa ma ea], b as [sb | sb | | sb mb eb],
           c as [sc | sc | | sc mc ec];
    try discriminate;
    try destruct sa; try destruct sb; try destruct sc;
    try discriminate; try reflexivity; intros _ _ _;
    change (Pos.compare_cont Eq mb ma) with (Pos.compare mb ma);
    change (Pos.compare_cont Eq mc mb) with (Pos.compare mc mb);
    change (Pos.compare_cont Eq mc ma) with (Pos.compare mc ma);
    destruct (Z.compare_spec eb ea), (Z.compare_spec ec eb), (Z.compare_spec ec ea);
    try lia; cbn [CompOpp]; try discriminate; try reflexivity;
    destruct (Pos.compare_spec mb ma), (Pos.compare_spec mc mb), (Pos.compare_spec mc ma);
    try lia; cbn [CompOpp]; try discriminate; try reflexivity.
Qed.

(** Hence [>] orders every list of binary32 values without NaN. *)
Lemma binary32_ordered_on (l : list spec_float) :
  Forall (fun x => is_NaN x = false) l -> @ordered_on binary32_ops l.
Proof.
  intros Hl. rewrite Forall_forall in Hl. split.
  - intros a b _ _. apply binary32_gt_asym.
  - intros a b c Ha Hb Hc. apply binary32_gt_negtrans; apply Hl; assumption.
Qed.

(** ** The filtered value *)

(** C4 (trimmed mean), amended by the validity gate of the getters and by
    the condition under which the sort orders the samples.  For every
    channel, with n collected samples, 3 <= n <= 12, and a GPS module that
    reports the channel valid at the call, the getter runs the sort on the n
    live samples and returns the mean of its result without the first and
    the last n / 5 values when n > 5, and the mean of all n when n <= 5; the
    result of the sort holds the same values as the samples, and it is in
    ascending order when [>] orders the samples.  In binary32, the
    arithmetic of the code, [>] orders the samples when none of them is NaN.
    Fed with 1, 2, ..., 12 the getter of every channel returns 6.5, in exact
    arithmetic and in binary32 arithmetic. *)
Theorem getFiltered_trimmed_mean :
  (forall (FO : FloatOps) (ch : channel) (gps : TinyGPSPlus) (st : GpsStabilityFilter),
     filter_ok st ->
     (GPS_FILTER_MIN_READINGS <= totalReadings st)%nat ->
     channel_isValid ch gps = true ->
     let n := totalReadings st in
     let live := take n (readings ch st) in
     let sorted := sortFloatArray live n in
     sorted ≡ₚ live
     /\ getFiltered ch gps st = mean (trim n sorted)
     /\ (ordered_on live -> StronglySorted f_le sorted))
  /\ (forall (ch : channel) (gps : @TinyGPSPlus binary32_ops)
             (st : @GpsStabilityFilter binary32_ops),
        filter_ok st ->
        (GPS_FILTER_MIN_READINGS <= totalReadings st)%nat ->
        channel_isValid ch gps = true ->
        let n := totalReadings st in
        let live := take n (readings ch st) in
        let sorted := @sortFloatArray binary32_ops live n in
        Forall (fun x => is_NaN x = false) live ->
        sorted ≡ₚ live
        /\ StronglySorted (@f_le binary32_ops) sorted
        /\ getFiltered ch gps st = @mean binary32_ops (@trim binary32_ops n sorted))
  /\ (forall ch x,
        QArith_base.Qeq
          (@getFiltered Q_ops ch (@gps_reading Q_ops true x) (@fed Q_ops (seq 1%nat 12%nat)))
          (QArith_base.Qmake 13 2))
  /\ (forall ch x,
        @getFiltered binary32_ops ch (@gps_reading binary32_ops true x)
          (@fed binary32_ops (seq 1%nat 12%nat))
        = binary_round 24 128 false 13 (-1)).
Proof.
  assert (Hgen : forall (FO : FloatOps) (ch : channel) (gps : TinyGPSPlus)
                        (st : GpsStabilityFilter),
             filter_ok st ->
             (GPS_FILTER_MIN_READINGS <= totalReadings st)%nat ->
             channel_isValid ch gps = true ->
             sortFloatArray (take (totalReadings st) (readings ch st)) (totalReadings st)
               ≡ₚ take (totalReadings st) (readings ch st)
             /\ getFiltered ch gps st
                = mean (trim (totalReadings st)
                          (sortFloatArray (take (totalReadings st) (readings ch st))
                             (totalReadings st)))
             /\ (ordered_on (take (totalReadings st) (readings ch st)) ->
                 StronglySorted f_le
                   (sortFloatArray (take (totalReadings st) (readings ch st))
                      (totalReadings st)))).
  { intros FO ch gps st Hok Hmin Hvalid.
    assert (Hlen : length (readings ch st) = GPS_FILTER_WINDOW_SIZE)
      by (destruct Hok as (? & ? & ? & _); destruct ch; assumption).
    assert (Hn : (totalReadings st <= GPS_FILTER_WINDOW_SIZE)%nat) by apply Hok.
    unfold GPS_FILTER_WINDOW_SIZE, GPS_FILTER_MIN_READINGS in *.
    assert (Hlive : length (take (totalReadings st) (readings ch st)) = totalReadings st)
      by (rewrite length_take; lia).
    split; [apply (sortFloatArray_app _ _ [] Hlive) |].
    split.
    - rewrite getFiltered_eq, Hvalid.
      replace (totalReadings st <? GPS_FILTER_MIN_READINGS)%nat with false
        by (symmetry; apply Nat.ltb_ge; assumption).
      cbn [orb negb]. apply trimmed_mean_value. lia.
    - intros Hord. apply sortFloatArray_sorted_on; assumption. }
  split; [| split; [| split]].
  - intros FO ch gps st Hok Hmin Hvalid. cbv zeta. apply Hgen; assumption.
  - intros ch gps st Hok Hmin Hvalid. cbv zeta. intros Hnan.
    destruct (Hgen binary32_ops ch gps st Hok Hmin Hvalid) as (Hperm & Hmean & Hsorted).
    split; [exact Hperm |]. split; [| exact Hmean].
    apply Hsorted, binary32_ordered_on, Hnan.
  - intros ch x. destruct ch; vm_compute; reflexivity.
  - intros ch x. destruct ch; vm_compute; reflexivity.
Qed.

Lemma getFiltered_trimmed_mean_witness :
  Forall (fun x => is_NaN x = false)
    (take 3%nat (@latReadings binary32_ops (@fed binary32_ops [3; 1; 2]%nat)))
  /\ @sortFloatArray binary32_ops
       (take 3%nat (@latReadings binary32_ops (@fed binary32_ops [3; 1; 2]%nat))) 3%nat
     = map binary32_of_nat [1; 2; 3]%nat
  /\ StronglySorted (@f_le binary32_ops)
       (@sortFloatArray binary32_ops
          (take 3%nat (@latReadings binary32_ops (@fed binary32_ops [3; 1; 2]%nat))) 3%nat)
  /\ @getFiltered binary32_ops Latitude
       (@gps_reading binary32_ops true (binary32_of_nat 7))
       (@fed binary32_ops [3; 1; 2]%nat)
     = @mean binary32_ops
         (@trim binary32_ops 3%nat
            (@sortFloatArray binary32_ops
               (take 3%nat (@latReadings binary32_ops (@fed binary32_ops [3; 1; 2]%nat)))
               3%nat)).
Proof.
  assert (Hnan : Forall (fun x => is_NaN x = false)
                   (take 3%nat (@latReadings binary32_ops (@fed binary32_ops [3; 1; 2]%nat))))
    by (vm_compute; repeat constructor).
  split; [exact Hnan |]. split; [vm_compute; reflexivity |].
  apply (proj1 (proj2 getFiltered_trimmed_mean) Latitude
           (@gps_reading binary32_ops true (binary32_of_nat 7))
           (@fed binary32_ops [3; 1; 2]%nat)).
  - apply fed_ok.
  - vm_compute. lia.
  - reflexivity.
  - exact Hnan.
Defined.

(** What the condition on the samples excludes: with a NaN among them the
    sort can leave a greater value before a smaller one.  On 3, NaN, 1 no
    comparison is true, nothing is swapped, and 3 stays before 1. *)
Lemma sortFloatArray_NaN_not_ascending :
  @sortFloatArray binary32_ops [binary32_of_nat 3; S754_nan; binary32_of_nat 1] 3%nat
  = [binary32_of_nat 3; S754_nan; binary32_of_nat 1]
  /\ @f_gt binary32_ops (binary32_of_nat 3) (binary32_of_nat 1) = true
  /\ ~ StronglySorted (@f_le binary32_ops)
        (@sortFloatArray binary32_ops [binary32_of_nat 3; S754_nan; binary32_of_nat 1] 3%nat).
Proof.
  split; [vm_compute; reflexivity |]. split; [vm_compute; reflexivity |].
  intros H. apply StronglySorted_inv in H as [_ H].
  apply Forall_cons in H as [_ H]. apply Forall_cons in H as [H _].
  vm_compute in H. discriminate.
Qed.

(** * The sketch's own cells *)

Lemma EEPROM_read_put32 e a v b :
  EEPROM_read (EEPROM_put32 e a v) b
  = if b =? a + 3 then u8 (v / 16777216)
    else if b =? a + 2 then u8 (v / 65536)
    else if b =? a + 1 then u8 (v / 256)
    else if b =? a + 0 then u8 v
    else EEPROM_read e b.
Proof.
  unfold EEPROM_put32. rewrite upto_4. cbn [fold_left].
  rewrite !EEPROM_read_write. unfold bytes_of_u32.
  change (Z.to_nat 0) with 0%nat. change (Z.to_nat 1) with 1%nat.
  change (Z.to_nat 2) with 2%nat. change (Z.to_nat 3) with 3%nat.
  cbn [nth]. rewrite !u8_u8. reflexivity.
Qed.

Lemma EEPROM_read_put32_outside e a v b :
  b < a \/ a + 4 <= b -> EEPROM_read (EEPROM_put32 e a v) b = EEPROM_read e b.
Proof.
  intros H. rewrite EEPROM_read_put32.
  destruct (Z.eqb_spec b (a + 3)); [lia |]. destruct (Z.eqb_spec b (a + 2)); [lia |].
  destruct (Z.eqb_spec b (a + 1)); [lia |]. destruct (Z.eqb_spec b (a + 0)); [lia |].
  reflexivity.
Qed.

Lemma EEPROM_get32_range e a : 0 <= EEPROM_get32 e a < 4294967296.
Proof.
  unfold EEPROM_get32, u32_of_bytes. rewrite upto_4. cbn [map nth].
  pose proof (EEPROM_read_range e (a + 0)). pose proof (EEPROM_read_range e (a + 1)).
  pose proof (EEPROM_read_range e (a + 2)). pose proof (EEPROM_read_range e (a + 3)).
  lia.
Qed.

Lemma EEPROM_get32_ext e e' a :
  (forall b, a <= b < a + 4 -> EEPROM_read e b = EEPROM_read e' b) ->
  EEPROM_get32 e a = EEPROM_get32 e' a.
Proof.
  intros H. unfold EEPROM_get32. rewrite upto_4. cbn [map].
  rewrite !H by lia. reflexivity.
Qed.

Lemma EEPROM_get32_put32 e a v :
  0 <= v < 4294967296 -> EEPROM_get32 (EEPROM_put32 e a v) a = v.
Proof.
  intros Hv. unfold EEPROM_get32. rewrite upto_4. cbn [map].
  rewrite !EEPROM_read_put32.
  repeat match goal with
    | |- context [?x =? ?y] => destruct (Z.eqb_spec x y); [lia || idtac | try lia]
    end.
  unfold u32_of_bytes. cbn [nth].
  unfold u8. Z.div_mod_to_equations. lia.
Qed.

Lemma toggleTimeFormat_read s b :
  EEPROM_read (eeprom (toggleTimeFormat s)) b
  = if b =? EEPROM_TIME_FORMAT_ADDR
    then (if EEPROM_read (eeprom s) EEPROM_TIME_FORMAT_ADDR =? 0 then 1 else 0)
    else EEPROM_read (eeprom s) b.
Proof.
  unfold toggleTimeFormat. cbn [eeprom]. rewrite EEPROM_read_write.
  destruct (b =? EEPROM_TIME_FORMAT_ADDR); [| reflexivity].
  rewrite negb_involutive.
  destruct (EEPROM_read (eeprom s) EEPROM_TIME_FORMAT_ADDR =? 0); reflexivity.
Qed.

Lemma toggleTimeFormat_flag s :
  is24Hour (toggleTimeFormat s) = (EEPROM_read (eeprom s) EEPROM_TIME_FORMAT_ADDR =? 0).
Proof. unfold toggleTimeFormat. cbn [is24Hour]. apply negb_involutive. Qed.

Lemma toggleTimeFormat_scrolled s :
  scrolled (toggleTimeFormat s)
  = scrolled s ++ [if EEPROM_read (eeprom s) EEPROM_TIME_FORMAT_ADDR =? 0
                   then FORMAT_24H_MESSAGE else FORMAT_12H_MESSAGE].
Proof. unfold toggleTimeFormat. cbn [scrolled]. rewrite negb_involutive. reflexivity. Qed.

Lemma toggleTimeFormat_counter s :
  EEPROM_get32 (eeprom (toggleTimeFormat s)) EEPROM_POWER_CYCLE_ADDR
  = EEPROM_get32 (eeprom s) EEPROM_POWER_CYCLE_ADDR.
Proof.
  apply EEPROM_get32_ext. intros b Hb. rewrite toggleTimeFormat_read.
  unfold EEPROM_POWER_CYCLE_ADDR, EEPROM_TIME_FORMAT_ADDR in *.
  destruct (Z.eqb_spec b 0); [lia | reflexivity].
Qed.

Lemma checkPowerCycles_counter s :
  EEPROM_get32 (eeprom (checkPowerCycles s)) EEPROM_POWER_CYCLE_ADDR
  = u32 (EEPROM_get32 (eeprom s) EEPROM_POWER_CYCLE_ADDR + 1).
Proof.
  unfold checkPowerCycles. cbv zeta.
  set (count := u32 (EEPROM_get32 (eeprom s) EEPROM_POWER_CYCLE_ADDR + 1)).
  assert (Hc : 0 <= count < 4294967296) by (apply Z.mod_pos_bound; lia).
  destruct (count >? POWER_CYCLE_THRESHOLD).
  - rewrite toggleTimeFormat_counter. cbn [eeprom]. apply EEPROM_get32_put32, Hc.
  - cbn [eeprom]. apply EEPROM_get32_put32, Hc.
Qed.

Lemma checkPowerCycles_read s b :
  EEPROM_read (eeprom (checkPowerCycles s)) b
  = if (b =? EEPROM_TIME_FORMAT_ADDR)
       && (u32 (EEPROM_get32 (eeprom s) EEPROM_POWER_CYCLE_ADDR + 1) >? POWER_CYCLE_THRESHOLD)
    then (if EEPROM_read (eeprom s) EEPROM_TIME_FORMAT_ADDR =? 0 then 1 else 0)
    else EEPROM_read
           (EEPROM_put32 (eeprom s) EEPROM_POWER_CYCLE_ADDR
              (u32 (EEPROM_get32 (eeprom s) EEPROM_POWER_CYCLE_ADDR + 1))) b.
Proof.
  unfold checkPowerCycles. cbv zeta.
  set (count := u32 (EEPROM_get32 (eeprom s) EEPROM_POWER_CYCLE_ADDR + 1)).
  destruct (count >? POWER_CYCLE_THRESHOLD).
  - rewrite toggleTimeFormat_read. cbn [eeprom].
    destruct (Z.eqb_spec b EEPROM_TIME_FORMAT_ADDR) as [-> | Hb]; [| reflexivity].
    cbn [andb]. rewrite EEPROM_read_put32_outside; [reflexivity |].
    unfold EEPROM_TIME_FORMAT_ADDR, EEPROM_POWER_CYCLE_ADDR. lia.
  - rewrite andb_false_r. reflexivity.
Qed.

Lemma checkPowerCycles_format s :
  EEPROM_read (eeprom (checkPowerCycles s)) EEPROM_TIME_FORMAT_ADDR
  = if u32 (EEPROM_get32 (eeprom s) EEPROM_POWER_CYCLE_ADDR + 1) >? POWER_CYCLE_THRESHOLD
    then (if EEPROM_read (eeprom s) EEPROM_TIME_FORMAT_ADDR =? 0 then 1 else 0)
    else EEPROM_read (eeprom s) EEPROM_TIME_FORMAT_ADDR.
Proof.
  rewrite checkPowerCycles_read. rewrite Z.eqb_refl. cbn [andb].
  destruct (_ >? _); [reflexivity |].
  apply EEPROM_read_put32_outside.
  unfold EEPROM_TIME_FORMAT_ADDR, EEPROM_POWER_CYCLE_ADDR. lia.
Qed.

Lemma checkPowerCycles_outside s b :
  b < 0 \/ 5 <= b ->
  EEPROM_read (eeprom (checkPowerCycles s)) b = EEPROM_read (eeprom s) b.
Proof.
  intros Hb. rewrite checkPowerCycles_read.
  destruct (Z.eqb_spec b EEPROM_TIME_FORMAT_ADDR) as [-> | _];
    [unfold EEPROM_TIME_FORMAT_ADDR in Hb; lia |].
  cbn [andb]. apply EEPROM_read_put32_outside. unfold EEPROM_POWER_CYCLE_ADDR. lia.
Qed.

Lemma checkPowerCycles_flag s :
  is24Hour (checkPowerCycles s)
  = if u32 (EEPROM_get32 (eeprom s) EEPROM_POWER_CYCLE_ADDR + 1) >? POWER_CYCLE_THRESHOLD
    then EEPROM_read (eeprom s) EEPROM_TIME_FORMAT_ADDR =? 0
    else is24Hour s.
Proof.
  unfold checkPowerCycles. cbv zeta.
  destruct (_ >? _); [| reflexivity].
  rewrite toggleTimeFormat_flag. cbn [eeprom].
  rewrite EEPROM_read_put32_outside; [reflexivity |].
  unfold EEPROM_TIME_FORMAT_ADDR, EEPROM_POWER_CYCLE_ADDR. lia.
Qed.

Lemma checkPowerCycles_scrolled s :
  scrolled (checkPowerCycles s)
  = if u32 (EEPROM_get32 (eeprom s) EEPROM_POWER_CYCLE_ADDR + 1) >? POWER_CYCLE_THRESHOLD
    then scrolled s ++ [if EEPROM_read (eeprom s) EEPROM_TIME_FORMAT_ADDR =? 0
                        then FORMAT_24H_MESSAGE else FORMAT_12H_MESSAGE]
    else scrolled s.
Proof.
  unfold checkPowerCycles. cbv zeta.
  destruct (_ >? _); [| reflexivity].
  rewrite toggleTimeFormat_scrolled. cbn [eeprom scrolled].
  rewrite EEPROM_read_put32_outside; [reflexivity |].
  unfold EEPROM_TIME_FORMAT_ADDR, EEPROM_POWER_CYCLE_ADDR. lia.
Qed.

(** [checkPowerCycles].  The counter cell afterwards holds the old count plus
    one, modulo 2^32, so a count of 0xFFFFFFFF (an erased device) becomes 0.
    No cell outside addresses 0 .. 4 changes.  While the new count is at
    most 5 the format cell, the cached format and the display are left
    alone; once it is above 5 the format is toggled on this call, and on
    every later call for which the counter has not been reset. *)
Theorem checkPowerCycles_effect (s : sketch) :
  let count := u32 (EEPROM_get32 (eeprom s) EEPROM_POWER_CYCLE_ADDR + 1) in
  let format := EEPROM_read (eeprom s) EEPROM_TIME_FORMAT_ADDR in
  let s' := checkPowerCycles s in
  EEPROM_get32 (eeprom s') EEPROM_POWER_CYCLE_ADDR = count
  /\ (EEPROM_get32 (eeprom s) EEPROM_POWER_CYCLE_ADDR = 4294967295 -> count = 0)
  /\ (forall addr, addr < 0 \/ 5 <= addr ->
        EEPROM_read (eeprom s') addr = EEPROM_read (eeprom s) addr)
  /\ (count <= POWER_CYCLE_THRESHOLD ->
        EEPROM_read (eeprom s') EEPROM_TIME_FORMAT_ADDR = format
        /\ is24Hour s' = is24Hour s
        /\ scrolled s' = scrolled s)
  /\ (POWER_CYCLE_THRESHOLD < count ->
        EEPROM_read (eeprom s') EEPROM_TIME_FORMAT_ADDR = (if format =? 0 then 1 else 0)
        /\ is24Hour s' = (format =? 0)
        /\ scrolled s'
           = scrolled s ++ [if format =? 0 then FORMAT_24H_MESSAGE else FORMAT_12H_MESSAGE]).
Proof.
  cbv zeta. split; [apply checkPowerCycles_counter |].
  split; [intros ->; reflexivity |].
  split; [intros addr Haddr; apply checkPowerCycles_outside, Haddr |].
  rewrite checkPowerCycles_format, checkPowerCycles_flag, checkPowerCycles_scrolled.
  rewrite Z.gtb_ltb.
  split; intros Hc;
    destruct (Z.ltb_spec POWER_CYCLE_THRESHOLD
                (u32 (EEPROM_get32 (eeprom s) EEPROM_POWER_CYCLE_ADDR + 1)));
    try lia; repeat split.
Qed.

(** [toggleTimeFormat].  The format cell afterwards holds 0 or 1 and the
    cached format agrees with it.  The cached format, as [setup] loads it,
    is inverted exactly when the cell held 0 or 1: a cell with any other
    value (255 on an erased device) counts as 12-hour in [setup] and as
    24-hour here, so the toggle leaves the clock in 12-hour format and stores
    0.  Two toggles in a row store 0 for a cell that held 0 and 1 for any
    other value.  The counter cell is not touched. *)
Theorem toggleTimeFormat_effect (s : sketch) :
  let format := EEPROM_read (eeprom s) EEPROM_TIME_FORMAT_ADDR in
  let s' := toggleTimeFormat s in
  let format' := EEPROM_read (eeprom s') EEPROM_TIME_FORMAT_ADDR in
  (format' = 0 \/ format' = 1)
  /\ is24Hour s' = (format' =? 1)
  /\ (is24Hour s = (format =? 1) ->
        (is24Hour s' = negb (is24Hour s) <-> format = 0 \/ format = 1)
        /\ (format <> 0 -> format <> 1 -> is24Hour s' = false /\ format' = 0))
  /\ EEPROM_read (eeprom (toggleTimeFormat s')) EEPROM_TIME_FORMAT_ADDR
     = (if format =? 0 then 0 else 1)
  /\ EEPROM_get32 (eeprom s') EEPROM_POWER_CYCLE_ADDR
     = EEPROM_get32 (eeprom s) EEPROM_POWER_CYCLE_ADDR.
Proof.
  cbv zeta. rewrite !toggleTimeFormat_read, toggleTimeFormat_flag, Z.eqb_refl.
  split; [destruct (_ =? 0); auto |].
  split; [destruct (_ =? 0); reflexivity |].
  split.
  - intros ->.
    destruct (Z.eqb_spec (EEPROM_read (eeprom s) EEPROM_TIME_FORMAT_ADDR) 0) as [E0 | E0];
      destruct (Z.eqb_spec (EEPROM_read (eeprom s) EEPROM_TIME_FORMAT_ADDR) 1) as [E1 | E1];
      cbn [negb].
    + lia.
    + split; [split; auto | intros; contradiction].
    + split; [split; auto | intros; contradiction].
    + split; [split; [discriminate | intros [? | ?]; contradiction] | auto].
  - split; [| apply toggleTimeFormat_counter].
    destruct (Z.eqb_spec (EEPROM_read (eeprom s) EEPROM_TIME_FORMAT_ADDR) 0); reflexivity.
Qed.

Lemma toggled_step b t :
  0 <= t -> (if toggled b t =? 0 then 1 else 0) = toggled b (t + 1).
Proof.
  intros Ht. unfold toggled.
  destruct (Z.eqb_spec (t + 1) 0); [lia |].
  rewrite Z.add_1_r, Z.odd_succ, <- Z.negb_odd.
  destruct (Z.eqb_spec t 0) as [-> | _]; [reflexivity |].
  destruct (Z.odd t); cbn [negb]; destruct (Z.eqb_spec b 0); reflexivity.
Qed.

Lemma setup_begin_counter e :
  EEPROM_get32 (eeprom (setup_begin e)) EEPROM_POWER_CYCLE_ADDR
  = u32 (EEPROM_get32 e EEPROM_POWER_CYCLE_ADDR + 1).
Proof. unfold setup_begin. cbv zeta. rewrite checkPowerCycles_counter. reflexivity. Qed.

Lemma setup_begin_format e :
  EEPROM_read (eeprom (setup_begin e)) EEPROM_TIME_FORMAT_ADDR
  = if u32 (EEPROM_get32 e EEPROM_POWER_CYCLE_ADDR + 1) >? POWER_CYCLE_THRESHOLD
    then (if EEPROM_read e EEPROM_TIME_FORMAT_ADDR =? 0 then 1 else 0)
    else EEPROM_read e EEPROM_TIME_FORMAT_ADDR.
Proof. unfold setup_begin. cbv zeta. rewrite checkPowerCycles_format. reflexivity. Qed.

Lemma setup_begin_flag e :
  is24Hour (setup_begin e)
  = (EEPROM_read (eeprom (setup_begin e)) EEPROM_TIME_FORMAT_ADDR =? 1).
Proof.
  rewrite setup_begin_format. unfold setup_begin. cbv zeta.
  rewrite checkPowerCycles_flag. cbn [eeprom is24Hour].
  destruct (_ >? _); [| reflexivity].
  destruct (EEPROM_read e EEPROM_TIME_FORMAT_ADDR =? 0); reflexivity.
Qed.

Lemma setup_begin_outside e b :
  b < 0 \/ 5 <= b -> EEPROM_read (eeprom (setup_begin e)) b = EEPROM_read e b.
Proof. intros Hb. unfold setup_begin. cbv zeta. rewrite checkPowerCycles_outside; auto. Qed.

Lemma interrupted_boots_cells n : forall e,
  EEPROM_get32 e EEPROM_POWER_CYCLE_ADDR + Z.of_nat n < 4294967296 ->
  EEPROM_get32 (interrupted_boots n e) EEPROM_POWER_CYCLE_ADDR
  = EEPROM_get32 e EEPROM_POWER_CYCLE_ADDR + Z.of_nat n
  /\ EEPROM_read (interrupted_boots n e) EEPROM_TIME_FORMAT_ADDR
     = toggled (EEPROM_read e EEPROM_TIME_FORMAT_ADDR)
         (Z.max 0 (EEPROM_get32 e EEPROM_POWER_CYCLE_ADDR + Z.of_nat n - POWER_CYCLE_THRESHOLD)
          - Z.max 0 (EEPROM_get32 e EEPROM_POWER_CYCLE_ADDR - POWER_CYCLE_THRESHOLD)).
Proof.
  induction n as [| n IH]; intros e Hn.
  - cbn [interrupted_boots Nat.iter nat_rect Z.of_nat]. rewrite !Z.add_0_r, Z.sub_diag.
    split; reflexivity.
  - pose proof (EEPROM_get32_range e EEPROM_POWER_CYCLE_ADDR) as Hc.
    destruct (IH e ltac:(lia)) as [IHc IHf].
    change (interrupted_boots (S n) e) with (eeprom (setup_begin (interrupted_boots n e))).
    rewrite setup_begin_counter, setup_begin_format, IHc, IHf.
    set (c := EEPROM_get32 e EEPROM_POWER_CYCLE_ADDR) in *.
    assert (Hu : u32 (c + Z.of_nat n + 1) = c + Z.of_nat (S n))
      by (unfold u32; rewrite Z.mod_small by lia; lia).
    rewrite Hu. split; [reflexivity |].
    unfold POWER_CYCLE_THRESHOLD. rewrite Z.gtb_ltb.
    destruct (Z.ltb_spec 5 (c + Z.of_nat (S n))) as [Hgt | Hle].
    + rewrite toggled_step by lia. f_equal. lia.
    + f_equal. lia.
Qed.

Lemma setup_counter e : EEPROM_get32 (eeprom (setup e)) EEPROM_POWER_CYCLE_ADDR = 0.
Proof. unfold setup, setup_end. cbn [eeprom]. apply EEPROM_get32_put32. lia. Qed.

Lemma setup_format e :
  EEPROM_read (eeprom (setup e)) EEPROM_TIME_FORMAT_ADDR
  = EEPROM_read (eeprom (setup_begin e)) EEPROM_TIME_FORMAT_ADDR.
Proof.
  unfold setup, setup_end. cbn [eeprom]. apply EEPROM_read_put32_outside.
  unfold EEPROM_TIME_FORMAT_ADDR, EEPROM_POWER_CYCLE_ADDR. lia.
Qed.

Lemma setup_flag e :
  is24Hour (setup e) = (EEPROM_read (eeprom (setup e)) EEPROM_TIME_FORMAT_ADDR =? 1).
Proof. rewrite setup_format, <- setup_begin_flag. reflexivity. Qed.

Lemma setup_outside e b :
  b < 0 \/ 5 <= b -> EEPROM_read (eeprom (setup e)) b = EEPROM_read e b.
Proof.
  intros Hb. unfold setup, setup_end. cbn [eeprom].
  rewrite EEPROM_read_put32_outside by (unfold EEPROM_POWER_CYCLE_ADDR; lia).
  apply setup_begin_outside, Hb.
Qed.

(** Power cycles in a row.  A device whose counter cell reads 0 (as every
    completed [setup] leaves it) goes through [n] power cycles that are cut
    during the startup animation.  The counter then reads [n], and the format
    cell has been toggled once for every cycle after the fifth: it is
    untouched up to five cycles, and with six or more it depends on the
    parity of [n - 5].  A [setup] that runs to its end after these cycles
    counts as one more cycle and leaves the counter at 0. *)
Theorem interrupted_boots_schedule (e : EEPROM) (n : nat) :
  EEPROM_get32 e EEPROM_POWER_CYCLE_ADDR = 0 ->
  Z.of_nat n < 4294967295 ->
  let format := EEPROM_read e EEPROM_TIME_FORMAT_ADDR in
  let e' := interrupted_boots n e in
  EEPROM_get32 e' EEPROM_POWER_CYCLE_ADDR = Z.of_nat n
  /\ EEPROM_read e' EEPROM_TIME_FORMAT_ADDR = toggled format (Z.max 0 (Z.of_nat n - 5))
  /\ (Z.of_nat n <= 5 -> EEPROM_read e' EEPROM_TIME_FORMAT_ADDR = format)
  /\ EEPROM_read (eeprom (setup e')) EEPROM_TIME_FORMAT_ADDR
     = toggled format (Z.max 0 (Z.of_nat n + 1 - 5))
  /\ is24Hour (setup e') = (toggled format (Z.max 0 (Z.of_nat n + 1 - 5)) =? 1)
  /\ EEPROM_get32 (eeprom (setup e')) EEPROM_POWER_CYCLE_ADDR = 0.
Proof.
  intros H0 Hn. cbv zeta.
  destruct (interrupted_boots_cells n e ltac:(lia)) as [Hc Hf].
  destruct (interrupted_boots_cells (S n) e ltac:(lia)) as [_ Hf'].
  rewrite H0 in Hc, Hf, Hf'. unfold POWER_CYCLE_THRESHOLD in Hf, Hf'.
  replace (Z.max 0 (0 + Z.of_nat n - 5) - Z.max 0 (0 - 5)) with (Z.max 0 (Z.of_nat n - 5))
    in Hf by lia.
  replace (Z.max 0 (0 + Z.of_nat (S n) - 5) - Z.max 0 (0 - 5))
    with (Z.max 0 (Z.of_nat n + 1 - 5)) in Hf' by lia.
  change (interrupted_boots (S n) e) with (eeprom (setup_begin (interrupted_boots n e))) in Hf'.
  split; [rewrite Hc; lia |]. split; [exact Hf |].
  split.
  { intros Hle. rewrite Hf. replace (Z.max 0 (Z.of_nat n - 5)) with 0 by lia. reflexivity. }
  rewrite setup_flag, setup_format, Hf'.
  split; [reflexivity |]. split; [reflexivity |]. apply setup_counter.
Qed.

Lemma interrupted_boots_schedule_witness :
  EEPROM_read (interrupted_boots 6 (EEPROM_put32 erased EEPROM_POWER_CYCLE_ADDR 0))
    EEPROM_TIME_FORMAT_ADDR
  = toggled (EEPROM_read (EEPROM_put32 erased EEPROM_POWER_CYCLE_ADDR 0)
               EEPROM_TIME_FORMAT_ADDR) (Z.max 0 (Z.of_nat 6 - 5)).
Proof.
  apply (interrupted_boots_schedule (EEPROM_put32 erased EEPROM_POWER_CYCLE_ADDR 0) 6).
  - vm_compute. reflexivity.
  - vm_compute. reflexivity.
Defined.

(** A completed [setup].  Whatever the device holds, after [setup] the
    counter cell reads 0, the cached format is the one the next [setup] will
    load from the format cell, the welcome message is the last text shown, no
    cell outside addresses 0 .. 4 has changed, and a second completed [setup]
    on the device as the first one left it toggles nothing. *)
Theorem setup_postcondition (e : EEPROM) :
  let s := setup e in
  EEPROM_get32 (eeprom s) EEPROM_POWER_CYCLE_ADDR = 0
  /\ is24Hour s = (EEPROM_read (eeprom s) EEPROM_TIME_FORMAT_ADDR =? 1)
  /\ last (scrolled s) = Some WELCOME_MESSAGE
  /\ (forall addr, addr < 0 \/ 5 <= addr ->
        EEPROM_read (eeprom s) addr = EEPROM_read e addr)
  /\ EEPROM_read (eeprom (setup (eeprom s))) EEPROM_TIME_FORMAT_ADDR
     = EEPROM_read (eeprom s) EEPROM_TIME_FORMAT_ADDR
  /\ is24Hour (setup (eeprom s)) = is24Hour s
  /\ scrolled (setup (eeprom s)) = [WELCOME_MESSAGE].
Proof.
  cbv zeta.
  split; [apply setup_counter |]. split; [apply setup_flag |].
  split; [unfold setup, setup_end; cbn [scrolled]; apply last_snoc |].
  split; [intros addr Haddr; apply setup_outside, Haddr |].
  assert (Hno : (u32 (EEPROM_get32 (eeprom (setup e)) EEPROM_POWER_CYCLE_ADDR + 1)
                 >? POWER_CYCLE_THRESHOLD) = false) by (rewrite setup_counter; reflexivity).
  assert (Hf : EEPROM_read (eeprom (setup (eeprom (setup e)))) EEPROM_TIME_FORMAT_ADDR
               = EEPROM_read (eeprom (setup e)) EEPROM_TIME_FORMAT_ADDR)
    by (rewrite setup_format, setup_begin_format, Hno; reflexivity).
  split; [exact Hf |].
  split; [rewrite !setup_flag, Hf; reflexivity |].
  unfold setup at 1. unfold setup_end. cbn [scrolled]. unfold setup_begin. cbv zeta.
  rewrite checkPowerCycles_scrolled. cbn [eeprom scrolled]. rewrite Hno. reflexivity.
Qed.

Lemma interrupted_boots_outside n e b :
  b < 0 \/ 5 <= b -> EEPROM_read (interrupted_boots n e) b = EEPROM_read e b.
Proof.
  intros Hb. induction n as [| n IH]; [reflexivity |].
  change (interrupted_boots (S n) e) with (eeprom (setup_begin (interrupted_boots n e))).
  rewrite setup_begin_outside by assumption. exact IH.
Qed.

Lemma same_view_of_cells dataType e e' w :
  (forall addr, in_region dataType addr -> EEPROM_read e addr = EEPROM_read e' addr) ->
  same_view dataType (e, w) (e', w).
Proof.
  intros H. split; [| split; reflexivity].
  intros slot Hs. cbn [fst].
  pose proof (slotSize_eq dataType) as [Hsize Hdata].
  split.
  - unfold readSlotSequence. rewrite (slot_in_range _ Hs). cbv zeta. unfold EEPROM_get16.
    rewrite !H; [reflexivity | |]; apply (in_region_slot _ slot); try assumption; lia.
  - unfold slot_payload. apply map_ext_in. intros i Hi. apply In_upto in Hi.
    apply H. apply (in_region_slot _ slot); [assumption |].
    unfold WL_SEQUENCE_SIZE. lia.
Qed.

Lemma begin_same_view dataType e e' w :
  same_view dataType (e, w) (e', w) ->
  get2 (currentSlot (begin e w)) dataType = get2 (currentSlot (begin e' w)) dataType
  /\ get2 (nextSequence (begin e w)) dataType = get2 (nextSequence (begin e' w)) dataType.
Proof.
  intros (Hslots & _ & _). cbn [fst] in Hslots.
  destruct (begin_members e w dataType) as [-> ->].
  destruct (begin_members e' w dataType) as [-> ->].
  assert (Hfind : findLatestSlot e dataType = findLatestSlot e' dataType)
    by (apply findLatestSlot_ext; intros slot Hs; apply Hslots; assumption).
  rewrite Hfind. split; [reflexivity |]. cbv zeta.
  rewrite (proj1 (Hslots (findLatestSlot e' dataType)
                    (proj1 (findLatestSlot_result e' dataType)))).
  reflexivity.
Qed.

Lemma do_write_below_regions s op addr :
  addr < WL_TIME_FORMAT_START_ADDR ->
  EEPROM_read (fst (do_write s op)) addr = EEPROM_read (fst s) addr.
Proof.
  intros Ha. destruct (do_write_cases s op) as [-> | ->]; [reflexivity |].
  destruct s as [e w]. cbn [rotate_write fst].
  set (t := (get2 (currentSlot w) (write_type op) + 1) mod WL_NUM_SLOTS).
  assert (Ht : 0 <= t < WL_NUM_SLOTS) by (apply Z.mod_pos_bound; reflexivity).
  apply EEPROM_read_writeSlot_outside; [assumption |].
  left. rewrite getSlotAddress_eq by assumption.
  destruct (write_type op); config; lia.
Qed.

Lemma run_writes_below_regions ops : forall s addr,
  addr < WL_TIME_FORMAT_START_ADDR ->
  EEPROM_read (fst (run_writes ops s)) addr = EEPROM_read (fst s) addr.
Proof.
  induction ops as [| op ops IH]; intros s addr Ha; [reflexivity |].
  change (run_writes (op :: ops) s) with (run_writes ops (do_write s op)).
  rewrite IH by assumption. apply do_write_below_regions, Ha.
Qed.

(** The sketch's cells and the wear-levelled store keep apart.  A [setup],
    or any number of power cycles cut during it, changes nothing that the
    wear-levelled store can see: its readers return what they returned
    before and [begin] selects the same slot and sequence number.  In the
    other direction, no history of write requests to the store changes the
    sketch's counter or its format cell. *)
Theorem sketch_cells_apart_from_store (e : EEPROM) (dataType : WLDataType)
    (w : EEPROMWearLeveling) (n : nat) (ops : list wl_write) :
  (forall e', e' = eeprom (setup e) \/ e' = interrupted_boots n e ->
     read_back dataType e' = read_back dataType e
     /\ get2 (currentSlot (begin e' w)) dataType = get2 (currentSlot (begin e w)) dataType
     /\ get2 (nextSequence (begin e' w)) dataType
        = get2 (nextSequence (begin e w)) dataType)
  /\ EEPROM_get32 (fst (run_writes ops (e, w))) EEPROM_POWER_CYCLE_ADDR
     = EEPROM_get32 e EEPROM_POWER_CYCLE_ADDR
  /\ EEPROM_read (fst (run_writes ops (e, w))) EEPROM_TIME_FORMAT_ADDR
     = EEPROM_read e EEPROM_TIME_FORMAT_ADDR.
Proof.
  split.
  - intros e' He'.
    assert (Hv : same_view dataType (e', w) (e, w)).
    { apply same_view_of_cells. intros addr Hr.
      assert (Haddr : addr < 0 \/ 5 <= addr)
        by (right; unfold in_region in Hr; destruct dataType; config; lia).
      destruct He' as [-> | ->];
        [apply setup_outside | apply interrupted_boots_outside]; exact Haddr. }
    split; [apply (read_back_same_view dataType (e', w) (e, w) Hv) |].
    apply begin_same_view, Hv.
  - split.
    + apply EEPROM_get32_ext. intros b Hb.
      apply (run_writes_below_regions ops (e, w)).
      unfold EEPROM_POWER_CYCLE_ADDR in Hb. unfold WL_TIME_FORMAT_START_ADDR. lia.
    + apply (run_writes_below_regions ops (e, w)). reflexivity.
Qed.

(** * Date and time helpers *)

(** [getOrdinalSuffix].  A number that is zero or negative gets "th", since
    the remainders of C are then zero or negative.  From 0 on the suffix has
    period 100 (as far as [number + 100] is still an [int]).  For the days of
    a month, 1 .. 31, the suffix is "st" for 1,
    21 and 31, "nd" for 2 and 22, "rd" for 3 and 23, and "th" for every other
    day. *)
Theorem getOrdinalSuffix_table (number : Z) :
  (number <= 0 -> getOrdinalSuffix number = "th")
  /\ (0 <= number -> getOrdinalSuffix (number + 100) = getOrdinalSuffix number)
  /\ (1 <= number <= 31 ->
        (getOrdinalSuffix number = "st" <-> number = 1 \/ number = 21 \/ number = 31)
        /\ (getOrdinalSuffix number = "nd" <-> number = 2 \/ number = 22)
        /\ (getOrdinalSuffix number = "rd" <-> number = 3 \/ number = 23)
        /\ (getOrdinalSuffix number = "th" <->
              4 <= number <= 20 \/ 24 <= number <= 30)).
Proof.
  split; [| split].
  - intros Hn. unfold getOrdinalSuffix. cbv zeta.
    pose proof (Z.rem_nonpos number 100 ltac:(lia) Hn) as H100.
    pose proof (Z.rem_nonpos number 10 ltac:(lia) Hn) as H10.
    rewrite Z.geb_leb.
    destruct (Z.leb_spec 11 (Z.rem number 100)); [lia |]. cbn [andb].
    destruct (Z.eqb_spec (Z.rem number 10) 1); [lia |].
    destruct (Z.eqb_spec (Z.rem number 10) 2); [lia |].
    destruct (Z.eqb_spec (Z.rem number 10) 3); [lia |].
    reflexivity.
  - intros Hn. unfold getOrdinalSuffix. cbv zeta.
    rewrite !Z.rem_mod_nonneg by lia.
    replace ((number + 100) mod 100) with (number mod 100)
      by (Z.div_mod_to_equations; lia).
    replace ((number + 100) mod 10) with (number mod 10)
      by (Z.div_mod_to_equations; lia).
    reflexivity.
  - intros Hn.
    assert (Hcases : Exists (eq number) (map Z.of_nat (seq 1 31))).
    { apply Exists_exists. exists number. split; [| reflexivity].
      apply list_elem_of_In, in_map_iff. exists (Z.to_nat number).
      split; [lia |]. apply in_seq. lia. }
    vm_compute in Hcases.
    repeat (apply Exists_cons in Hcases as [-> | Hcases];
            [match goal with
             | |- context [getOrdinalSuffix ?k] =>
                 let v := eval vm_compute in (getOrdinalSuffix k) in
                 change (getOrdinalSuffix k) with v
             end;
             repeat split; intros H; try discriminate H; try reflexivity; try lia;
             exfalso; lia |]).
    apply Exists_nil in Hcases. contradiction.
Qed.

(** [extractTimeDigits].  When the hour in the selected format, the minute
    and the second are below 100, each of the six characters is a decimal
    digit, and every pair spells the number it was taken from. *)
Theorem extractTimeDigits_decodes (is24Hour : bool) (currentDateTime : DateTime.t) :
  0 <= (if is24Hour then DateTime.hour currentDateTime
        else DateTime.twelveHour currentDateTime) < 100 ->
  0 <= DateTime.minute currentDateTime < 100 ->
  0 <= DateTime.second currentDateTime < 100 ->
  let digits := extractTimeDigits is24Hour currentDateTime in
  Forall is_digit
    [hourTens digits; hourOnes digits; minTens digits; minOnes digits;
     secTens digits; secOnes digits]
  /\ digits_value (hourTens digits) (hourOnes digits)
     = (if is24Hour then DateTime.hour currentDateTime
        else DateTime.twelveHour currentDateTime)
  /\ digits_value (minTens digits) (minOnes digits) = DateTime.minute currentDateTime
  /\ digits_value (secTens digits) (secOnes digits) = DateTime.second currentDateTime.
Proof.
  intros Hh Hm Hs. cbv zeta. unfold extractTimeDigits. cbv zeta.
  cbn [hourOnes hourTens minOnes minTens secOnes secTens].
  set (h := if is24Hour then DateTime.hour currentDateTime
            else DateTime.twelveHour currentDateTime) in *.
  set (m := DateTime.minute currentDateTime) in *.
  set (s := DateTime.second currentDateTime) in *.
  clearbody h m s.
  rewrite !Z.rem_mod_nonneg, !Z.quot_div_nonneg by lia.
  unfold digits_value, is_digit, char_0.
  assert (Hu : forall x, 0 <= x < 100 ->
                 u8 (x mod 10 + 48) = x mod 10 + 48 /\ u8 (x / 10 + 48) = x / 10 + 48
                 /\ 0 <= x mod 10 <= 9 /\ 0 <= x / 10 <= 9 /\ 10 * (x / 10) + x mod 10 = x).
  { intros x Hx.
    assert (0 <= x mod 10 <= 9 /\ 0 <= x / 10 <= 9 /\ 10 * (x / 10) + x mod 10 = x)
      as (A & B & C) by (Z.div_mod_to_equations; lia).
    rewrite !u8_small by lia. repeat split; lia. }
  destruct (Hu h Hh) as (-> & -> & ? & ? & ?).
  destruct (Hu m Hm) as (-> & -> & ? & ? & ?).
  destruct (Hu s Hs) as (-> & -> & ? & ? & ?).
  unfold char_0.
  split; [repeat (apply List.Forall_cons; [lia |]); apply List.Forall_nil |].
  repeat split; lia.
Qed.

Lemma extractTimeDigits_decodes_witness :
  digits_value
    (hourTens (extractTimeDigits false
                 {| DateTime.hour := 14; DateTime.twelveHour := 2;
                    DateTime.minute := 35; DateTime.second := 47 |}))
    (hourOnes (extractTimeDigits false
                 {| DateTime.hour := 14; DateTime.twelveHour := 2;
                    DateTime.minute := 35; DateTime.second := 47 |}))
  = 2.
Proof.
  apply (extractTimeDigits_decodes false
           {| DateTime.hour := 14; DateTime.twelveHour := 2;
              DateTime.minute := 35; DateTime.second := 47 |});
    cbn; lia.
Defined.

(** * The rain animation *)

(** ** The board's answers are not changed by the calls *)

Lemma rain_spawn_board matrix drops a :
  Rain.millis_at (snd (Rain.spawnNewRaindrop matrix drops a)) = Rain.millis_at a
  /\ Rain.random_at (snd (Rain.spawnNewRaindrop matrix drops a)) = Rain.random_at a.
Proof.
  induction drops as [| d rest IH]; cbn [Rain.spawnNewRaindrop]; [split; reflexivity |].
  destruct (Rain.RainDrop.isActive d); cbn [negb].
  - destruct (Rain.spawnNewRaindrop matrix rest a) as [rest' a']. exact IH.
  - split; reflexivity.
Qed.

Lemma rain_create_board x flashes a :
  Rain.millis_at (snd (Rain.createGroundImpactFlash x flashes a)) = Rain.millis_at a
  /\ Rain.random_at (snd (Rain.createGroundImpactFlash x flashes a)) = Rain.random_at a.
Proof.
  induction flashes as [| f rest IH]; cbn [Rain.createGroundImpactFlash];
    [split; reflexivity |].
  destruct (Rain.GroundFlash.isActive f); cbn [negb].
  - destruct (Rain.createGroundImpactFlash x rest a) as [rest' a']. exact IH.
  - split; reflexivity.
Qed.

Lemma rain_fall_board matrix t d flashes a :
  Rain.millis_at (snd (Rain.fall matrix t d flashes a)) = Rain.millis_at a
  /\ Rain.random_at (snd (Rain.fall matrix t d flashes a)) = Rain.random_at a.
Proof.
  unfold Rain.fall.
  destruct (Rain.RainDrop.isActive d); [| split; reflexivity].
  destruct (_ >=? _); [| split; reflexivity].
  destruct (_ >=? _); [| split; reflexivity].
  pose proof (rain_create_board (Rain.RainDrop.positionX d) flashes a) as H.
  destruct (Rain.createGroundImpactFlash (Rain.RainDrop.positionX d) flashes a) as [fl a'].
  exact H.
Qed.

Lemma rain_fall_all_board matrix t drops : forall flashes a,
  Rain.millis_at (snd (Rain.fall_all matrix t drops flashes a)) = Rain.millis_at a
  /\ Rain.random_at (snd (Rain.fall_all matrix t drops flashes a)) = Rain.random_at a.
Proof.
  induction drops as [| d rest IH]; intros flashes a; cbn [Rain.fall_all];
    [split; reflexivity |].
  pose proof (rain_fall_board matrix t d flashes a) as H.
  destruct (Rain.fall matrix t d flashes a) as [[d' fl1] a1]. cbn [snd] in H.
  pose proof (IH fl1 a1) as H'.
  destruct (Rain.fall_all matrix t rest fl1 a1) as [[rest' fl2] a2]. cbn [snd] in *.
  destruct H as [H1 H2], H' as [H3 H4]. split; congruence.
Qed.

(** ** Active drops and flashes stay on the panel *)

Lemma rain_spawn_on_panel matrix drops a :
  0 < Rain.width matrix -> 0 < Rain.height matrix -> Rain.random_in_range a ->
  Forall (fun d => Rain.RainDrop.isActive d = true ->
                   0 <= Rain.RainDrop.positionX d < Rain.width matrix
                   /\ 0 <= Rain.RainDrop.positionY d < Rain.height matrix) drops ->
  Forall (fun d => Rain.RainDrop.isActive d = true ->
                   0 <= Rain.RainDrop.positionX d < Rain.width matrix
                   /\ 0 <= Rain.RainDrop.positionY d < Rain.height matrix)
    (fst (Rain.spawnNewRaindrop matrix drops a)).
Proof.
  intros Hw Hh Hr H. induction H as [| d rest Hd Hrest IH];
    cbn [Rain.spawnNewRaindrop]; [constructor |].
  destruct (Rain.RainDrop.isActive d) eqn:E; cbn [negb].
  - destruct (Rain.spawnNewRaindrop matrix rest a) as [rest' a']. cbn [fst] in *.
    constructor; [intros _; apply Hd; reflexivity | assumption].
  - cbn [fst]. constructor; [| assumption].
    intros _. cbn [Rain.RainDrop.positionX Rain.RainDrop.positionY].
    split; [apply Hr; assumption | lia].
Qed.

Lemma rain_create_on_panel matrix x flashes a :
  0 <= x < Rain.width matrix ->
  Forall (fun f => Rain.GroundFlash.isActive f = true ->
                   0 <= Rain.GroundFlash.positionX f < Rain.width matrix) flashes ->
  Forall (fun f => Rain.GroundFlash.isActive f = true ->
                   0 <= Rain.GroundFlash.positionX f < Rain.width matrix)
    (fst (Rain.createGroundImpactFlash x flashes a)).
Proof.
  intros Hx H. induction H as [| f rest Hf Hrest IH];
    cbn [Rain.createGroundImpactFlash]; [constructor |].
  destruct (Rain.GroundFlash.isActive f) eqn:E; cbn [negb].
  - destruct (Rain.createGroundImpactFlash x rest a) as [rest' a']. cbn [fst] in *.
    constructor; [intros _; apply Hf; reflexivity | assumption].
  - cbn [fst]. constructor; [| assumption]. intros _. exact Hx.
Qed.

Lemma rain_fall_on_panel matrix t d flashes a :
  (Rain.RainDrop.isActive d = true ->
   0 <= Rain.RainDrop.positionX d < Rain.width matrix
   /\ 0 <= Rain.RainDrop.positionY d < Rain.height matrix) ->
  Forall (fun f => Rain.GroundFlash.isActive f = true ->
                   0 <= Rain.GroundFlash.positionX f < Rain.width matrix) flashes ->
  (Rain.RainDrop.isActive (fst (fst (Rain.fall matrix t d flashes a))) = true ->
   0 <= Rain.RainDrop.positionX (fst (fst (Rain.fall matrix t d flashes a)))
     < Rain.width matrix
   /\ 0 <= Rain.RainDrop.positionY (fst (fst (Rain.fall matrix t d flashes a)))
      < Rain.height matrix)
  /\ Forall (fun f => Rain.GroundFlash.isActive f = true ->
                      0 <= Rain.GroundFlash.positionX f < Rain.width matrix)
       (snd (fst (Rain.fall matrix t d flashes a))).
Proof.
  intros Hd Hf. unfold Rain.fall.
  destruct (Rain.RainDrop.isActive d) eqn:E;
    [| cbn [fst snd]; split; [rewrite E; discriminate | exact Hf]].
  destruct (Hd eq_refl) as [Hx Hy].
  destruct (_ >=? _); [| cbn [fst snd]; split; [intros _; split; assumption | exact Hf]].
  rewrite Z.geb_leb.
  destruct (Z.leb_spec (Rain.height matrix) (Rain.RainDrop.positionY d + 1)).
  - pose proof (rain_create_on_panel matrix (Rain.RainDrop.positionX d) flashes a Hx Hf) as H'.
    destruct (Rain.createGroundImpactFlash (Rain.RainDrop.positionX d) flashes a) as [fl a'].
    cbn [fst snd Rain.RainDrop.isActive] in *. split; [discriminate | exact H'].
  - cbn [fst snd Rain.RainDrop.isActive Rain.RainDrop.positionX Rain.RainDrop.positionY].
    split; [intros _; split; lia | exact Hf].
Qed.

Lemma rain_fall_all_on_panel matrix t drops : forall flashes a,
  Forall (fun d => Rain.RainDrop.isActive d = true ->
                   0 <= Rain.RainDrop.positionX d < Rain.width matrix
                   /\ 0 <= Rain.RainDrop.positionY d < Rain.height matrix) drops ->
  Forall (fun f => Rain.GroundFlash.isActive f = true ->
                   0 <= Rain.GroundFlash.positionX f < Rain.width matrix) flashes ->
  Forall (fun d => Rain.RainDrop.isActive d = true ->
                   0 <= Rain.RainDrop.positionX d < Rain.width matrix
                   /\ 0 <= Rain.RainDrop.positionY d < Rain.height matrix)
    (fst (fst (Rain.fall_all matrix t drops flashes a)))
  /\ Forall (fun f => Rain.GroundFlash.isActive f = true ->
                      0 <= Rain.GroundFlash.positionX f < Rain.width matrix)
       (snd (fst (Rain.fall_all matrix t drops flashes a))).
Proof.
  induction drops as [| d rest IH]; intros flashes a Hd Hf; cbn [Rain.fall_all].
  - split; [constructor | exact Hf].
  - apply Forall_cons in Hd as [Hd Hrest].
    pose proof (rain_fall_on_panel matrix t d flashes a Hd Hf) as [H1 H2].
    destruct (Rain.fall matrix t d flashes a) as [[d' fl1] a1]. cbn [fst snd] in H1, H2.
    pose proof (IH fl1 a1 Hrest H2) as [H3 H4].
    destruct (Rain.fall_all matrix t rest fl1 a1) as [[rest' fl2] a2]. cbn [fst snd] in *.
    split; [apply List.Forall_cons; assumption | exact H4].
Qed.

Lemma rain_age_on_panel matrix fade t flashes :
  Forall (fun f => Rain.GroundFlash.isActive f = true ->
                   0 <= Rain.GroundFlash.positionX f < Rain.width matrix) flashes ->
  Forall (fun f => Rain.GroundFlash.isActive f = true ->
                   0 <= Rain.GroundFlash.positionX f < Rain.width matrix)
    (map (Rain.age fade t) flashes).
Proof.
  intros H. induction H as [| f rest Hf Hrest IH]; cbn [map]; [constructor |].
  apply List.Forall_cons; [| exact IH].
  unfold Rain.age. destruct (Rain.GroundFlash.isActive f) eqn:E; [| rewrite E; discriminate].
  destruct (_ >=? _); cbn [Rain.GroundFlash.isActive Rain.GroundFlash.positionX];
    [discriminate | intros _; apply Hf; reflexivity].
Qed.

(** What [update] does on an initialized object, step by step. *)
Lemma rain_update_eq fade st a :
  Rain.isInitializedFlag st = true ->
  let t0 := u32 (Rain.millis_at a (Rain.calls a)) in
  let due := u32 (t0 - Rain.lastRaindropSpawnTime st) >=? Rain.RAIN_SPAWN_INTERVAL_MS in
  let spawned := Rain.spawnNewRaindrop (Rain.ledMatrix st) (Rain.raindropArray st)
                   (Rain.next_call a) in
  let drops1 := if due then fst spawned else Rain.raindropArray st in
  let a2 := if due then snd spawned else Rain.next_call a in
  let t1 := u32 (Rain.millis_at a2 (Rain.calls a2)) in
  let fallen := Rain.fall_all (Rain.ledMatrix st) t1 drops1 (Rain.groundFlashArray st)
                  (Rain.next_call a2) in
  let a3 := snd fallen in
  let t2 := u32 (Rain.millis_at a3 (Rain.calls a3)) in
  Rain.update fade st a
  = ({| Rain.ledMatrix := Rain.ledMatrix st;
        Rain.raindropArray := fst (fst fallen);
        Rain.groundFlashArray := map (Rain.age fade t2) (snd (fst fallen));
        Rain.lastRaindropSpawnTime := if due then t0 else Rain.lastRaindropSpawnTime st;
        Rain.isInitializedFlag := true |}, Rain.next_call a3).
Proof.
  intros Hi. cbv zeta. unfold Rain.update. rewrite Hi. cbn [negb].
  unfold Rain.millis at 1. cbv iota beta.
  destruct (u32 (u32 (Rain.millis_at a (Rain.calls a)) - Rain.lastRaindropSpawnTime st)
            >=? Rain.RAIN_SPAWN_INTERVAL_MS).
  - destruct (Rain.spawnNewRaindrop (Rain.ledMatrix st) (Rain.raindropArray st)
                (Rain.next_call a)) as [drops' a'].
    cbn [fst snd]. unfold Rain.updateFallingRaindrops, Rain.millis at 1. cbv iota beta.
    destruct (Rain.fall_all (Rain.ledMatrix st) (u32 (Rain.millis_at a' (Rain.calls a')))
                drops' (Rain.groundFlashArray st) (Rain.next_call a')) as [[drops2 fl2] a3].
    cbn [fst snd]. reflexivity.
  - cbn [fst snd]. unfold Rain.updateFallingRaindrops, Rain.millis at 1. cbv iota beta.
    destruct (Rain.fall_all (Rain.ledMatrix st)
                (u32 (Rain.millis_at (Rain.next_call a) (Rain.calls (Rain.next_call a))))
                (Rain.raindropArray st) (Rain.groundFlashArray st)
                (Rain.next_call (Rain.next_call a))) as [[drops2 fl2] a3].
    cbn [fst snd]. reflexivity.
Qed.

Lemma rain_random_in_range_eq a a' :
  Rain.random_at a' = Rain.random_at a -> Rain.random_in_range a -> Rain.random_in_range a'.
Proof. intros E H k lo hi Hlt. rewrite E. apply H, Hlt. Qed.

Lemma rain_update_on_panel fade st a :
  0 < Rain.width (Rain.ledMatrix st) -> 0 < Rain.height (Rain.ledMatrix st) ->
  Rain.random_in_range a -> Rain.on_panel st ->
  Rain.on_panel (fst (Rain.update fade st a))
  /\ Rain.ledMatrix (fst (Rain.update fade st a)) = Rain.ledMatrix st
  /\ Rain.random_at (snd (Rain.update fade st a)) = Rain.random_at a.
Proof.
  intros Hw Hh Hr [Hd Hf].
  destruct (Rain.isInitializedFlag st) eqn:Hi.
  2:{ unfold Rain.update. rewrite Hi. cbn [negb fst snd].
      split; [split; assumption | split; reflexivity]. }
  rewrite (rain_update_eq fade st a Hi). cbv zeta. cbn [fst snd].
  set (due := u32 (u32 (Rain.millis_at a (Rain.calls a)) - Rain.lastRaindropSpawnTime st)
              >=? Rain.RAIN_SPAWN_INTERVAL_MS).
  set (spawned := Rain.spawnNewRaindrop (Rain.ledMatrix st) (Rain.raindropArray st)
                    (Rain.next_call a)).
  set (drops1 := if due then fst spawned else Rain.raindropArray st).
  set (a2 := if due then snd spawned else Rain.next_call a).
  assert (Hd1 : Forall (fun d => Rain.RainDrop.isActive d = true ->
                          0 <= Rain.RainDrop.positionX d < Rain.width (Rain.ledMatrix st)
                          /\ 0 <= Rain.RainDrop.positionY d < Rain.height (Rain.ledMatrix st))
                  drops1).
  { unfold drops1. destruct due; [| exact Hd].
    apply rain_spawn_on_panel; [assumption | assumption | exact Hr | exact Hd]. }
  assert (Ha2 : Rain.random_at a2 = Rain.random_at a).
  { unfold a2. destruct due; [| reflexivity].
    apply (rain_spawn_board (Rain.ledMatrix st) (Rain.raindropArray st) (Rain.next_call a)). }
  set (t1 := u32 (Rain.millis_at a2 (Rain.calls a2))).
  pose proof (rain_fall_all_on_panel (Rain.ledMatrix st) t1 drops1 (Rain.groundFlashArray st)
                (Rain.next_call a2) Hd1 Hf) as [H1 H2].
  pose proof (rain_fall_all_board (Rain.ledMatrix st) t1 drops1 (Rain.groundFlashArray st)
                (Rain.next_call a2)) as [_ H3].
  split; [| split; [reflexivity |]].
  - split; cbn [Rain.ledMatrix Rain.raindropArray Rain.groundFlashArray];
      [exact H1 | apply rain_age_on_panel, H2].
  - cbn [Rain.random_at Rain.next_call]. rewrite H3. exact Ha2.
Qed.

Lemma rain_do_call_on_panel fade s c :
  0 < Rain.width (Rain.ledMatrix (fst s)) -> 0 < Rain.height (Rain.ledMatrix (fst s)) ->
  Rain.random_in_range (snd s) -> Rain.on_panel (fst s) ->
  Rain.on_panel (fst (Rain.do_call fade s c))
  /\ Rain.ledMatrix (fst (Rain.do_call fade s c)) = Rain.ledMatrix (fst s)
  /\ Rain.random_at (snd (Rain.do_call fade s c)) = Rain.random_at (snd s).
Proof.
  intros Hw Hh Hr Hp. destruct c; cbn [Rain.do_call].
  - unfold Rain.initialize, Rain.millis. cbn [fst snd].
    split; [exact Hp | split; reflexivity].
  - apply rain_update_on_panel; assumption.
Qed.

Lemma rain_run_on_panel fade cs : forall s,
  0 < Rain.width (Rain.ledMatrix (fst s)) -> 0 < Rain.height (Rain.ledMatrix (fst s)) ->
  Rain.random_in_range (snd s) -> Rain.on_panel (fst s) ->
  Rain.on_panel (fst (Rain.run fade cs s))
  /\ Rain.ledMatrix (fst (Rain.run fade cs s)) = Rain.ledMatrix (fst s).
Proof.
  induction cs as [| c cs IH]; intros s Hw Hh Hr Hp; [split; [exact Hp | reflexivity] |].
  change (Rain.run fade (c :: cs) s) with (Rain.run fade cs (Rain.do_call fade s c)).
  destruct (rain_do_call_on_panel fade s c Hw Hh Hr Hp) as (Hp' & Hm & Hrnd).
  destruct (IH (Rain.do_call fade s c)) as [IH1 IH2].
  - rewrite Hm. exact Hw.
  - rewrite Hm. exact Hh.
  - apply (rain_random_in_range_eq (snd s)); assumption.
  - exact Hp'.
  - split; [exact IH1 | rewrite IH2; exact Hm].
Qed.

Lemma rain_new_on_panel matrix drops flashes :
  Rain.on_panel (Rain.RainEffect_new matrix drops flashes).
Proof.
  split; cbn [Rain.RainEffect_new Rain.raindropArray Rain.groundFlashArray];
    apply List.Forall_forall; intros x Hx; apply in_map_iff in Hx as (i & <- & _);
    cbn; discriminate.
Qed.

Lemma rain_render_pixels st pixels :
  0 < Rain.width (Rain.ledMatrix st) -> 0 < Rain.height (Rain.ledMatrix st) ->
  Rain.on_panel st -> Rain.render st = Some pixels ->
  Forall (Rain.in_matrix (Rain.ledMatrix st)) pixels.
Proof.
  intros Hw Hh [Hd Hf]. unfold Rain.render.
  destruct (negb (Rain.isInitializedFlag st)); [discriminate |].
  destruct (_ || _); [| discriminate].
  intros [= <-]. apply Forall_app. split.
  - induction Hd as [| d rest Hd Hrest IH]; cbn [map concat]; [constructor |].
    apply Forall_app. split; [| exact IH].
    unfold Rain.drop_pixels. destruct (Rain.RainDrop.isActive d); [| constructor].
    apply List.Forall_cons; [| constructor]. apply Hd. reflexivity.
  - induction Hf as [| f rest Hf Hrest IH]; cbn [map concat]; [constructor |].
    apply Forall_app. split; [| exact IH].
    unfold Rain.flash_pixels. destruct (Rain.GroundFlash.isActive f); [| constructor].
    specialize (Hf eq_refl). cbv zeta.
    repeat (apply Forall_app; split).
    + apply List.Forall_cons; [| constructor]. unfold Rain.in_matrix. cbn [fst snd]. lia.
    + destruct (_ >? 10); [| constructor]. apply Forall_app. split.
      * destruct (Z.gtb_spec (Rain.GroundFlash.positionX f) 0); [| constructor].
        apply List.Forall_cons; [| constructor]. unfold Rain.in_matrix. cbn [fst snd]. lia.
      * destruct (Z.ltb_spec (Rain.GroundFlash.positionX f)
                    (Rain.width (Rain.ledMatrix st) - 1)); [| constructor].
        apply List.Forall_cons; [| constructor]. unfold Rain.in_matrix. cbn [fst snd]. lia.
    + destruct (_ >? 5); cbn [andb]; [| constructor].
      destruct (Z.gtb_spec (Rain.height (Rain.ledMatrix st) - 1) 0); [| constructor].
      apply List.Forall_cons; [| constructor]. unfold Rain.in_matrix. cbn [fst snd]. lia.
Qed.

(** [render] stays on the panel.  On a panel with at least one row and one
    column, whatever the cells hold before the constructor runs, whatever the
    clock says and whatever [random] answers within its range, after any
    sequence of [initialize] and [update] calls every active drop and flash
    has its coordinates on the panel, and every pixel that [render] draws,
    the spread and splash of the flashes included, is a pixel of the panel. *)
Theorem rain_render_on_panel (fade : Z -> Z) (matrix : Rain.Max72xxPanel)
    (drops : nat -> Rain.RainDrop.t) (flashes : nat -> Rain.GroundFlash.t)
    (a : Rain.Arduino) (cs : list Rain.call) :
  0 < Rain.width matrix -> 0 < Rain.height matrix -> Rain.random_in_range a ->
  let st := fst (Rain.run fade cs (Rain.RainEffect_new matrix drops flashes, a)) in
  Rain.on_panel st
  /\ forall pixels, Rain.render st = Some pixels -> Forall (Rain.in_matrix matrix) pixels.
Proof.
  intros Hw Hh Hr. cbv zeta.
  destruct (rain_run_on_panel fade cs (Rain.RainEffect_new matrix drops flashes, a))
    as [Hp Hm]; try assumption; [apply rain_new_on_panel |].
  cbn [fst Rain.RainEffect_new Rain.ledMatrix] in Hm.
  split; [exact Hp |]. intros pixels Hpix.
  rewrite <- Hm. apply rain_render_pixels; [rewrite Hm .. | |]; assumption.
Qed.

Lemma rain_render_on_panel_witness :
  Rain.on_panel
    (fst (Rain.run (fun _ => 15) [Rain.Initialize; Rain.Update; Rain.Update]
            (Rain.RainEffect_new Rain.panel_32x8 (fun _ => Rain.blank_drop)
               (fun _ => Rain.blank_flash), Rain.steady_board 300))).
Proof.
  apply (rain_render_on_panel (fun _ => 15) Rain.panel_32x8 (fun _ => Rain.blank_drop)
           (fun _ => Rain.blank_flash) (Rain.steady_board 300)
           [Rain.Initialize; Rain.Update; Rain.Update]).
  - reflexivity.
  - reflexivity.
  - intros k howsmall howbig H. cbn. lia.
Defined.

(** ** How many drops and flashes there are *)

Lemma rain_spawn_count matrix drops a :
  (length (List.filter Rain.RainDrop.isActive (fst (Rain.spawnNewRaindrop matrix drops a)))
   <= S (length (List.filter Rain.RainDrop.isActive drops)))%nat
  /\ length (fst (Rain.spawnNewRaindrop matrix drops a)) = length drops.
Proof.
  induction drops as [| d rest IH]; cbn [Rain.spawnNewRaindrop]; [cbn; split; lia |].
  destruct (Rain.RainDrop.isActive d) eqn:E; cbn [negb].
  - destruct (Rain.spawnNewRaindrop matrix rest a) as [rest' a']. cbn [fst] in *.
    cbn [List.filter length]. rewrite E. cbn [length]. split; lia.
  - unfold Rain.random, Rain.millis.
    cbn [fst List.filter Rain.RainDrop.isActive length]. rewrite E. split; lia.
Qed.

Lemma rain_create_length x flashes a :
  length (fst (Rain.createGroundImpactFlash x flashes a)) = length flashes.
Proof.
  induction flashes as [| f rest IH]; cbn [Rain.createGroundImpactFlash]; [reflexivity |].
  destruct (Rain.GroundFlash.isActive f); cbn [negb].
  - destruct (Rain.createGroundImpactFlash x rest a) as [rest' a']. cbn [fst length] in *.
    rewrite IH. reflexivity.
  - unfold Rain.millis. reflexivity.
Qed.

Lemma rain_fall_active matrix t d flashes a :
  (Rain.RainDrop.isActive (fst (fst (Rain.fall matrix t d flashes a))) = true ->
   Rain.RainDrop.isActive d = true)
  /\ length (snd (fst (Rain.fall matrix t d flashes a))) = length flashes.
Proof.
  unfold Rain.fall.
  destruct (Rain.RainDrop.isActive d) eqn:E; [| cbn [fst snd]; rewrite E; split; auto].
  destruct (_ >=? _); [| cbn [fst snd]; split; auto].
  destruct (_ >=? _); [| cbn [fst snd]; split; auto].
  pose proof (rain_create_length (Rain.RainDrop.positionX d) flashes a) as H.
  destruct (Rain.createGroundImpactFlash (Rain.RainDrop.positionX d) flashes a) as [fl a'].
  cbn [fst snd] in *. split; auto.
Qed.

Lemma rain_fall_all_count matrix t drops : forall flashes a,
  (length (List.filter Rain.RainDrop.isActive
             (fst (fst (Rain.fall_all matrix t drops flashes a))))
   <= length (List.filter Rain.RainDrop.isActive drops))%nat
  /\ length (fst (fst (Rain.fall_all matrix t drops flashes a))) = length drops
  /\ length (snd (fst (Rain.fall_all matrix t drops flashes a))) = length flashes.
Proof.
  induction drops as [| d rest IH]; intros flashes a; cbn [Rain.fall_all];
    [cbn; repeat split; lia |].
  pose proof (rain_fall_active matrix t d flashes a) as [H1 H2].
  destruct (Rain.fall matrix t d flashes a) as [[d' fl1] a1]. cbn [fst snd] in H1, H2.
  pose proof (IH fl1 a1) as (H3 & H4 & H5).
  destruct (Rain.fall_all matrix t rest fl1 a1) as [[rest' fl2] a2]. cbn [fst snd] in *.
  cbn [List.filter length].
  split; [| split; lia].
  destruct (Rain.RainDrop.isActive d') eqn:E'.
  - rewrite (H1 eq_refl). cbn [length]. lia.
  - destruct (Rain.RainDrop.isActive d); cbn [length]; lia.
Qed.

(** The spawn timer.  An initialized object is updated when the clock has
    advanced by [elapsed] milliseconds since the last spawn, counted
    through a wrap-around of the 32-bit clock if there was one.  Below 250
    ms the spawn time is kept and no drop is added; from 250 ms on the spawn
    time becomes the present time, also when no cell was free, and at most
    one drop is added. *)
Theorem rain_spawn_interval (fade : Z -> Z) (st : Rain.RainEffect) (a : Rain.Arduino)
    (elapsed : Z) :
  Rain.isInitializedFlag st = true ->
  0 <= Rain.lastRaindropSpawnTime st < 4294967296 ->
  0 <= elapsed < 4294967296 ->
  u32 (Rain.millis_at a (Rain.calls a)) = u32 (Rain.lastRaindropSpawnTime st + elapsed) ->
  let st' := fst (Rain.update fade st a) in
  Rain.lastRaindropSpawnTime st'
  = (if elapsed <? Rain.RAIN_SPAWN_INTERVAL_MS then Rain.lastRaindropSpawnTime st
     else u32 (Rain.lastRaindropSpawnTime st + elapsed))
  /\ (Rain.active_drops st'
      <= Rain.active_drops st
         + (if (elapsed <? Rain.RAIN_SPAWN_INTERVAL_MS)%Z then 0 else 1))%nat.
Proof.
  intros Hi Hlast Hel Hnow. cbv zeta.
  rewrite (rain_update_eq fade st a Hi). cbv zeta. cbn [fst snd].
  rewrite Hnow.
  assert (Hd : u32 (u32 (Rain.lastRaindropSpawnTime st + elapsed)
                    - Rain.lastRaindropSpawnTime st) = elapsed).
  { unfold u32. Z.div_mod_to_equations. lia. }
  rewrite Hd. rewrite Z.geb_leb.
  unfold Rain.active_drops. cbn [Rain.lastRaindropSpawnTime Rain.raindropArray].
  destruct (Z.leb_spec Rain.RAIN_SPAWN_INTERVAL_MS elapsed) as [Hge | Hlt];
    destruct (Z.ltb_spec elapsed Rain.RAIN_SPAWN_INTERVAL_MS) as [Hlt' | Hge']; try lia.
  - split; [reflexivity |].
    match goal with
    | |- context [Rain.fall_all ?m ?t ?d ?f ?b] =>
        pose proof (rain_fall_all_count m t d f b) as (Hc & _ & _)
    end.
    pose proof (rain_spawn_count (Rain.ledMatrix st) (Rain.raindropArray st)
                  (Rain.next_call a)) as [Hs _].
    lia.
  - split; [reflexivity |].
    match goal with
    | |- context [Rain.fall_all ?m ?t ?d ?f ?b] =>
        pose proof (rain_fall_all_count m t d f b) as (Hc & _ & _)
    end.
    lia.
Qed.

Lemma rain_spawn_interval_witness :
  Rain.lastRaindropSpawnTime
    (fst (Rain.update (fun _ => 15) (fst (Rain.started 300)) (snd (Rain.started 300))))
  = (if 300 <? Rain.RAIN_SPAWN_INTERVAL_MS then 0 else u32 (0 + 300)).
Proof.
  apply (rain_spawn_interval (fun _ => 15) (fst (Rain.started 300)) (snd (Rain.started 300))
           300).
  - reflexivity.
  - vm_compute. split; [discriminate | reflexivity].
  - lia.
  - reflexivity.
Defined.

Lemma rain_do_call_lengths fade s c :
  length (Rain.raindropArray (fst (Rain.do_call fade s c)))
  = length (Rain.raindropArray (fst s))
  /\ length (Rain.groundFlashArray (fst (Rain.do_call fade s c)))
     = length (Rain.groundFlashArray (fst s)).
Proof.
  destruct c; cbn [Rain.do_call].
  - unfold Rain.initialize, Rain.millis. cbn [fst snd]. split; reflexivity.
  - destruct (Rain.isInitializedFlag (fst s)) eqn:Hi.
    2:{ unfold Rain.update. rewrite Hi. cbn [negb fst]. split; reflexivity. }
    rewrite (rain_update_eq fade (fst s) (snd s) Hi). cbv zeta.
    cbn [fst Rain.raindropArray Rain.groundFlashArray].
    match goal with
    | |- context [Rain.fall_all ?m ?t ?d ?f ?b] =>
        pose proof (rain_fall_all_count m t d f b) as (_ & Hd & Hf)
    end.
    rewrite length_map, Hd, Hf. split; [| reflexivity].
    destruct (_ >=? _); [| reflexivity].
    apply rain_spawn_count.
Qed.

Lemma rain_run_lengths fade cs : forall s,
  length (Rain.raindropArray (fst (Rain.run fade cs s)))
  = length (Rain.raindropArray (fst s))
  /\ length (Rain.groundFlashArray (fst (Rain.run fade cs s)))
     = length (Rain.groundFlashArray (fst s)).
Proof.
  induction cs as [| c cs IH]; intros s; [split; reflexivity |].
  change (Rain.run fade (c :: cs) s) with (Rain.run fade cs (Rain.do_call fade s c)).
  destruct (IH (Rain.do_call fade s c)) as [-> ->]. apply rain_do_call_lengths.
Qed.

Lemma rain_spawn_full matrix drops a :
  forallb Rain.RainDrop.isActive drops = true ->
  Rain.spawnNewRaindrop matrix drops a = (drops, a).
Proof.
  induction drops as [| d rest IH]; [reflexivity |].
  cbn [forallb Rain.spawnNewRaindrop]. intros [Hd Hrest]%andb_true_iff.
  rewrite Hd, (IH Hrest). reflexivity.
Qed.

Lemma rain_create_full x flashes a :
  forallb Rain.GroundFlash.isActive flashes = true ->
  Rain.createGroundImpactFlash x flashes a = (flashes, a).
Proof.
  induction flashes as [| f rest IH]; [reflexivity |].
  cbn [forallb Rain.createGroundImpactFlash]. intros [Hf Hrest]%andb_true_iff.
  rewrite Hf, (IH Hrest). reflexivity.
Qed.

(** Capacity.  After any sequence of calls the object still has its 8 drop
    cells and 6 flash cells, so there are never more than 8 drops or 6
    flashes.  When all drop cells are active [spawnNewRaindrop] changes
    nothing and asks the board nothing.  When all flash cells are active
    [createGroundImpactFlash] changes nothing, and a drop that reaches the
    ground is deactivated without a flash. *)
Theorem rain_capacity (fade : Z -> Z) (matrix : Rain.Max72xxPanel)
    (drops : nat -> Rain.RainDrop.t) (flashes : nat -> Rain.GroundFlash.t)
    (a : Rain.Arduino) (cs : list Rain.call) :
  let st := fst (Rain.run fade cs (Rain.RainEffect_new matrix drops flashes, a)) in
  length (Rain.raindropArray st) = Rain.MAX_RAINDROPS
  /\ length (Rain.groundFlashArray st) = Rain.MAX_GROUND_FLASHES
  /\ (Rain.active_drops st <= Rain.MAX_RAINDROPS)%nat
  /\ (Rain.active_flashes st <= Rain.MAX_GROUND_FLASHES)%nat
  /\ (forallb Rain.RainDrop.isActive (Rain.raindropArray st) = true ->
      forall b, Rain.spawnNewRaindrop matrix (Rain.raindropArray st) b
                = (Rain.raindropArray st, b))
  /\ (forallb Rain.GroundFlash.isActive (Rain.groundFlashArray st) = true ->
      forall b,
        (forall x, Rain.createGroundImpactFlash x (Rain.groundFlashArray st) b
                   = (Rain.groundFlashArray st, b))
        /\ (forall currentTime d,
              Rain.RainDrop.isActive d = true ->
              u32 (Rain.RainDrop.fallSpeedMs d)
                <= u32 (currentTime - Rain.RainDrop.lastMoveTime d) ->
              Rain.height matrix <= Rain.RainDrop.positionY d + 1 ->
              Rain.RainDrop.isActive
                (fst (fst (Rain.fall matrix currentTime d (Rain.groundFlashArray st) b)))
              = false
              /\ snd (fst (Rain.fall matrix currentTime d (Rain.groundFlashArray st) b))
                 = Rain.groundFlashArray st
              /\ snd (Rain.fall matrix currentTime d (Rain.groundFlashArray st) b) = b)).
Proof.
  cbv zeta.
  destruct (rain_run_lengths fade cs (Rain.RainEffect_new matrix drops flashes, a))
    as [Hd Hf].
  cbn [fst Rain.RainEffect_new Rain.raindropArray Rain.groundFlashArray] in Hd, Hf.
  rewrite length_map, length_seq in Hd, Hf.
  split; [exact Hd |]. split; [exact Hf |].
  split; [unfold Rain.active_drops; rewrite <- Hd; apply filter_length_le |].
  split; [unfold Rain.active_flashes; rewrite <- Hf; apply filter_length_le |].
  split; [intros Hfull b; apply rain_spawn_full, Hfull |].
  intros Hfull b. split; [intros x; apply rain_create_full, Hfull |].
  intros t d Hact Hdue Hground. unfold Rain.fall. rewrite Hact.
  rewrite !Z.geb_leb.
  destruct (Z.leb_spec (u32 (Rain.RainDrop.fallSpeedMs d))
              (u32 (t - Rain.RainDrop.lastMoveTime d))); [| lia].
  destruct (Z.leb_spec (Rain.height matrix) (Rain.RainDrop.positionY d + 1)); [| lia].
  rewrite (rain_create_full _ _ b Hfull). cbn [fst snd Rain.RainDrop.isActive].
  repeat split.
Qed.


